(** * Neuroglancer data sources (DVID, precomputed, Clio): a shallow embedding

    The development follows the TypeScript sources file by file:

    - [Js]          the JavaScript values and built-ins the sources rely on
                    (exceptions, JSON values, [Map], [Headers], Numbers
                    and 32-bit floats, number printing, a matcher for
                    regular expression literals);
    - [DvidApi]     [datasource/dvid/api.ts];
    - [DvidFrontend] [datasource/dvid/frontend.ts];
    - [Backend]     requests and 64-bit identifiers of the back ends;
    - [DvidBackend] the chunk sources of the DVID back end;
    - [Precomputed] [datasource/precomputed/backend.ts];
    - [Clio]        [datasource/clio/utils.ts], and [parseSourceUrl] and
                    [ClioAnnotationSource] of the Clio front end;
    - [SegmentationDisplayStateBackend]
                    [segmentation_display_state/backend.ts];
    - [AnnotationLayerState] [annotation/annotation_layer_state.ts].

    Every module first gives the definitions, in the order of the source,
    and then the statements proved about them. *)

From Stdlib Require Import ZArith QArith Qround Qabs Qpower Lia.
From Stdlib Require Import Ascii DecimalString DecimalZ DecimalPos.
From Stdlib.Strings Require Import Byte.
From Stdlib Require Qcanon.
From stdpp Require Import base gmap strings list.

Set Warnings "-register-all".

(** ** JavaScript values and built-ins *)

Module Js.

(** A thrown value.  [new Error(msg)] has a message and no [status];
    the [HttpError] of [util/http_request] carries the response status. *)
Record Error := mkError { message : string; status : option Z }.

Definition new_Error (msg : string) : Error := mkError msg None.

(** The outcome of a call that may throw. *)
Inductive Result (A : Type) : Type :=
| Ok (a : A)
| Throw (e : Error).
Global Arguments Ok {A} a.
Global Arguments Throw {A} e.

Definition bind {A B} (m : Result A) (k : A -> Result B) : Result B :=
  match m with
  | Ok a => k a
  | Throw e => Throw e
  end.

Global Instance Result_ret : MRet Result := fun A a => Ok a.
Global Instance Result_bind : MBind Result := fun A B k m => bind m k.

Definition is_Ok {A} (m : Result A) : bool :=
  match m with Ok _ => true | Throw _ => false end.

(** [try { body } catch (e) { handler(e) }] *)
Definition try_catch {A} (body : Result A) (handler : Error -> Result A) : Result A :=
  match body with
  | Ok a => Ok a
  | Throw e => handler e
  end.

(** A value of type [any] as the parsers receive it: the result of
    [JSON.parse], or [undefined] for a property that is absent.  Numbers
    are the finite rationals they denote. *)
Inductive json : Type :=
| JUndefined
| JNull
| JBool (b : bool)
| JNum (q : Q)
| JStr (s : string)
| JArr (l : list json)
| JObj (l : list (string * json)).

(** [s.startsWith(p)] *)
Definition startsWith (s p : string) : bool := String.prefix p s.

(** Decimal digits of an integer, as [toString] gives them for every
    integer that is printed without an exponent. *)
Definition decimal (z : Z) : string := NilZero.string_of_int (Z.to_int z).

(** [Object.keys(o)]: the own enumerable property names, in insertion
    order; the indices for an array. *)
Definition Object_keys (o : json) : list string :=
  match o with
  | JObj l => map fst l
  | JArr l => map (fun i => decimal (Z.of_nat i)) (seq 0 (length l))
  | _ => []
  end.

Fixpoint assoc {V} (l : list (string * V)) (key : string) : option V :=
  match l with
  | [] => None
  | (k, v) :: l' => if String.eqb k key then Some v else assoc l' key
  end.

(** [o[key]] for a key taken from [Object.keys(o)] *)
Definition get_property (o : json) (key : string) : json :=
  match o with
  | JObj l => default JUndefined (assoc l key)
  | _ => JUndefined
  end.

(** *** [Map<string, V>]: entries in insertion order, keys unique *)

Definition Map (V : Type) : Type := list (string * V).

Definition Map_get {V} (m : Map V) (key : string) : option V := assoc m key.

Definition Map_keys {V} (m : Map V) : list string := map fst m.

Fixpoint Map_set {V} (m : Map V) (key : string) (v : V) : Map V :=
  match m with
  | [] => [(key, v)]
  | (k, w) :: m' =>
      if String.eqb k key then (k, v) :: m' else (k, w) :: Map_set m' key v
  end.

Definition Map_wf {V} (m : Map V) : Prop := NoDup (Map_keys m).

(** *** [Set<string>]: elements in insertion order *)

Definition Set_add (s : list string) (key : string) : list string :=
  if bool_decide (key ∈ s) then s else s ++ [key].

(** *** Numbers and [Float32Array] triples ([vec3] of [util/geom]) *)

Record vec3 := Vec3 { v0 : Q; v1 : Q; v2 : Q }.

Definition vec3_create : vec3 := Vec3 0 0 0.
Definition vec3_fromValues (x y z : Q) : vec3 := Vec3 x y z.
Definition vec3_clone (v : vec3) : vec3 := v.
Definition vec3_get (v : vec3) (i : nat) : Q :=
  match i with
  | O => v0 v
  | S O => v1 v
  | _ => v2 v
  end.
(** [for (let i = 0; i < 3; ++i) out[i] = f(i)] *)
Definition vec3_tabulate (f : nat -> Q) : vec3 := Vec3 (f 0%nat) (f 1%nat) (f 2%nat).
(** [v.map(f)] *)
Definition vec3_map (f : Q -> Q) (v : vec3) : vec3 := Vec3 (f (v0 v)) (f (v1 v)) (f (v2 v)).
(** A [vec3] of integers. *)
Definition ivec3 (x y z : Z) : vec3 := Vec3 (inject_Z x) (inject_Z y) (inject_Z z).

Definition Math_floor (x : Q) : Q := inject_Z (Qfloor x).
Definition Math_ceil (x : Q) : Q := inject_Z (Qceiling x).
(** [2^level], the factor between the resolution of a level and the
    base resolution *)
Definition Math_pow2 (level : nat) : Q := inject_Z (2 ^ Z.of_nat level).

(** [Math.round(x)]: the integer nearest to [x], a tie going up *)
Definition Math_round (x : Q) : Q := inject_Z (Qfloor (x + (1 # 2))).

(** *** Number values and [Number::toString]

    A Number is modelled by the rational it denotes.  [Number_of] is the
    rounding every arithmetic result goes through: to the nearest
    rational with a 53-bit significand, ties to even.  The exponent range
    is not bounded (no overflow to [Infinity], no subnormal numbers). *)

(** [n / d] rounded to the nearest integer, ties to even ([0 < d]) *)
Definition round_half_even (n d : Z) : Z :=
  let q := (n / d)%Z in
  match (2 * (n mod d) ?= d)%Z with
  | Lt => q
  | Gt => (q + 1)%Z
  | Eq => if Z.even q then q else (q + 1)%Z
  end.

(** [x * 2^k] as a fraction *)
Definition scale2 (x : Q) (k : Z) : Z * Z :=
  if (0 <=? k)%Z then (Qnum x * 2 ^ k, Zpos (Qden x))%Z
  else (Qnum x, Zpos (Qden x) * 2 ^ (- k))%Z.

(** [m * 2^k] *)
Definition of_scaled (m k : Z) : Q :=
  if (0 <=? k)%Z then inject_Z (m * 2 ^ k) else Qred (m # Z.to_pos (2 ^ (- k))).

(** The binary exponent of [x > 0]: [2^e <= x < 2^(e+1)]. *)
Definition exponent2 (x : Q) : Z :=
  let e0 := (Z.log2 (Qnum x) - Z.log2 (Zpos (Qden x)))%Z in
  let '(n, d) := scale2 x (- e0) in
  if (d <=? n)%Z then e0 else (e0 - 1)%Z.

Definition Number_of_pos (x : Q) : Q :=
  let e := exponent2 x in
  let '(n, d) := scale2 x (52 - e) in
  of_scaled (round_half_even n d) (e - 52).

Definition Number_of (x : Q) : Q :=
  let x := Qred x in
  match Qnum x with
  | Z0 => 0
  | Zpos _ => Number_of_pos x
  | Zneg _ => - Number_of_pos (- x)
  end.

(** [x] is a Number value. *)
Definition is_Number (x : Q) : bool := Qeq_bool (Number_of x) x.

(** [a + b] on Numbers *)
Definition Number_add (a b : Q) : Q := Number_of (a + b).

(** [Math.fround(x)], which is also what a store into a [Float32Array]
    keeps of [x]: the nearest rational with a 24-bit significand, ties to
    even (the exponent range is not bounded, as for [Number_of]). *)
Definition Math_fround_pos (x : Q) : Q :=
  let e := exponent2 x in
  let '(n, d) := scale2 x (23 - e) in
  of_scaled (round_half_even n d) (e - 23).

Definition Math_fround (x : Q) : Q :=
  let x := Qred x in
  match Qnum x with
  | Z0 => 0
  | Zpos _ => Math_fround_pos x
  | Zneg _ => - Math_fround_pos (- x)
  end.

(** [a * b] and [a / b] on Numbers *)
Definition Number_mul (a b : Q) : Q := Number_of (a * b).
Definition Number_div (a b : Q) : Q := Number_of (a / b).

(** [v[i] = x] on a [Float32Array] of length three: the value is rounded
    to a 32-bit float, and an index past the end is ignored. *)
Definition vec3_set (v : vec3) (i : nat) (x : Q) : vec3 :=
  match i with
  | 0%nat => Vec3 (Math_fround x) (v1 v) (v2 v)
  | 1%nat => Vec3 (v0 v) (Math_fround x) (v2 v)
  | 2%nat => Vec3 (v0 v) (v1 v) (Math_fround x)
  | _ => v
  end.

(** [vec3.multiply(out, a, b)] and [vec3.add(out, a, b)] as they are
    computed: each component is a Number, and the store into [out] keeps
    a 32-bit float. *)
Definition vec3_multiply32 (a b : vec3) : vec3 :=
  Vec3 (Math_fround (Number_mul (v0 a) (v0 b))) (Math_fround (Number_mul (v1 a) (v1 b)))
       (Math_fround (Number_mul (v2 a) (v2 b))).

Definition vec3_add32 (a b : vec3) : vec3 :=
  Vec3 (Math_fround (Number_add (v0 a) (v0 b))) (Math_fround (Number_add (v1 a) (v1 b)))
       (Math_fround (Number_add (v2 a) (v2 b))).

(** *** Numbers with the range of IEEE 754

    Where a computed value can leave the range of its format, a Number
    is [Finite] with the rational it denotes, or one of the infinities,
    or [NaN].  The sign of a zero is not kept: a zero counts as
    positive. *)

Inductive number : Type :=
| Finite (q : Q)
| Infinity
| NegInfinity
| NaN.

(** [x > 0] rounded to [p] bits, ties to even, in a format whose least
    exponent is [emin]: below [2^emin] the spacing stays that of
    [2^emin] (the subnormal numbers, and zero below half of the least of
    them). *)
Definition binary_round_pos (p emin : Z) (x : Q) : Q :=
  let e := Z.max (exponent2 x) emin in
  let '(n, d) := scale2 x (p - 1 - e) in
  of_scaled (round_half_even n d) (e - (p - 1)).

(** Rounding to the format with [p] bits and the exponents [emin] to
    [emax]: a result of [2^(emax+1)] or more is an infinity. *)
Definition binary_round (p emin emax : Z) (x : Q) : number :=
  let x := Qred x in
  match Qnum x with
  | Z0 => Finite 0
  | Zpos _ =>
      let r := binary_round_pos p emin x in
      if Qle_bool (of_scaled 1 (emax + 1)) r then Infinity else Finite r
  | Zneg _ =>
      let r := binary_round_pos p emin (- x) in
      if Qle_bool (of_scaled 1 (emax + 1)) r then NegInfinity else Finite (- r)
  end.

(** The Number nearest to a real, and the 32-bit float nearest to it. *)
Definition double_round : Q -> number := binary_round 53 (-1022) 1023.
Definition float32_round : Q -> number := binary_round 24 (-126) 127.

Definition infinity (negative : bool) : number := if negative then NegInfinity else Infinity.

Definition is_negative (a : number) : bool :=
  match a with
  | Finite x => (Qnum x <? 0)%Z
  | NegInfinity => true
  | _ => false
  end.

Definition is_zero (a : number) : bool :=
  match a with
  | Finite x => (Qnum x =? 0)%Z
  | _ => false
  end.

Definition is_NaN (a : number) : bool :=
  match a with
  | NaN => true
  | _ => false
  end.

(** [a * b] *)
Definition double_mul (a b : number) : number :=
  match a, b with
  | Finite x, Finite y => double_round (x * y)
  | _, _ =>
      if is_NaN a || is_NaN b || is_zero a || is_zero b then NaN
      else infinity (xorb (is_negative a) (is_negative b))
  end.

(** [a / b] *)
Definition double_div (a b : number) : number :=
  match a, b with
  | Finite x, Finite y =>
      if is_zero b then (if is_zero a then NaN else infinity (is_negative a))
      else double_round (x / y)
  | Finite _, (Infinity | NegInfinity) => Finite 0
  | (Infinity | NegInfinity), Finite _ => infinity (xorb (is_negative a) (is_negative b))
  | _, _ => NaN
  end.

(** [Math.floor(a)] and [Math.ceil(a)] *)
Definition double_floor (a : number) : number :=
  match a with
  | Finite x => Finite (inject_Z (Qfloor x))
  | _ => a
  end.

Definition double_ceil (a : number) : number :=
  match a with
  | Finite x => Finite (inject_Z (Qceiling x))
  | _ => a
  end.

(** [Math.pow(2, level)] for a loop counter: the power of two, or
    [Infinity] from [2^1024] on. *)
Definition Math_pow_2 (level : nat) : number := double_round (inject_Z (2 ^ Z.of_nat level)).

(** What a store into a [Float32Array] keeps of a Number. *)
Definition Float32_store (a : number) : number :=
  match a with
  | Finite x => float32_round x
  | _ => a
  end.

(** A [Float32Array] of length three whose elements may be infinite or
    [NaN]. *)
Record Float32Array3 := { f0 : number; f1 : number; f2 : number }.

(** The elements of a [vec3], which are finite. *)
Definition Float32Array3_of (v : vec3) : Float32Array3 :=
  {| f0 := Finite (v0 v); f1 := Finite (v1 v); f2 := Finite (v2 v) |}.

Definition Float32Array3_get (a : Float32Array3) (i : nat) : number :=
  match i with
  | O => f0 a
  | S O => f1 a
  | _ => f2 a
  end.

(** [a[i] = x]; an index past the end is ignored. *)
Definition Float32Array3_set (a : Float32Array3) (i : nat) (x : number) : Float32Array3 :=
  match i with
  | 0%nat => {| f0 := Float32_store x; f1 := f1 a; f2 := f2 a |}
  | 1%nat => {| f0 := f0 a; f1 := Float32_store x; f2 := f2 a |}
  | 2%nat => {| f0 := f0 a; f1 := f1 a; f2 := Float32_store x |}
  | _ => a
  end.

(** [for (let i = 0; i < 3; ++i) out[i] = f(i)] *)
Definition Float32Array3_tabulate (f : nat -> number) : Float32Array3 :=
  {| f0 := Float32_store (f 0%nat); f1 := Float32_store (f 1%nat);
     f2 := Float32_store (f 2%nat) |}.

(** [vec3.multiply(vec3.create(), a, b)] *)
Definition Float32Array3_multiply (a b : Float32Array3) : Float32Array3 :=
  Float32Array3_tabulate (fun i =>
    double_mul (Float32Array3_get a i) (Float32Array3_get b i)).

(** The finite values of a 32-bit float, which are the finite values an
    element of a [Float32Array] can have: [m * 2^k] with at most 24 bits
    in [m], the last bit not below [2^-149], and a magnitude below
    [2^128]. *)
Definition float32 (x : Q) : Prop :=
  exists m k : Z,
    (Z.abs m < 2 ^ 24)%Z /\ (-149 <= k)%Z /\ (x == inject_Z m * 2 ^ k)%Q /\
    (Qabs x < 2 ^ 128)%Q.

(** A [vec3] whose elements are such values. *)
Definition float32_vec3 (v : vec3) : Prop := float32 (v0 v) /\ float32 (v1 v) /\ float32 (v2 v).

(** A value that is zero, or of a magnitude from [2^-126] to [2^126]:
    well inside the range of a 32-bit float. *)
Definition in_float32_range (x : Q) : Prop :=
  (x == 0 \/ (2 ^ (-126) <= Qabs x /\ Qabs x < 2 ^ 126))%Q.

(** The products of [vec3.multiply(out, a, b)] are such values. *)
Definition products_in_float32_range (a b : vec3) : Prop :=
  in_float32_range (v0 a * v0 b) /\ in_float32_range (v1 a * v1 b) /\
  in_float32_range (v2 a * v2 b).

(** The first [i] in [start, start + count) with [P i], if any. *)
Fixpoint first_from (P : nat -> bool) (start count : nat) : option nat :=
  match count with
  | O => None
  | S count' => if P start then Some start else first_from P (S start) count'
  end.

Definition pow10 (n : Z) : Q :=
  if (0 <=? n)%Z then inject_Z (10 ^ n) else 1 # Z.to_pos (10 ^ (- n)).

(** The decimal exponent of [x > 0]: [10^(n-1) <= x < 10^n]. *)
Definition exponent10 (x : Q) : Z :=
  if Qle_bool 1 x then
    Z.of_nat (default 0%nat
      (first_from (fun n => negb (Qle_bool (pow10 (Z.of_nat n)) x)) 1 400))
  else
    (1 - Z.of_nat (default 0%nat
           (first_from (fun j => Qle_bool (pow10 (- Z.of_nat j)) x) 1 400)))%Z.

(** The [k]-digit candidates for [x] with decimal exponent [n0] are the
    multiples of [10^(n0-k)] just below and just above [x]; of those
    whose Number value is [x], the closer one is taken (the even one on a
    tie). *)
Definition candidate (x : Q) (n0 : Z) (k : nat) : option Z :=
  let unit := pow10 (n0 - Z.of_nat k) in
  let lo := Qfloor (x / unit) in
  let hi := (lo + 1)%Z in
  let ok s := Qeq_bool (Number_of (inject_Z s * unit)) x in
  let dlo := (x - inject_Z lo * unit)%Q in
  let dhi := (inject_Z hi * unit - x)%Q in
  match ok lo, ok hi with
  | true, true =>
      if Qeq_bool dlo dhi then Some (if Z.even lo then lo else hi)
      else if Qle_bool dlo dhi then Some lo else Some hi
  | true, false => Some lo
  | false, true => Some hi
  | false, false => None
  end.

(** The integers [n], [k] and [s] of [Number::toString] for [x > 0]:
    [s] has [k] digits, the Number value of [s * 10^(n-k)] is [x], and
    [k] is as small as possible.  The search stops at 21 digits; 17
    always suffice for a Number value. *)
Definition shortest (x : Q) : Z * nat * Z :=
  let n0 := exponent10 x in
  match first_from (fun k => bool_decide (is_Some (candidate x n0 k))) 1 21 with
  | Some k =>
      let s := default 0%Z (candidate x n0 k) in
      if (s =? 10 ^ Z.of_nat k)%Z then ((n0 + 1)%Z, k, (10 ^ Z.of_nat (k - 1))%Z)
      else (n0, k, s)
  | None => (n0, 21%nat, Qfloor (x / pow10 (n0 - 21)))
  end.

Fixpoint zeros (n : nat) : string :=
  match n with
  | O => EmptyString
  | S n' => String "0"%char (zeros n')
  end.

Fixpoint take_string (n : nat) (s : string) : string :=
  match n, s with
  | S n', String c s' => String c (take_string n' s')
  | _, _ => EmptyString
  end.

Fixpoint drop_string (n : nat) (s : string) : string :=
  match n, s with
  | S n', String c s' => drop_string n' s'
  | _, _ => s
  end.

(** The four layouts of [Number::toString]: digits and zeros, a decimal
    point inside the digits, a leading [0.], and the exponent form. *)
Definition format (n : Z) (k : nat) (s : Z) : string :=
  let digits := decimal s in
  let kz := Z.of_nat k in
  if (kz <=? n)%Z && (n <=? 21)%Z then digits +:+ zeros (Z.to_nat (n - kz))
  else if (0 <? n)%Z && (n <=? 21)%Z then
    take_string (Z.to_nat n) digits +:+ "." +:+ drop_string (Z.to_nat n) digits
  else if (-6 <? n)%Z && (n <=? 0)%Z then
    "0." +:+ zeros (Z.to_nat (- n)) +:+ digits
  else
    let e := (n - 1)%Z in
    let exponent := (if (e <? 0)%Z then "-" else "+") +:+ decimal (Z.abs e) in
    if (k =? 1)%nat then digits +:+ "e" +:+ exponent
    else take_string 1 digits +:+ "." +:+ drop_string 1 digits +:+ "e" +:+ exponent.

(** [String(x)] and [`${x}`] for a Number [x] *)
Definition Number_toString (x : Q) : string :=
  match Qnum x with
  | Z0 => "0"
  | Zpos _ => let '(n, k, s) := shortest x in format n k s
  | Zneg _ => let '(n, k, s) := shortest (- x) in "-" +:+ format n k s
  end.

(** *** Regular expression literals

    [s.match(/^r$/)] finds a match exactly when the whole of [s] is in
    the language of [r]; membership is decided by derivatives. *)

Inductive regex : Type :=
| Nothing
| Eps
| Chr (c : ascii)
| Digit
| Alt (r1 r2 : regex)
| Seq (r1 r2 : regex)
| Star (r : regex).

(** [r?] and [r+] *)
Definition Opt (r : regex) : regex := Alt r Eps.
Definition Plus (r : regex) : regex := Seq r (Star r).

Definition is_digit (c : ascii) : bool :=
  let n := nat_of_ascii c in (48 <=? n)%nat && (n <=? 57)%nat.

Fixpoint nullable (r : regex) : bool :=
  match r with
  | Nothing => false
  | Eps => true
  | Chr _ => false
  | Digit => false
  | Alt r1 r2 => nullable r1 || nullable r2
  | Seq r1 r2 => nullable r1 && nullable r2
  | Star _ => true
  end.

Fixpoint derivative (c : ascii) (r : regex) : regex :=
  match r with
  | Nothing => Nothing
  | Eps => Nothing
  | Chr c' => if Ascii.eqb c c' then Eps else Nothing
  | Digit => if is_digit c then Eps else Nothing
  | Alt r1 r2 => Alt (derivative c r1) (derivative c r2)
  | Seq r1 r2 =>
      if nullable r1 then Alt (Seq (derivative c r1) r2) (derivative c r2)
      else Seq (derivative c r1) r2
  | Star r' => Seq (derivative c r') (Star r')
  end.

Fixpoint matches (r : regex) (s : string) : bool :=
  match s with
  | EmptyString => nullable r
  | String c s' => matches (derivative c r) s'
  end.

(** *** Regular expressions with capture groups

    [s.match(/^p$/)] for the patterns whose groups the sources read: the
    matcher explores the alternatives in the order of ECMAScript, the
    first alternative before the second and a greedy quantifier from
    the longest run down, and returns the captures of the first way to
    match the whole string.  A quantifier applies to a class of
    characters only, which is all the sources use.  Strings are
    sequences of one-byte characters. *)

Inductive charset : Type :=
| CChar (c : ascii)
| CNot (l : list ascii)
| CDot.

(** [CChar c] is the character [c], [CNot l] the class [[^l]] and [CDot]
    the dot, which matches everything but a line terminator. *)
Definition in_charset (cs : charset) (c : ascii) : bool :=
  match cs with
  | CChar c' => Ascii.eqb c c'
  | CNot l => negb (existsb (Ascii.eqb c) l)
  | CDot => negb (Ascii.eqb c "010" || Ascii.eqb c "013")
  end.

Inductive pattern : Type :=
| PEmpty
| PSet (cs : charset)
| PSeq (p q : pattern)
| PAlt (p q : pattern)
| PStar (cs : charset)
| PGroup (i : nat) (p : pattern).

(** [cs+], [p?] and a literal string *)
Definition PPlus (cs : charset) : pattern := PSeq (PSet cs) (PStar cs).
Definition POpt (p : pattern) : pattern := PAlt p PEmpty.
Fixpoint PLit (s : string) : pattern :=
  match s with
  | EmptyString => PEmpty
  | String c s' => PSeq (PSet (CChar c)) (PLit s')
  end.

(** The groups that took part in the match, by number. *)
Abbreviation Captures := (gmap nat string).

(** [cs*] in front of the continuation [k]: as many characters as
    possible, then one less, and so on. *)
Fixpoint star {R} (cs : charset) (s : string) (k : string -> option R) : option R :=
  match s with
  | String c s' =>
      if in_charset cs c then
        match star cs s' k with
        | Some r => Some r
        | None => k s
        end
      else k s
  | EmptyString => k s
  end.

(** [pmatch p s caps k]: match [p] at the front of [s] and go on with
    [k] on what is left; when [k] fails, try the next way to match [p]. *)
Fixpoint pmatch (p : pattern) (s : string) (caps : Captures)
    (k : string -> Captures -> option Captures) : option Captures :=
  match p with
  | PEmpty => k s caps
  | PSet cs =>
      match s with
      | String c s' => if in_charset cs c then k s' caps else None
      | EmptyString => None
      end
  | PSeq p q => pmatch p s caps (fun s' caps' => pmatch q s' caps' k)
  | PAlt p q =>
      match pmatch p s caps k with
      | Some r => Some r
      | None => pmatch q s caps k
      end
  | PStar cs => star cs s (fun s' => k s' caps)
  | PGroup i p =>
      pmatch p s caps (fun s' caps' =>
        k s' (<[i := take_string (String.length s - String.length s') s]> caps'))
  end.

(** [s.match(/^p$/)]: [None] is [null]. *)
Definition String_match (s : string) (p : pattern) : option Captures :=
  pmatch p s ∅ (fun s' caps => match s' with EmptyString => Some caps | _ => None end).

(** [match[i]] as a string, for a group that takes part in every match
    of its pattern; [match_ !! i] is [None] when [match[i]] is
    [undefined]. *)
Definition group (match_ : Captures) (i : nat) : string := default "undefined" (match_ !! i).

(** *** [Headers]

    A [Headers] object holds the header list of the Fetch standard: the
    pairs of a name and a value, in the order in which they were added.
    Names and values are byte strings: the methods throw a [TypeError]
    for a string with a code unit of 256 or more.  A string of this
    development holds code units below 256, each of which is a byte. *)

Definition Ascii_toLowerCase (c : ascii) : ascii :=
  let n := nat_of_ascii c in
  if (65 <=? n)%nat && (n <=? 90)%nat then ascii_of_nat (n + 32) else c.

Fixpoint toLowerCase (s : string) : string :=
  match s with
  | EmptyString => EmptyString
  | String c s' => String (Ascii_toLowerCase c) (toLowerCase s')
  end.

Abbreviation Headers := (list (string * string)).

(** The [TypeError] of the methods of [Headers]; the text of its message
    is the engine's own. *)
Definition TypeError : Error := new_Error "TypeError".

(** HTTP whitespace: tab, line feed, carriage return and space. *)
Definition is_http_whitespace (c : ascii) : bool :=
  let n := nat_of_ascii c in
  (n =? 9)%nat || (n =? 10)%nat || (n =? 13)%nat || (n =? 32)%nat.

Definition is_http_tab_or_space (c : ascii) : bool :=
  let n := nat_of_ascii c in (n =? 9)%nat || (n =? 32)%nat.

(** NUL, line feed and carriage return: the bytes no header value holds. *)
Definition is_NUL_or_newline (c : ascii) : bool :=
  let n := nat_of_ascii c in (n =? 0)%nat || (n =? 10)%nat || (n =? 13)%nat.

(** The characters of a token: letters, digits and
    [! # $ % & ' * + - . ^ _ ` | ~]. *)
Definition is_tchar (c : ascii) : bool :=
  let n := nat_of_ascii c in
  ((48 <=? n)%nat && (n <=? 57)%nat) || ((65 <=? n)%nat && (n <=? 90)%nat) ||
  ((94 <=? n)%nat && (n <=? 122)%nat) ||
  (n =? 33)%nat || ((35 <=? n)%nat && (n <=? 39)%nat) || (n =? 42)%nat || (n =? 43)%nat ||
  (n =? 45)%nat || (n =? 46)%nat || (n =? 124)%nat || (n =? 126)%nat.

Fixpoint every (P : ascii -> bool) (s : string) : bool :=
  match s with
  | EmptyString => true
  | String c s' => P c && every P s'
  end.

Definition first_char (s : string) : option ascii :=
  match s with
  | EmptyString => None
  | String c _ => Some c
  end.

Fixpoint last_char (s : string) : option ascii :=
  match s with
  | EmptyString => None
  | String c s' =>
      match s' with
      | EmptyString => Some c
      | _ => last_char s'
      end
  end.

Fixpoint strip_leading (s : string) : string :=
  match s with
  | EmptyString => EmptyString
  | String c s' => if is_http_whitespace c then strip_leading s' else s
  end.

Fixpoint strip_trailing (s : string) : string :=
  match s with
  | EmptyString => EmptyString
  | String c s' =>
      match strip_trailing s' with
      | EmptyString => if is_http_whitespace c then EmptyString else String c EmptyString
      | rest => String c rest
      end
  end.

(** To normalize a value is to remove the HTTP whitespace at its start
    and at its end. *)
Definition normalize_value (value : string) : string :=
  strip_trailing (strip_leading value).

(** A header name is a token that is not empty. *)
Definition is_header_name (name : string) : bool :=
  match name with
  | EmptyString => false
  | _ => every is_tchar name
  end.

(** A header value has no tab or space at its start or at its end and
    holds no NUL, line feed or carriage return. *)
Definition is_header_value (value : string) : bool :=
  negb (from_option is_http_tab_or_space false (first_char value)) &&
  negb (from_option is_http_tab_or_space false (last_char value)) &&
  every (fun c => negb (is_NUL_or_newline c)) value.

(** Names are compared without regard to the case of their letters. *)
Definition same_name (a b : string) : bool :=
  bool_decide (toLowerCase a = toLowerCase b).

(** The values of the headers of a list that are named [name], in
    order. *)
Definition header_values (h : Headers) (name : string) : list string :=
  (filter (fun p => same_name p.1 name = true) h).*2.

(** To get a name from a header list: its values joined by a comma and
    a space, [None] (for [null]) when the list has none. *)
Definition header_list_get (h : Headers) (name : string) : option string :=
  match header_values h name with
  | [] => None
  | value :: values => Some (foldl (fun joined v => joined +:+ ", " +:+ v) value values)
  end.

(** To append to a header list: a name the list holds already is
    written as its first header writes it. *)
Definition header_list_append (h : Headers) (name value : string) : Headers :=
  let name :=
    match filter (fun p => same_name p.1 name = true) h with
    | first :: _ => first.1
    | [] => name
    end in
  h ++ [(name, value)].

Definition header_list_delete (h : Headers) (name : string) : Headers :=
  filter (fun p => same_name p.1 name = false) h.

(** To set in a header list: the first header of that name takes the
    value and the others of that name are removed; a list without one
    is appended to. *)
Fixpoint header_list_set (h : Headers) (name value : string) : Headers :=
  match h with
  | [] => [(name, value)]
  | p :: rest =>
      if same_name p.1 name then (p.1, value) :: header_list_delete rest name
      else p :: header_list_set rest name value
  end.

(** [headers.get(name)] *)
Definition Headers_get (h : Headers) (name : string) : Result (option string) :=
  if is_header_name name then Ok (header_list_get h name) else Throw TypeError.

(** [headers.set(name, value)]: the value is normalized, then the name
    and the value are validated. *)
Definition Headers_set (h : Headers) (name value : string) : Result Headers :=
  let value := normalize_value value in
  if is_header_name name && is_header_value value
  then Ok (header_list_set h name value)
  else Throw TypeError.

(** [headers.append(name, value)] *)
Definition Headers_append (h : Headers) (name value : string) : Result Headers :=
  let value := normalize_value value in
  if is_header_name name && is_header_value value
  then Ok (header_list_append h name value)
  else Throw TypeError.

(** The lower-case names of a header list, each once, in ascending
    order. *)
Fixpoint insert_name (name : string) (names : list string) : list string :=
  match names with
  | [] => [name]
  | n :: rest =>
      match String.compare name n with
      | Lt => name :: names
      | Eq => names
      | Gt => n :: insert_name name rest
      end
  end.

Definition sorted_names (h : Headers) : list string :=
  foldr (fun p names => insert_name (toLowerCase p.1) names) [] h.

(** What iterating over a [Headers] object yields: for every name, in
    ascending order, its joined value; the values of [set-cookie] one by
    one. *)
Definition sort_and_combine (h : Headers) : Headers :=
  flat_map (fun name =>
      if bool_decide (name = "set-cookie") then pair name <$> header_values h name
      else match header_list_get h name with
           | Some value => [(name, value)]
           | None => []
           end)
    (sorted_names h).

(** What a [RequestInit] field may hold: a string, a [Headers] object,
    or the pairs of a sequence of pairs or of a record. *)
Inductive InitValue : Type :=
| InitString (s : string)
| InitPairs (l : list (string * string))
| InitHeaders (h : Headers).

(** To fill a [Headers] object is to append the pairs one by one. *)
Fixpoint Headers_fill (h : Headers) (pairs : list (string * string)) : Result Headers :=
  match pairs with
  | [] => Ok h
  | p :: rest => h ← Headers_append h p.1 p.2; Headers_fill h rest
  end.

(** [new Headers(init)]: empty for [undefined]; filled with the pairs of
    a sequence or a record, or with what iterating over a [Headers]
    object yields; a string is neither and is a [TypeError]. *)
Definition new_Headers (init : option InitValue) : Result Headers :=
  match init with
  | None => Ok []
  | Some (InitPairs l) => Headers_fill [] l
  | Some (InitHeaders h) => Headers_fill [] (sort_and_combine h)
  | Some (InitString _) => Throw TypeError
  end.

(** [-?\d+] *)
Definition integer_pattern : regex := Seq (Opt (Chr "-")) (Plus Digit).

(** *** Properties of the built-ins *)

Lemma decimal_inj (z1 z2 : Z) : decimal z1 = decimal z2 -> z1 = z2.
Proof.
  assert (forall z, NilZero.int_of_string (decimal z) = Some (Z.to_int z)) as Hread.
  { intros z. unfold decimal. apply NilZero.isi; destruct z; simpl; try discriminate;
      intros [= E]; by apply Unsigned.to_uint_nonnil in E. }
  intros E. pose proof (Hread z1) as H1. rewrite E, Hread in H1.
  injection H1 as H1. rewrite <- (DecimalZ.of_to z1), <- (DecimalZ.of_to z2). by f_equal.
Qed.

Lemma matches_Alt (r1 r2 : regex) (s : string) :
  matches (Alt r1 r2) s = matches r1 s || matches r2 s.
Proof. revert r1 r2. induction s as [|c s IH]; intros r1 r2; [reflexivity|apply IH]. Qed.

Lemma matches_Seq_nullable (r1 r2 : regex) (s : string) :
  nullable r1 = true -> matches r2 s = true -> matches (Seq r1 r2) s = true.
Proof.
  intros Hn Hm. destruct s as [|c s]; cbn [matches derivative nullable] in *.
  - by rewrite Hn, Hm.
  - rewrite Hn, matches_Alt, Hm. apply orb_true_r.
Qed.

Lemma matches_Seq (r1 r2 : regex) (s1 s2 : string) :
  matches r1 s1 = true -> matches r2 s2 = true ->
  matches (Seq r1 r2) (s1 +:+ s2) = true.
Proof.
  revert r1. induction s1 as [|c s1 IH]; intros r1 H1 H2.
  - by apply matches_Seq_nullable.
  - change (String c s1 +:+ s2) with (String c (s1 +:+ s2)).
    cbn [matches derivative] in *. destruct (nullable r1).
    + rewrite matches_Alt, IH by assumption. reflexivity.
    + by apply IH.
Qed.

Lemma matches_Chr (c : ascii) : matches (Chr c) (String c EmptyString) = true.
Proof. cbn. by rewrite Ascii.eqb_refl. Qed.

Lemma matches_Opt_absent (r : regex) : matches (Opt r) EmptyString = true.
Proof. cbn. apply orb_true_r. Qed.

Lemma matches_Opt_present (r : regex) (s : string) :
  matches r s = true -> matches (Opt r) s = true.
Proof. intros Hm. unfold Opt. by rewrite matches_Alt, Hm. Qed.

(** A string of digits, and a non-empty one. *)
Fixpoint all_digits (s : string) : bool :=
  match s with
  | EmptyString => true
  | String c s' => is_digit c && all_digits s'
  end.

Definition is_digits (s : string) : bool :=
  match s with
  | EmptyString => false
  | String _ _ => all_digits s
  end.

Lemma matches_Star_Digit (s : string) :
  all_digits s = true -> matches (Star Digit) s = true.
Proof.
  induction s as [|c s IH]; [reflexivity|]. cbn [all_digits].
  intros [Hc Hs]%andb_true_iff. cbn [matches derivative]. rewrite Hc.
  apply matches_Seq_nullable; [reflexivity|by apply IH].
Qed.

Lemma matches_Plus_Digit (s : string) :
  is_digits s = true -> matches (Plus Digit) s = true.
Proof.
  destruct s as [|c s]; [discriminate|]. cbn [is_digits all_digits].
  intros [Hc Hs]%andb_true_iff. cbn [matches derivative Plus nullable]. rewrite Hc.
  apply matches_Seq_nullable; [reflexivity|by apply matches_Star_Digit].
Qed.

Lemma all_digits_app (s1 s2 : string) :
  all_digits (s1 +:+ s2) = all_digits s1 && all_digits s2.
Proof.
  induction s1 as [|c s1 IH]; [reflexivity|].
  change (String c s1 +:+ s2) with (String c (s1 +:+ s2)).
  cbn [all_digits]. by rewrite IH, andb_assoc.
Qed.

Lemma all_digits_zeros (n : nat) : all_digits (zeros n) = true.
Proof. induction n as [|n IH]; [reflexivity|exact IH]. Qed.

Lemma is_digits_app (s1 s2 : string) :
  is_digits s1 = true -> all_digits s2 = true -> is_digits (s1 +:+ s2) = true.
Proof.
  destruct s1 as [|c s1]; [discriminate|]. intros H1 H2.
  change (String c s1 +:+ s2) with (String c (s1 +:+ s2)).
  cbn [is_digits] in *. change (String c (s1 +:+ s2)) with (String c s1 +:+ s2).
  by rewrite all_digits_app, H1, H2.
Qed.

Lemma is_digits_string_of_uint (d : Decimal.uint) :
  d <> Decimal.Nil -> is_digits (NilEmpty.string_of_uint d) = true.
Proof.
  assert (all_digits (NilEmpty.string_of_uint d) = true) as Hall
    by (induction d; cbn; auto).
  destruct d; try congruence; intros _; exact Hall.
Qed.

Lemma is_digits_decimal (z : Z) : (0 <= z)%Z -> is_digits (decimal z) = true.
Proof.
  intros Hz. destruct z as [|p|p]; [reflexivity| |lia].
  unfold decimal. cbn [Z.to_int NilZero.string_of_int].
  pose proof (Unsigned.to_uint_nonnil p) as Hp.
  pose proof (is_digits_string_of_uint (Pos.to_uint p) Hp) as Hd.
  unfold NilZero.string_of_uint.
  destruct (Pos.to_uint p); try congruence; exact Hd.
Qed.

Lemma first_from_spec (P : nat -> bool) (count : nat) :
  forall start i, first_from P start count = Some i ->
  (start <= i < start + count)%nat /\ P i = true /\
  forall j, (start <= j < i)%nat -> P j = false.
Proof.
  induction count as [|count IH]; intros start i; cbn [first_from]; [discriminate|].
  destruct (P start) eqn:HP.
  - intros [= <-]. split; [lia|]. split; [exact HP|]. intros; lia.
  - intros Hf. destruct (IH _ _ Hf) as (Hr & Hi & Hj). split; [lia|]. split; [exact Hi|].
    intros j Hjr. destruct (decide (j = start)) as [->|]; [exact HP|]. apply Hj. lia.
Qed.

Lemma first_from_le (P : nat -> bool) (count : nat) :
  forall start i, P i = true -> (start <= i < start + count)%nat ->
  exists i', first_from P start count = Some i' /\ (i' <= i)%nat.
Proof.
  induction count as [|count IH]; intros start i HP Hr; [lia|]. cbn [first_from].
  destruct (P start) eqn:Hs; [exists start; split; [reflexivity|lia]|].
  assert (i <> start) by congruence.
  destruct (IH (S start) i HP) as (i' & Hf & Hle); [lia|]. eauto.
Qed.

Lemma Number_of_comp (x y : Q) : x == y -> Number_of x = Number_of y.
Proof. intros E. unfold Number_of. by rewrite (Qred_complete x y E). Qed.

Lemma Qle_bool_inject_Z (a b : Z) : Qle_bool (inject_Z a) (inject_Z b) = (a <=? b)%Z.
Proof. unfold Qle_bool. cbn. by rewrite !Z.mul_1_r. Qed.

Lemma pow10_nonneg (n : Z) : (0 <= n)%Z -> pow10 n = inject_Z (10 ^ n).
Proof. intros Hn. unfold pow10. by rewrite (Zle_imp_le_bool _ _ Hn). Qed.

Lemma Qfloor_div_inject_Z (a b : Z) : (0 < b)%Z -> Qfloor (inject_Z a / inject_Z b) = (a / b)%Z.
Proof.
  intros Hb. rewrite <- (Z2Pos.id b Hb) at 1. rewrite <- Qmake_Qdiv.
  cbn. by rewrite Z2Pos.id.
Qed.

(** The decimal exponent of a positive integer below [10^21]. *)
Lemma exponent10_integer (z : Z) :
  (1 <= z < 10 ^ 21)%Z ->
  exists n0 : nat,
    exponent10 (inject_Z z) = Z.of_nat n0 /\ (1 <= n0 <= 21)%nat /\
    (10 ^ (Z.of_nat n0 - 1) <= z < 10 ^ Z.of_nat n0)%Z.
Proof.
  intros Hz. unfold exponent10.
  change 1%Q with (inject_Z 1). rewrite Qle_bool_inject_Z.
  rewrite (Zle_imp_le_bool 1 z) by lia.
  set (P := fun n : nat => negb (Qle_bool (pow10 (Z.of_nat n)) (inject_Z z))).
  assert (forall n, P n = negb (10 ^ Z.of_nat n <=? z)%Z) as HP.
  { intros n. unfold P. rewrite pow10_nonneg by lia. by rewrite Qle_bool_inject_Z. }
  destruct (first_from_le P 400 1 21) as (n0 & Hf & Hle); [|lia|].
  { rewrite HP. apply negb_true_iff, Z.leb_gt. change (Z.of_nat 21) with 21%Z. lia. }
  rewrite Hf. cbn [default]. exists n0.
  destruct (first_from_spec P 400 1 n0 Hf) as (Hr & Hn0 & Hbelow).
  split; [reflexivity|]. split; [lia|].
  rewrite HP in Hn0. apply negb_true_iff, Z.leb_gt in Hn0. split; [|exact Hn0].
  destruct (decide (n0 = 1%nat)) as [->|Hne]; [cbn; lia|].
  specialize (Hbelow (n0 - 1)%nat ltac:(lia)). rewrite HP in Hbelow.
  apply negb_false_iff, Z.leb_le in Hbelow.
  replace (Z.of_nat n0 - 1)%Z with (Z.of_nat (n0 - 1)) by lia. exact Hbelow.
Qed.

Lemma candidate_cases (x : Q) (n0 : Z) (k : nat) (s : Z) :
  candidate x n0 k = Some s ->
  let unit := pow10 (n0 - Z.of_nat k) in
  let lo := Qfloor (x / unit) in
  s = lo \/
  (s = (lo + 1)%Z /\ Qeq_bool (Number_of (inject_Z (lo + 1) * unit)) x = true).
Proof.
  unfold candidate. cbn zeta.
  destruct (Qeq_bool (Number_of (inject_Z (Qfloor (x / _)) * _)) x);
    destruct (Qeq_bool (Number_of (inject_Z (Qfloor (x / _) + 1) * _)) x);
    repeat case_match; intros [= <-]; auto.
Qed.

Lemma candidate_exact (z : Z) (n0 : nat) :
  is_Number (inject_Z z) = true ->
  is_Some (candidate (inject_Z z) (Z.of_nat n0) n0).
Proof.
  intros Hz. unfold candidate. rewrite Z.sub_diag. cbn zeta.
  change (pow10 0) with (inject_Z 1).
  rewrite Qfloor_div_inject_Z, Z.div_1_r by lia.
  assert (Qeq_bool (Number_of (inject_Z z * inject_Z 1)) (inject_Z z) = true) as ->.
  { rewrite (Number_of_comp _ (inject_Z z)); [exact Hz|]. apply Qmult_1_r. }
  repeat case_match; eauto.
Qed.

Lemma Number_of_pow10_21 : Number_of (inject_Z (10 ^ 21)) = inject_Z (10 ^ 21).
Proof. vm_compute. reflexivity. Qed.

Lemma candidate_ok (x : Q) (n0 : Z) (k : nat) (s : Z) :
  candidate x n0 k = Some s ->
  Qeq_bool (Number_of (inject_Z s * pow10 (n0 - Z.of_nat k))) x = true.
Proof.
  unfold candidate. cbn zeta.
  destruct (Qeq_bool (Number_of (inject_Z (Qfloor (x / _)) * _)) x) eqn:Hlo;
    destruct (Qeq_bool (Number_of (inject_Z (Qfloor (x / _) + 1) * _)) x) eqn:Hhi;
    repeat case_match; intros [= <-]; assumption.
Qed.

(** The search of [shortest] on a positive integer below [10^21]. *)
Lemma shortest_search (z : Z) :
  (1 <= z < 10 ^ 21)%Z ->
  is_Number (inject_Z z) = true ->
  exists (n0 k : nat) (s : Z),
    (1 <= k <= n0)%nat /\ (n0 <= 21)%nat /\
    (10 ^ (Z.of_nat n0 - 1) <= z < 10 ^ Z.of_nat n0)%Z /\
    candidate (inject_Z z) (Z.of_nat n0) k = Some s /\
    shortest (inject_Z z) =
      if (s =? 10 ^ Z.of_nat k)%Z
      then ((Z.of_nat n0 + 1)%Z, k, (10 ^ Z.of_nat (k - 1))%Z)
      else (Z.of_nat n0, k, s).
Proof.
  intros Hz HN. unfold shortest.
  destruct (exponent10_integer z Hz) as (n0 & -> & Hn0 & Hlo & Hhi).
  set (P := fun k : nat => bool_decide (is_Some (candidate (inject_Z z) (Z.of_nat n0) k))).
  destruct (first_from_le P 21 1 n0) as (k & Hf & Hk); [|lia|].
  { apply bool_decide_eq_true, candidate_exact, HN. }
  rewrite Hf. destruct (first_from_spec P 21 1 k Hf) as (Hr & HPk & _).
  apply bool_decide_eq_true in HPk. destruct HPk as [s Hs]. rewrite Hs.
  change (default 0%Z (Some s)) with s.
  exists n0, k, s. repeat split; try lia. exact Hs.
Qed.

(** [n], [k] and [s] for a positive integer below [10^21]: the layout
    is the first one, digits followed by zeros. *)
Lemma shortest_integer (z : Z) :
  (1 <= z < 10 ^ 21)%Z ->
  is_Number (inject_Z z) = true ->
  exists (n : Z) (k : nat) (s : Z),
    shortest (inject_Z z) = (n, k, s) /\ (Z.of_nat k <= n <= 21)%Z /\ (0 <= s)%Z.
Proof.
  intros Hz HN.
  destruct (shortest_search z Hz HN) as (n0 & k & s & Hk & Hn0 & [Hlo Hhi] & Hs & ->).
  pose proof (candidate_ok _ _ _ _ Hs) as Hok.
  pose proof (candidate_cases _ _ _ _ Hs) as Hcases. cbn zeta in Hcases.
  rewrite pow10_nonneg in Hok, Hcases by lia.
  assert (0 < 10 ^ (Z.of_nat n0 - Z.of_nat k))%Z as Hunit by (apply Z.pow_pos_nonneg; lia).
  rewrite Qfloor_div_inject_Z in Hcases by exact Hunit.
  set (U := (10 ^ (Z.of_nat n0 - Z.of_nat k))%Z) in *.
  assert (0 <= z / U)%Z as Hq by (apply Z.div_pos; lia).
  assert (10 ^ Z.of_nat k * U = 10 ^ Z.of_nat n0)%Z as Hpow.
  { unfold U. rewrite <- Z.pow_add_r by lia. f_equal. lia. }
  destruct (Z.eqb_spec s (10 ^ Z.of_nat k)) as [Hs10|Hs10].
  - exists (Z.of_nat n0 + 1)%Z, k, (10 ^ Z.of_nat (k - 1))%Z.
    split; [reflexivity|]. split; [|apply Z.pow_nonneg; lia].
    split; [lia|].
    destruct (decide (n0 = 21%nat)) as [->|]; [exfalso|lia].
    (* [10^21] is a Number, so it is not printed for a smaller one *)
    change (Z.of_nat 21) with 21%Z in Hpow.
    rewrite Hs10, <- inject_Z_mult, Hpow, Number_of_pow10_21 in Hok.
    apply Qeq_bool_eq in Hok. unfold Qeq in Hok. cbn in Hok. lia.
  - exists (Z.of_nat n0), k, s. split; [reflexivity|]. split; [lia|].
    destruct Hcases as [->|[-> _]]; lia.
Qed.

Lemma format_integer (n : Z) (k : nat) (s : Z) :
  (Z.of_nat k <= n <= 21)%Z ->
  format n k s = decimal s +:+ zeros (Z.to_nat (n - Z.of_nat k)).
Proof.
  intros [Hk Hn]. unfold format. cbn zeta.
  by rewrite (Zle_imp_le_bool _ _ Hk), (Zle_imp_le_bool _ _ Hn).
Qed.

Lemma Number_toString_positive_integer (z : Z) :
  (1 <= z < 10 ^ 21)%Z ->
  is_Number (inject_Z z) = true ->
  is_digits (Number_toString (inject_Z z)) = true.
Proof.
  intros Hz HN. destruct (shortest_integer z Hz HN) as (n & k & s & Hs & Hnk & Hs0).
  unfold Number_toString. destruct z as [|p|p]; try lia.
  cbn [inject_Z Qnum]. change (Z.pos p # 1) with (inject_Z (Z.pos p)). rewrite Hs.
  rewrite format_integer by exact Hnk.
  apply is_digits_app; [by apply is_digits_decimal|apply all_digits_zeros].
Qed.

Lemma Qred_inject_Z (z : Z) : Qred (inject_Z z) = inject_Z z.
Proof. apply Qcanon.Qred_identity. apply Z.gcd_1_r. Qed.

Lemma is_Number_opp (p : positive) :
  is_Number (inject_Z (Z.neg p)) = true -> is_Number (inject_Z (Z.pos p)) = true.
Proof.
  unfold is_Number, Number_of. rewrite !Qred_inject_Z. cbn [inject_Z Qnum].
  change (- (Z.neg p # 1)) with (Z.pos p # 1).
  intros E. apply Qeq_bool_eq in E. apply Qeq_eq_bool.
  rewrite <- (Qopp_involutive (Number_of_pos (Z.pos p # 1))), E. reflexivity.
Qed.

(** An integer Number of magnitude below [10^21] is printed as an
    optional sign and digits. *)
Lemma Number_toString_integer (z : Z) :
  (Z.abs z < 10 ^ 21)%Z ->
  is_Number (inject_Z z) = true ->
  matches integer_pattern (Number_toString (inject_Z z)) = true.
Proof.
  intros Hz HN. destruct z as [|p|p].
  - reflexivity.
  - apply matches_Seq_nullable; [reflexivity|].
    apply matches_Plus_Digit, Number_toString_positive_integer; [lia|exact HN].
  - pose proof (Number_toString_positive_integer (Z.pos p) ltac:(lia) (is_Number_opp p HN))
      as Hd.
    unfold Number_toString in *.
    change (Qnum (inject_Z (Z.neg p))) with (Z.neg p).
    change (Qnum (inject_Z (Z.pos p))) with (Z.pos p) in Hd.
    change (- inject_Z (Z.neg p)) with (inject_Z (Z.pos p)). cbv iota in Hd |- *.
    destruct (shortest (inject_Z (Z.pos p))) as [[n k] s].
    apply (matches_Seq (Opt (Chr "-")) (Plus Digit) "-").
    + apply matches_Opt_present, matches_Chr.
    + by apply matches_Plus_Digit.
Qed.

(** *** Integers below [2^53] are printed digit for digit *)

Lemma append_assoc (s1 s2 s3 : string) : (s1 +:+ s2) +:+ s3 = s1 +:+ (s2 +:+ s3).
Proof.
  induction s1 as [|c s1 IH]; [reflexivity|].
  change ((String c s1 +:+ s2) +:+ s3) with (String c ((s1 +:+ s2) +:+ s3)).
  change (String c s1 +:+ (s2 +:+ s3)) with (String c (s1 +:+ (s2 +:+ s3))).
  by rewrite IH.
Qed.

Lemma append_nil_r (s : string) : s +:+ EmptyString = s.
Proof.
  induction s as [|c s IH]; [reflexivity|].
  change (String c s +:+ EmptyString) with (String c (s +:+ EmptyString)). by rewrite IH.
Qed.

Lemma string_of_uint_revapp (l acc : Decimal.uint) :
  NilEmpty.string_of_uint (Decimal.revapp l acc) =
  NilEmpty.string_of_uint (Decimal.revapp l Decimal.Nil) +:+ NilEmpty.string_of_uint acc.
Proof.
  revert acc. induction l as [|l IH|l IH|l IH|l IH|l IH|l IH|l IH|l IH|l IH|l IH];
    intros acc; cbn [Decimal.revapp]; [reflexivity|..];
    rewrite IH; symmetry; rewrite IH; cbn [NilEmpty.string_of_uint];
    rewrite append_assoc; reflexivity.
Qed.

Lemma string_of_uint_nonnil (d : Decimal.uint) :
  d <> Decimal.Nil -> NilZero.string_of_uint d = NilEmpty.string_of_uint d.
Proof. destruct d; congruence || reflexivity. Qed.

Lemma decimal_pos (p : positive) : decimal (Z.pos p) = NilEmpty.string_of_uint (Pos.to_uint p).
Proof.
  unfold decimal. cbn [Z.to_int NilZero.string_of_int].
  apply string_of_uint_nonnil, Unsigned.to_uint_nonnil.
Qed.

Lemma decimal_tenfold (v : Z) : (0 < v)%Z -> decimal (10 * v) = decimal v +:+ "0".
Proof.
  intros Hv. destruct v as [|p|p]; try lia.
  change (10 * Z.pos p)%Z with (Z.pos (10 * p)). rewrite !decimal_pos.
  unfold Pos.to_uint, Decimal.rev.
  pose proof (DecimalPos.Unsigned.to_ldec_tenfold p) as Hten.
  change (DecimalPos.Unsigned.to_lu (10 * N.pos p)) with (Pos.to_little_uint (10 * p)) in Hten.
  change (DecimalPos.Unsigned.to_lu (N.pos p)) with (Pos.to_little_uint p) in Hten.
  rewrite Hten. cbn [Decimal.revapp]. by rewrite string_of_uint_revapp.
Qed.

Lemma zeros_snoc (m : nat) : zeros (S m) = zeros m +:+ "0".
Proof. induction m as [|m IH]; [reflexivity|]. cbn [zeros] in *. by rewrite IH at 1. Qed.

Lemma decimal_pow10 (s : Z) (m : nat) :
  (0 < s)%Z -> decimal (s * 10 ^ Z.of_nat m) = decimal s +:+ zeros m.
Proof.
  intros Hs. induction m as [|m IH].
  - rewrite Z.mul_1_r. cbn [zeros]. by rewrite append_nil_r.
  - rewrite Nat2Z.inj_succ, Z.pow_succ_r by lia.
    replace (s * (10 * 10 ^ Z.of_nat m))%Z with (10 * (s * 10 ^ Z.of_nat m))%Z by lia.
    rewrite decimal_tenfold by (apply Z.mul_pos_pos; [lia|apply Z.pow_pos_nonneg; lia]).
    by rewrite IH, zeros_snoc, append_assoc.
Qed.

Lemma exponent2_integer (v : Z) : (0 < v)%Z -> exponent2 (inject_Z v) = Z.log2 v.
Proof.
  intros Hv. unfold exponent2, scale2. cbn [inject_Z Qnum Qden].
  change (Z.log2 1) with 0%Z. rewrite Z.sub_0_r.
  destruct (Z.log2_spec v Hv) as [Hlo _]. pose proof (Z.log2_nonneg v) as Hnn.
  destruct (Z.leb_spec 0 (- Z.log2 v)) as [H0|H0].
  - replace (Z.log2 v) with 0%Z in * by lia. cbn. rewrite Z.mul_1_r.
    by rewrite (Zle_imp_le_bool 1 v) by lia.
  - rewrite Z.opp_involutive, Z.mul_1_l. by rewrite (Zle_imp_le_bool _ _ Hlo).
Qed.

Lemma round_half_even_1 (n : Z) : round_half_even n 1 = n.
Proof. unfold round_half_even. by rewrite Z.mod_1_r, Z.div_1_r. Qed.

(** An integer below [2^53] is a Number. *)
Lemma Number_of_pos_small (v : Z) :
  (0 < v < 2 ^ 53)%Z -> Number_of_pos (inject_Z v) = inject_Z v.
Proof.
  intros [Hv Hlt]. unfold Number_of_pos. rewrite exponent2_integer by exact Hv.
  assert (0 <= Z.log2 v <= 52)%Z as He.
  { split; [apply Z.log2_nonneg|]. apply Z.lt_succ_r, Z.log2_lt_pow2; [exact Hv|exact Hlt]. }
  unfold scale2. cbn [inject_Z Qnum Qden].
  rewrite (Zle_imp_le_bool 0 (52 - Z.log2 v)) by lia.
  rewrite round_half_even_1. unfold of_scaled.
  destruct (Z.leb_spec 0 (Z.log2 v - 52)) as [H0|H0].
  - replace (Z.log2 v - 52)%Z with 0%Z by lia. replace (52 - Z.log2 v)%Z with 0%Z by lia.
    by rewrite !Z.mul_1_r.
  - replace (- (Z.log2 v - 52))%Z with (52 - Z.log2 v)%Z by lia.
    rewrite <- (Qred_inject_Z v). apply Qred_complete.
    unfold Qeq. cbn [Qnum Qden inject_Z].
    rewrite Z2Pos.id by (apply Z.pow_pos_nonneg; lia). lia.
Qed.

Lemma Number_of_small (v : Z) :
  (Z.abs v < 2 ^ 53)%Z -> Number_of (inject_Z v) = inject_Z v.
Proof.
  intros Hv. unfold Number_of. rewrite Qred_inject_Z. destruct v as [|p|p].
  - reflexivity.
  - apply Number_of_pos_small. lia.
  - change (Qnum (inject_Z (Z.neg p))) with (Z.neg p). cbv iota.
    change (- inject_Z (Z.neg p)) with (inject_Z (Z.pos p)).
    rewrite Number_of_pos_small by lia. reflexivity.
Qed.

(** An integer from [2^53] to [2^54] rounds to a Number that is not
    below [2^53]. *)
Lemma Number_of_above (v : Z) :
  (2 ^ 53 <= v < 2 ^ 54)%Z ->
  exists m, Number_of (inject_Z v) = inject_Z m /\ (2 ^ 53 <= m)%Z.
Proof.
  intros [Hlo Hhi]. unfold Number_of. rewrite Qred_inject_Z.
  destruct v as [|p|p]; try lia.
  change (Qnum (inject_Z (Z.pos p))) with (Z.pos p). cbv iota.
  unfold Number_of_pos. rewrite exponent2_integer by lia.
  assert (Z.log2 (Z.pos p) = 53)%Z as ->.
  { apply Z.log2_unique; [lia|]. split; [exact Hlo|exact Hhi]. }
  unfold scale2, of_scaled.
  change (0 <=? 52 - 53)%Z with false. change (0 <=? 53 - 52)%Z with true. cbv iota.
  cbn [inject_Z Qnum Qden].
  change (1 * 2 ^ (- (52 - 53)))%Z with 2%Z. change (2 ^ (53 - 52))%Z with 2%Z.
  eexists. split; [reflexivity|].
  assert (2 ^ 52 <= round_half_even (Z.pos p) 2)%Z as Hm.
  { unfold round_half_even. cbv zeta.
    assert (2 ^ 52 <= Z.pos p / 2)%Z by (apply Z.div_le_lower_bound; lia).
    destruct (2 * (Z.pos p mod 2) ?= 2)%Z; [destruct (Z.even (Z.pos p / 2))|..]; lia. }
  lia.
Qed.

Lemma shortest_safe (z : Z) :
  (1 <= z < 2 ^ 53)%Z ->
  exists (n0 k : nat) (s : Z),
    shortest (inject_Z z) = (Z.of_nat n0, k, s) /\
    (k <= n0 <= 21)%nat /\ (0 < s)%Z /\ (s * 10 ^ Z.of_nat (n0 - k) = z)%Z.
Proof.
  intros Hz.
  assert (is_Number (inject_Z z) = true) as HN.
  { unfold is_Number. rewrite Number_of_small by lia. apply Qeq_eq_bool. reflexivity. }
  destruct (shortest_search z ltac:(lia) HN) as (n0 & k & s & Hk & Hn0 & Hz10 & Hs & Hshort).
  pose proof (candidate_ok _ _ _ _ Hs) as Hok.
  pose proof (candidate_cases _ _ _ _ Hs) as Hcases. cbn zeta in Hcases.
  rewrite pow10_nonneg in Hok, Hcases by lia.
  assert (0 < 10 ^ (Z.of_nat n0 - Z.of_nat k))%Z as Hunit by (apply Z.pow_pos_nonneg; lia).
  rewrite Qfloor_div_inject_Z in Hcases by exact Hunit.
  rewrite <- inject_Z_mult in Hok.
  set (U := (10 ^ (Z.of_nat n0 - Z.of_nat k))%Z) in *.
  assert (10 ^ (Z.of_nat k - 1) * U = 10 ^ (Z.of_nat n0 - 1))%Z as Hpow1.
  { unfold U. rewrite <- Z.pow_add_r by lia. f_equal. lia. }
  assert (10 ^ Z.of_nat k * U = 10 ^ Z.of_nat n0)%Z as Hpow.
  { unfold U. rewrite <- Z.pow_add_r by lia. f_equal. lia. }
  assert (0 < 10 ^ (Z.of_nat k - 1))%Z as Hk10 by (apply Z.pow_pos_nonneg; lia).
  assert (U <= z)%Z as HUz by nia.
  assert (z / U * U <= z)%Z as Hfloor.
  { rewrite Z.mul_comm. apply Z.mul_div_le. exact Hunit. }
  assert (1 <= z / U)%Z as Hq.
  { apply Z.div_le_lower_bound; lia. }
  assert (1 <= s /\ s * U <= z + U)%Z as [Hs1 Hsv].
  { destruct Hcases as [->|[-> _]]; split; nia. }
  assert (s * U = z)%Z as Hexact.
  { destruct (Z.lt_ge_cases (s * U) (2 ^ 53)) as [Hsmall|Hbig].
    - rewrite Number_of_small in Hok by nia.
      apply Qeq_bool_eq in Hok. unfold Qeq in Hok. cbn in Hok. lia.
    - destruct (Number_of_above (s * U)) as (m & Hm & Hm53); [lia|].
      rewrite Hm in Hok. apply Qeq_bool_eq in Hok. unfold Qeq in Hok. cbn in Hok. lia. }
  exists n0, k, s. rewrite Hshort.
  destruct (Z.eqb_spec s (10 ^ Z.of_nat k)) as [Hs10|Hs10].
  - exfalso. rewrite Hs10, Hpow in Hexact. lia.
  - split; [reflexivity|]. split; [lia|]. split; [lia|].
    replace (Z.of_nat (n0 - k)) with (Z.of_nat n0 - Z.of_nat k)%Z by lia. exact Hexact.
Qed.

(** [String(z)] for an integer below [2^53] in magnitude: its decimal
    digits. *)
Lemma Number_toString_safe_integer (z : Z) :
  (Z.abs z < 2 ^ 53)%Z -> Number_toString (inject_Z z) = decimal z.
Proof.
  assert (forall p, (Z.pos p < 2 ^ 53)%Z ->
            (let '(n, k, s) := shortest (inject_Z (Z.pos p)) in format n k s)
            = decimal (Z.pos p)) as Hpos.
  { intros p Hp. destruct (shortest_safe (Z.pos p) ltac:(lia))
      as (n0 & k & s & -> & Hk & Hs & Hexact).
    rewrite format_integer by lia. rewrite <- Hexact, decimal_pow10 by exact Hs.
    do 2 f_equal. lia. }
  intros Hz. unfold Number_toString. destruct z as [|p|p].
  - reflexivity.
  - change (Qnum (inject_Z (Z.pos p))) with (Z.pos p). cbv iota. apply Hpos. lia.
  - change (Qnum (inject_Z (Z.neg p))) with (Z.neg p). cbv iota.
    change (- inject_Z (Z.neg p)) with (inject_Z (Z.pos p)).
    specialize (Hpos p ltac:(lia)).
    destruct (shortest (inject_Z (Z.pos p))) as [[n k] s]. rewrite Hpos.
    unfold decimal. cbn [Z.to_int NilZero.string_of_int].
    by rewrite string_of_uint_nonnil by apply Unsigned.to_uint_nonnil.
Qed.

Lemma Number_add_safe_integers (a b : Z) :
  (Z.abs (a + b) < 2 ^ 53)%Z ->
  Number_add (inject_Z a) (inject_Z b) = inject_Z (a + b).
Proof.
  intros Hab. unfold Number_add.
  rewrite <- inject_Z_plus. by apply Number_of_small.
Qed.

(** *** Separators in template literals *)

(** [c] occurs in [s]. *)
Fixpoint occurs (c : ascii) (s : string) : bool :=
  match s with
  | EmptyString => false
  | String c' s' => Ascii.eqb c c' || occurs c s'
  end.

(** Whether [p] is a prefix is decided before the first separator, when
    [p] holds none. *)
Lemma startsWith_before_separator (c : ascii) (p : string) :
  occurs c p = false ->
  forall s rest : string, startsWith (s +:+ String c rest) p = startsWith s p.
Proof.
  unfold startsWith. induction p as [|a p IH]; intros Hp s rest.
  - by destruct s.
  - cbn [occurs] in Hp. apply orb_false_iff in Hp as [Ha Hp].
    destruct s as [|b s].
    + change (EmptyString +:+ String c rest) with (String c rest). cbn [String.prefix].
      destruct (ascii_dec a c) as [->|]; [|reflexivity].
      by rewrite Ascii.eqb_refl in Ha.
    + change (String b s +:+ String c rest) with (String b (s +:+ String c rest)).
      cbn [String.prefix]. destruct (ascii_dec a b); [by apply IH|reflexivity].
Qed.

(** A string is split at the first occurrence of a separator in one way. *)
Lemma append_split_unique (c : ascii) (u u' r r' : string) :
  occurs c u = false -> occurs c u' = false ->
  u +:+ String c r = u' +:+ String c r' -> u = u' /\ r = r'.
Proof.
  revert u'. induction u as [|a u IH]; intros [|a' u'] Hu Hu' E.
  - by injection E as ->.
  - change (EmptyString +:+ String c r) with (String c r) in E.
    change (String a' u' +:+ String c r') with (String a' (u' +:+ String c r')) in E.
    injection E as <- _. cbn [occurs] in Hu'. by rewrite Ascii.eqb_refl in Hu'.
  - change (EmptyString +:+ String c r') with (String c r') in E.
    change (String a u +:+ String c r) with (String a (u +:+ String c r)) in E.
    injection E as -> _. cbn [occurs] in Hu. by rewrite Ascii.eqb_refl in Hu.
  - change (String a u +:+ String c r) with (String a (u +:+ String c r)) in E.
    change (String a' u' +:+ String c r') with (String a' (u' +:+ String c r')) in E.
    injection E as -> E. cbn [occurs] in Hu, Hu'.
    apply orb_false_iff in Hu as [_ Hu]. apply orb_false_iff in Hu' as [_ Hu'].
    destruct (IH u' Hu Hu' E) as [-> ->]. done.
Qed.

Lemma occurs_all_digits (c : ascii) (s : string) :
  is_digit c = false -> all_digits s = true -> occurs c s = false.
Proof.
  intros Hc. induction s as [|a s IH]; [reflexivity|]. cbn [all_digits occurs].
  intros [Ha Hs]%andb_true_iff. rewrite (IH Hs), orb_false_r.
  destruct (Ascii.eqb_spec c a) as [->|]; [congruence|reflexivity].
Qed.

Lemma is_digits_all_digits (s : string) : is_digits s = true -> all_digits s = true.
Proof. by destruct s. Qed.

Lemma decimal_neg (p : positive) : decimal (Z.neg p) = String "-" (decimal (Z.pos p)).
Proof.
  unfold decimal. cbn [Z.to_int NilZero.string_of_int].
  by rewrite string_of_uint_nonnil by apply Unsigned.to_uint_nonnil.
Qed.

(** The digits of an integer hold no separator. *)
Lemma occurs_decimal (c : ascii) (z : Z) :
  is_digit c = false -> c <> "-"%char -> occurs c (decimal z) = false.
Proof.
  intros Hc Hm. destruct z as [|p|p].
  - apply occurs_all_digits; [exact Hc|reflexivity].
  - apply occurs_all_digits; [exact Hc|]. apply is_digits_all_digits, is_digits_decimal. lia.
  - rewrite decimal_neg. cbn [occurs].
    destruct (Ascii.eqb_spec c "-") as [|_]; [contradiction|]. cbn [orb].
    apply occurs_all_digits; [exact Hc|]. apply is_digits_all_digits, is_digits_decimal. lia.
Qed.

(** [`${a}c...`] determines the integer [a], for a separator [c] that is
    neither a digit nor the sign. *)
Lemma decimal_separator_unique (c : ascii) (a a' : Z) (r r' : string) :
  is_digit c = false -> c <> "-"%char ->
  decimal a +:+ String c r = decimal a' +:+ String c r' -> a = a' /\ r = r'.
Proof.
  intros Hc Hm E.
  apply append_split_unique in E as [E ->]; [|by apply occurs_decimal..].
  by apply decimal_inj in E.
Qed.

Lemma decimal_nonneg_head (z : Z) :
  (0 <= z)%Z -> exists d s, decimal z = String d s /\ is_digit d = true /\ all_digits s = true.
Proof.
  intros Hz. pose proof (is_digits_decimal z Hz) as Hd.
  destruct (decimal z) as [|d s]; [discriminate|].
  cbn [is_digits all_digits] in Hd. apply andb_true_iff in Hd as [Hd Hs]. eauto.
Qed.

(** [`${a}-...`] determines the integer [a], also when [a] carries a
    sign: the separator is the first [-] after a digit. *)
Lemma decimal_dash_unique (a a' : Z) (r r' : string) :
  decimal a +:+ String "-" r = decimal a' +:+ String "-" r' -> a = a' /\ r = r'.
Proof.
  assert (forall z, (0 <= z)%Z -> occurs "-" (decimal z) = false) as Hnn.
  { intros z Hz. apply occurs_all_digits; [reflexivity|].
    by apply is_digits_all_digits, is_digits_decimal. }
  assert (forall (z : Z) (p : positive) (t t' : string), (0 <= z)%Z ->
            decimal z +:+ t <> decimal (Z.neg p) +:+ t') as Hmixed.
  { intros z p t t' Hz E. destruct (decimal_nonneg_head z Hz) as (d & s & Hd & Hdig & _).
    rewrite Hd, decimal_neg in E. injection E as -> _. discriminate Hdig. }
  intros E. destruct a as [|p|p], a' as [|q|q];
    try (by apply Hmixed in E); try (symmetry in E; by apply Hmixed in E).
  - apply append_split_unique in E as [_ ->]; [done|by apply Hnn..].
  - apply append_split_unique in E as [E ->]; [|by apply Hnn..].
    by apply decimal_inj in E.
  - apply append_split_unique in E as [E ->]; [|by apply Hnn..].
    by apply decimal_inj in E.
  - apply append_split_unique in E as [E ->]; [|by apply Hnn..].
    by apply decimal_inj in E.
  - rewrite !decimal_neg in E.
    change (String "-" ?x +:+ ?y) with (String "-" (x +:+ y)) in E.
    injection E as E.
    apply append_split_unique in E as [E ->]; [|by apply Hnn..].
    apply decimal_inj in E. split; [lia|done].
Qed.

(** *** [Map]: entries after [set] *)

Lemma elem_of_Map_set {V} (m : Map V) (key : string) (v : V) (k : string) (w : V) :
  (k, w) ∈ Map_set m key v -> (k = key /\ w = v) \/ (k, w) ∈ m.
Proof.
  induction m as [|[k' w'] m IH]; cbn [Map_set].
  - intros [= -> ->]%list_elem_of_singleton. by left.
  - destruct (String.eqb_spec k' key) as [->|Hne].
    + intros [[= -> ->]|Hin]%elem_of_cons; [by left|].
      right. by apply list_elem_of_further.
    + intros [[= -> ->]|Hin]%elem_of_cons; [right; apply list_elem_of_here|].
      destruct (IH Hin) as [?|?]; [by left|]. right. by apply list_elem_of_further.
Qed.

Lemma Map_get_elem_of {V} (m : Map V) (key : string) (v : V) :
  Map_get m key = Some v -> (key, v) ∈ m.
Proof.
  unfold Map_get. induction m as [|[k w] m IH]; cbn [assoc]; [discriminate|].
  destruct (String.eqb_spec k key) as [->|_].
  - intros [= ->]. apply list_elem_of_here.
  - intros Hm. by apply list_elem_of_further, IH.
Qed.

Lemma Map_set_absent {V} (m : Map V) (key : string) (v : V) :
  Map_get m key = None -> Map_set m key v = m ++ [(key, v)].
Proof.
  unfold Map_get. induction m as [|[k w] m IH]; cbn [assoc Map_set]; [reflexivity|].
  destruct (String.eqb k key); [discriminate|]. intros Hm. by rewrite IH.
Qed.

(** The integers that [Number::toString] prints digit for digit (see
    [Number_toString_safe_integer]). *)
Definition safe_integer (z : Z) : Prop := (Z.abs z < 2 ^ 53)%Z.

(** *** 32-bit floats *)

Lemma Math_fround_pos_small (v : Z) :
  (0 < v < 2 ^ 24)%Z -> Math_fround_pos (inject_Z v) = inject_Z v.
Proof.
  intros [Hv Hlt]. unfold Math_fround_pos. rewrite exponent2_integer by exact Hv.
  assert (0 <= Z.log2 v <= 23)%Z as He.
  { split; [apply Z.log2_nonneg|]. apply Z.lt_succ_r, Z.log2_lt_pow2; [exact Hv|exact Hlt]. }
  unfold scale2. cbn [inject_Z Qnum Qden].
  rewrite (Zle_imp_le_bool 0 (23 - Z.log2 v)) by lia.
  rewrite round_half_even_1. unfold of_scaled.
  destruct (Z.leb_spec 0 (Z.log2 v - 23)) as [H0|H0].
  - replace (Z.log2 v - 23)%Z with 0%Z by lia. replace (23 - Z.log2 v)%Z with 0%Z by lia.
    by rewrite !Z.mul_1_r.
  - replace (- (Z.log2 v - 23))%Z with (23 - Z.log2 v)%Z by lia.
    rewrite <- (Qred_inject_Z v). apply Qred_complete.
    unfold Qeq. cbn [Qnum Qden inject_Z].
    rewrite Z2Pos.id by (apply Z.pow_pos_nonneg; lia). lia.
Qed.

(** An integer below [2^24] in magnitude is a 32-bit float. *)
Lemma Math_fround_small (v : Z) :
  (Z.abs v < 2 ^ 24)%Z -> Math_fround (inject_Z v) = inject_Z v.
Proof.
  intros Hv. unfold Math_fround. rewrite Qred_inject_Z. destruct v as [|p|p].
  - reflexivity.
  - apply Math_fround_pos_small. lia.
  - change (Qnum (inject_Z (Z.neg p))) with (Z.neg p). cbv iota.
    change (- inject_Z (Z.neg p)) with (inject_Z (Z.pos p)).
    rewrite Math_fround_pos_small by lia. reflexivity.
Qed.

Lemma Math_fround_comp (x y : Q) : x == y -> Math_fround x = Math_fround y.
Proof. intros E. unfold Math_fround. by rewrite (Qred_complete x y E). Qed.

Example Math_fround_samples :
  Math_fround (1 # 10) = (13421773 # 134217728) /\
  Math_fround (inject_Z (2 ^ 24 + 1)) = inject_Z (2 ^ 24) /\
  Math_fround (inject_Z (2 ^ 24 + 3)) = inject_Z (2 ^ 24 + 4) /\
  Math_fround (- (5 # 2)) = - (5 # 2) /\
  Number_div 1 3 = (6004799503160661 # 18014398509481984).
Proof. vm_compute. repeat split. Qed.

Lemma Number_div_self (x : Q) : ~ x == 0 -> Number_div x x = 1%Q.
Proof.
  intros Hx. unfold Number_div.
  rewrite (Number_of_comp (x / x) 1%Q) by (field; exact Hx). reflexivity.
Qed.

Lemma Number_mul_1_r (z : Z) :
  (Z.abs z < 2 ^ 53)%Z -> Number_mul (inject_Z z) 1%Q = inject_Z z.
Proof.
  intros Hz. unfold Number_mul.
  rewrite (Number_of_comp (inject_Z z * 1%Q) (inject_Z z)) by ring.
  by apply Number_of_small.
Qed.

(** *** The matcher with capture groups *)

(** Every character of [s] is in the class. *)
Fixpoint all_in (cs : charset) (s : string) : bool :=
  match s with
  | EmptyString => true
  | String c s' => in_charset cs c && all_in cs s'
  end.

(** The strings a pattern matches. *)
Inductive derives : pattern -> string -> Prop :=
| derives_PEmpty : derives PEmpty EmptyString
| derives_PSet (cs : charset) (c : ascii) :
    in_charset cs c = true -> derives (PSet cs) (String c EmptyString)
| derives_PSeq (p q : pattern) (u v : string) :
    derives p u -> derives q v -> derives (PSeq p q) (u +:+ v)
| derives_PAlt_l (p q : pattern) (u : string) : derives p u -> derives (PAlt p q) u
| derives_PAlt_r (p q : pattern) (u : string) : derives q u -> derives (PAlt p q) u
| derives_PStar (cs : charset) (u : string) : all_in cs u = true -> derives (PStar cs) u
| derives_PGroup (i : nat) (p : pattern) (u : string) : derives p u -> derives (PGroup i p) u.

Lemma star_sound {R} (cs : charset) (s : string) (k : string -> option R) (r : R) :
  star cs s k = Some r -> exists u v, s = u +:+ v /\ all_in cs u = true /\ k v = Some r.
Proof.
  induction s as [|c s IH]; cbn [star].
  - intros Hk. by exists EmptyString, EmptyString.
  - destruct (in_charset cs c) eqn:Hc; [|intros Hk; by exists EmptyString, (String c s)].
    destruct (star cs s k) as [r'|] eqn:Hs.
    + intros [= <-]. destruct (IH eq_refl) as (u & v & -> & Hu & Hk).
      exists (String c u), v. cbn [all_in]. by rewrite Hc, Hu.
    + intros Hk. by exists EmptyString, (String c s).
Qed.

(** What the matcher finds is a match: a front part of the string that
    the pattern matches, with the continuation accepting the rest. *)
Lemma pmatch_sound (p : pattern) :
  forall (s : string) (caps : Captures) (k : string -> Captures -> option Captures)
         (r : Captures),
  pmatch p s caps k = Some r ->
  exists u v caps', s = u +:+ v /\ derives p u /\ k v caps' = Some r.
Proof.
  induction p as [|cs|p IHp q IHq|p IHp q IHq|cs|i p IHp]; intros s caps k r; cbn [pmatch].
  - intros Hk. exists EmptyString, s, caps. split; [reflexivity|]. split; [constructor|exact Hk].
  - destruct s as [|c s]; [discriminate|]. destruct (in_charset cs c) eqn:Hc; [|discriminate].
    intros Hk. exists (String c EmptyString), s, caps.
    split; [reflexivity|]. split; [by constructor|exact Hk].
  - intros Hp. apply IHp in Hp as (u & v & caps' & -> & Hu & Hq).
    apply IHq in Hq as (u' & v' & caps'' & -> & Hu' & Hk).
    exists (u +:+ u'), v', caps''. rewrite append_assoc.
    split; [reflexivity|]. split; [by constructor|exact Hk].
  - destruct (pmatch p s caps k) as [r'|] eqn:Hp.
    + intros [= <-]. apply IHp in Hp as (u & v & caps' & -> & Hu & Hk).
      exists u, v, caps'. split; [reflexivity|]. split; [by apply derives_PAlt_l|exact Hk].
    + intros Hq. apply IHq in Hq as (u & v & caps' & -> & Hu & Hk).
      exists u, v, caps'. split; [reflexivity|]. split; [by apply derives_PAlt_r|exact Hk].
  - intros Hs. apply star_sound in Hs as (u & v & -> & Hu & Hk).
    exists u, v, caps. split; [reflexivity|]. split; [by constructor|exact Hk].
  - intros Hp. apply IHp in Hp as (u & v & caps' & -> & Hu & Hk).
    eexists u, v, _. split; [reflexivity|]. split; [by constructor|exact Hk].
Qed.

Lemma String_match_sound (s : string) (p : pattern) (caps : Captures) :
  String_match s p = Some caps -> derives p s.
Proof.
  unfold String_match. intros Hm. apply pmatch_sound in Hm as (u & v & caps' & -> & Hu & Hk).
  destruct v; [|discriminate]. by rewrite append_nil_r.
Qed.

(** A greedy quantifier finds a match that lies behind a run of the
    class. *)
Lemma star_app_Some {R} (cs : charset) (u v : string) (k : string -> option R) (r : R) :
  all_in cs u = true -> star cs v k = Some r -> star cs (u +:+ v) k = Some r.
Proof.
  induction u as [|c u IH]; [by intros _|]. cbn [all_in].
  intros [Hc Hu]%andb_true_iff Hv.
  change (String c u +:+ v) with (String c (u +:+ v)). cbn [star].
  by rewrite Hc, (IH Hu Hv).
Qed.

Lemma pmatch_PLit (l rest : string) (caps : Captures)
    (k : string -> Captures -> option Captures) :
  pmatch (PLit l) (l +:+ rest) caps k = k rest caps.
Proof.
  revert caps k. induction l as [|c l IH]; intros caps k; [reflexivity|].
  change (String c l +:+ rest) with (String c (l +:+ rest)). cbn [PLit pmatch in_charset].
  by rewrite Ascii.eqb_refl, IH.
Qed.

Lemma derives_PLit (l u : string) : derives (PLit l) u -> u = l.
Proof.
  revert u. induction l as [|c l IH]; intros u; cbn [PLit]; inversion 1; subst; [reflexivity|].
  match goal with H : derives (PSet _) _ |- _ => inversion H; subst end.
  match goal with H : in_charset (CChar c) _ = true |- _ =>
    cbn [in_charset] in H; apply Ascii.eqb_eq in H; subst end.
  change (String c EmptyString +:+ ?v) with (String c v). f_equal. by apply IH.
Qed.

Lemma derives_PPlus (cs : charset) (u : string) :
  derives (PPlus cs) u <-> u <> EmptyString /\ all_in cs u = true.
Proof.
  unfold PPlus. split.
  - inversion 1; subst.
    match goal with H : derives (PSet _) _ |- _ => inversion H; subst end.
    match goal with H : derives (PStar _) _ |- _ => inversion H; subst end.
    change (String c EmptyString +:+ ?v) with (String c v). cbn [all_in].
    split; [discriminate|]. by apply andb_true_iff.
  - intros [Hne Hall]. destruct u as [|c u]; [done|]. cbn [all_in] in Hall.
    apply andb_true_iff in Hall as [Hc Hu].
    change (String c u) with (String c EmptyString +:+ u). by repeat constructor.
Qed.

Lemma length_append (a b : string) :
  String.length (a +:+ b) = (String.length a + String.length b)%nat.
Proof.
  induction a as [|c a IH]; [reflexivity|].
  change (String c a +:+ b) with (String c (a +:+ b)). cbn [String.length]. by rewrite IH.
Qed.

Lemma take_string_app (a b : string) :
  take_string (String.length (a +:+ b) - String.length b) (a +:+ b) = a.
Proof.
  rewrite length_append. replace (String.length a + String.length b - String.length b)%nat
    with (String.length a) by lia.
  induction a as [|c a IH]; [by destruct b|].
  change (String c a +:+ b) with (String c (a +:+ b)). cbn [String.length take_string].
  by rewrite IH.
Qed.

(** [cs+] in front of a separator that is not in the class. *)
Lemma pmatch_PPlus_run (cs : charset) (u v : string) (caps : Captures)
    (k : string -> Captures -> option Captures) (r : Captures) :
  u <> EmptyString -> all_in cs u = true ->
  star cs v (fun s' => k s' caps) = Some r ->
  pmatch (PPlus cs) (u +:+ v) caps k = Some r.
Proof.
  intros Hne Hall Hk. destruct u as [|c u]; [done|]. cbn [all_in] in Hall.
  apply andb_true_iff in Hall as [Hc Hu].
  change (String c u +:+ v) with (String c (u +:+ v)). unfold PPlus. cbn [pmatch].
  rewrite Hc. by apply star_app_Some.
Qed.


Lemma derives_PSeq_inv (p q : pattern) (s : string) :
  derives (PSeq p q) s -> exists u v, s = u +:+ v /\ derives p u /\ derives q v.
Proof. inversion 1; subst. eauto. Qed.

Lemma derives_PAlt_inv (p q : pattern) (s : string) :
  derives (PAlt p q) s -> derives p s \/ derives q s.
Proof. inversion 1; subst; eauto. Qed.

Lemma derives_PGroup_inv (i : nat) (p : pattern) (s : string) :
  derives (PGroup i p) s -> derives p s.
Proof. by inversion 1; subst. Qed.

Lemma derives_PStar_inv (cs : charset) (s : string) :
  derives (PStar cs) s -> all_in cs s = true.
Proof. by inversion 1; subst. Qed.

(** [p] matches [a] in front of [v], and this is the way the matcher
    takes whenever the continuation accepts [v]. *)
Definition first_match (p : pattern) (a v : string) : Prop :=
  forall (caps : Captures) (k : string -> Captures -> option Captures) (r : Captures),
  k v caps = Some r -> pmatch p (a +:+ v) caps k = Some r.

Lemma first_match_PLit (l v : string) : first_match (PLit l) l v.
Proof. intros caps k r Hk. by rewrite pmatch_PLit. Qed.

Lemma first_match_PSeq (p q : pattern) (a b v : string) :
  first_match p a (b +:+ v) -> first_match q b v -> first_match (PSeq p q) (a +:+ b) v.
Proof.
  intros Hp Hq caps k r Hk. rewrite append_assoc. cbn [pmatch].
  apply Hp. by apply Hq.
Qed.

Lemma first_match_PAlt_l (p q : pattern) (a v : string) :
  first_match p a v -> first_match (PAlt p q) a v.
Proof. intros Hp caps k r Hk. cbn [pmatch]. by rewrite (Hp caps k r Hk). Qed.

(** What follows a run is the end of the string or a character that is
    not in the class. *)
Definition stops (cs : charset) (v : string) : Prop :=
  match v with
  | EmptyString => True
  | String c _ => in_charset cs c = false
  end.

Lemma first_match_PPlus (cs : charset) (u v : string) :
  u <> EmptyString -> all_in cs u = true -> stops cs v -> first_match (PPlus cs) u v.
Proof.
  intros Hne Hu Hv caps k r Hk. apply pmatch_PPlus_run; [exact Hne|exact Hu|].
  destruct v as [|c v]; cbn [star]; [exact Hk|]. cbn [stops] in Hv. by rewrite Hv.
Qed.

Lemma pmatch_PSeq (p q : pattern) (s : string) (caps : Captures)
    (k : string -> Captures -> option Captures) :
  pmatch (PSeq p q) s caps k = pmatch p s caps (fun s' caps' => pmatch q s' caps' k).
Proof. reflexivity. Qed.

Lemma pmatch_PGroup (i : nat) (p : pattern) (a v : string) (caps : Captures)
    (k : string -> Captures -> option Captures) (r : Captures) :
  first_match p a v -> k v (<[i := a]> caps) = Some r ->
  pmatch (PGroup i p) (a +:+ v) caps k = Some r.
Proof. intros Hp Hk. cbn [pmatch]. apply Hp. by rewrite take_string_app. Qed.

Lemma pmatch_PGroup_end (i : nat) (p : pattern) (a : string) (caps : Captures)
    (k : string -> Captures -> option Captures) (r : Captures) :
  first_match p a EmptyString -> k EmptyString (<[i := a]> caps) = Some r ->
  pmatch (PGroup i p) a caps k = Some r.
Proof. intros Hp Hk. rewrite <- (append_nil_r a) at 1. by apply pmatch_PGroup. Qed.

Lemma all_in_CNot (c : ascii) (s : string) : all_in (CNot [c]) s = negb (occurs c s).
Proof.
  induction s as [|a s IH]; [reflexivity|]. cbn [all_in occurs in_charset existsb].
  rewrite IH, orb_false_r, (Ascii.eqb_sym a c). by destruct (Ascii.eqb c a), (occurs c s).
Qed.

(** A path segment: not empty and without a slash, [[^\/]+]. *)
Definition segment (s : string) : Prop := s <> EmptyString /\ occurs "/" s = false.

Lemma segment_PPlus (s : string) : segment s <-> derives (PPlus (CNot ["/"%char])) s.
Proof.
  rewrite derives_PPlus, all_in_CNot. unfold segment.
  destruct (occurs "/" s); cbn [negb]; split; intros [? ?]; split; done.
Qed.

Lemma first_match_segment (u v : string) :
  segment u -> stops (CNot ["/"%char]) v -> first_match (PPlus (CNot ["/"%char])) u v.
Proof.
  intros [Hne Hu] Hv. apply first_match_PPlus; [exact Hne| |exact Hv].
  by rewrite all_in_CNot, Hu.
Qed.

Lemma pmatch_PAlt_l (p q : pattern) (s : string) (caps : Captures)
    (k : string -> Captures -> option Captures) (r : Captures) :
  pmatch p s caps k = Some r -> pmatch (PAlt p q) s caps k = Some r.
Proof. intros Hp. cbn [pmatch]. by rewrite Hp. Qed.

Lemma derives_PEmpty_inv (s : string) : derives PEmpty s -> s = EmptyString.
Proof. by inversion 1. Qed.

(** The continuation refuses every proper suffix of [l]. *)
Fixpoint fails_behind {R} (k : string -> option R) (l : string) : Prop :=
  match l with
  | EmptyString => True
  | String _ l' => k l' = None /\ fails_behind k l'
  end.

(** A greedy quantifier gives back what the continuation needs. *)
Lemma star_fails_behind {R} (cs : charset) (l : string) (k : string -> option R) :
  fails_behind k l -> star cs l k = k l.
Proof.
  induction l as [|c l IH]; [reflexivity|]. cbn [fails_behind star]. intros [Hk Hl].
  rewrite (IH Hl), Hk. by destruct (in_charset cs c).
Qed.

Lemma first_match_PStar (cs : charset) (u v : string) :
  all_in cs u = true -> stops cs v -> first_match (PStar cs) u v.
Proof.
  intros Hu Hv caps k r Hk. cbn [pmatch]. apply star_app_Some; [exact Hu|].
  destruct v as [|c v]; cbn [star]; [exact Hk|]. cbn [stops] in Hv. by rewrite Hv.
Qed.

Lemma all_in_CNot2 (a b : ascii) (s : string) :
  all_in (CNot [a; b]) s = negb (occurs a s) && negb (occurs b s).
Proof.
  induction s as [|c s IH]; [reflexivity|]. cbn [all_in occurs in_charset existsb].
  rewrite IH, orb_false_r, (Ascii.eqb_sym c a), (Ascii.eqb_sym c b).
  by destruct (Ascii.eqb a c), (Ascii.eqb b c), (occurs a s), (occurs b s).
Qed.

Lemma all_in_CDot (s : string) :
  all_in CDot s = negb (occurs "010" s) && negb (occurs "013" s).
Proof.
  induction s as [|c s IH]; [reflexivity|]. cbn [all_in occurs in_charset].
  rewrite IH, (Ascii.eqb_sym c "010"), (Ascii.eqb_sym c "013").
  by destruct (Ascii.eqb "010" c), (Ascii.eqb "013" c), (occurs "010" s), (occurs "013" s).
Qed.

(** A greedy run that has to give back its last character. *)
Lemma pmatch_PPlus_back (cs : charset) (u : string) (c : ascii) (v : string)
    (caps : Captures) (k : string -> Captures -> option Captures) (r : Captures) :
  u <> EmptyString -> all_in cs u = true -> in_charset cs c = true -> stops cs v ->
  k v caps = None -> k (String c v) caps = Some r ->
  pmatch (PPlus cs) (u +:+ String c v) caps k = Some r.
Proof.
  intros Hne Hu Hc Hv Hnone Hk. apply pmatch_PPlus_run; [exact Hne|exact Hu|].
  cbn [star]. rewrite Hc.
  destruct v as [|c' v]; cbn [star]; [by rewrite Hnone|].
  cbn [stops] in Hv. by rewrite Hv, Hnone.
Qed.

(** *** Values that the binary formats hold *)

Section Binary.
Local Open Scope Q_scope.

Lemma pow2_nonneg (k : Z) : (0 <= k)%Z -> 2 ^ k == inject_Z (2 ^ k).
Proof. intros Hk. symmetry. exact (Zpower_Qpower 2 k Hk). Qed.

Lemma pow2_gt_0 (k : Z) : 0 < 2 ^ k.
Proof. by apply Qpower_0_lt. Qed.

Lemma pow2_neq_0 (k : Z) : ~ 2 ^ k == 0.
Proof. intros E. pose proof (pow2_gt_0 k) as H. rewrite E in H. discriminate H. Qed.

Lemma pow2_plus (a b : Z) : 2 ^ (a + b) == 2 ^ a * 2 ^ b.
Proof. by apply Qpower_plus. Qed.

Lemma pow2_opp (a : Z) : 2 ^ (- a) == / 2 ^ a.
Proof. apply Qpower_opp. Qed.

Lemma pow2_le (a b : Z) : (a <= b)%Z -> 2 ^ a <= 2 ^ b.
Proof. intros H. by apply Qpower_le_compat_l. Qed.

Lemma pow2_lt (a b : Z) : (a < b)%Z -> 2 ^ a < 2 ^ b.
Proof. intros H. by apply Qpower_lt_compat_l. Qed.

Lemma Zpow2_pos (k : Z) : (0 <= k)%Z -> (0 < 2 ^ k)%Z.
Proof. intros. apply Z.pow_pos_nonneg; lia. Qed.

Lemma scale2_spec (x : Q) (j : Z) :
  (0 < (scale2 x j).2)%Z /\
  inject_Z (scale2 x j).1 / inject_Z (scale2 x j).2 == x * 2 ^ j.
Proof.
  unfold scale2. destruct x as [a b]. cbn [Qnum Qden].
  destruct (Z.leb_spec 0 j) as [Hj|Hj]; cbn [fst snd].
  - split; [lia|]. rewrite inject_Z_mult, (pow2_nonneg j Hj), (Qmake_Qdiv a b).
    field. intros E. unfold Qeq in E. cbn in E. lia.
  - pose proof (Zpow2_pos (- j) ltac:(lia)) as Hp.
    split; [lia|]. rewrite inject_Z_mult, (Qmake_Qdiv a b).
    replace j with (- - j)%Z at 2 by lia. rewrite pow2_opp, (pow2_nonneg (- j)) by lia.
    field. split; intros E; unfold Qeq in E; cbn in E; lia.
Qed.

Lemma of_scaled_spec (m k : Z) : of_scaled m k == inject_Z m * 2 ^ k.
Proof.
  unfold of_scaled. destruct (Z.leb_spec 0 k) as [Hk|Hk].
  - by rewrite inject_Z_mult, (pow2_nonneg k Hk).
  - pose proof (Zpow2_pos (- k) ltac:(lia)) as Hp.
    rewrite Qred_correct, Qmake_Qdiv, Z2Pos.id by exact Hp.
    replace k with (- - k)%Z at 2 by lia. rewrite pow2_opp, (pow2_nonneg (- k)) by lia.
    reflexivity.
Qed.

Lemma Qred_idem (x : Q) : Qred (Qred x) = Qred x.
Proof. apply Qred_complete, Qred_correct. Qed.

Lemma of_scaled_canonical (m k : Z) : Qred (of_scaled m k) = of_scaled m k.
Proof.
  unfold of_scaled. destruct (0 <=? k)%Z; [apply Qred_inject_Z|apply Qred_idem].
Qed.

Lemma mul_pow2_cancel (x : Q) (k : Z) : x * 2 ^ k * 2 ^ (- k) == x.
Proof. rewrite pow2_opp. field. apply pow2_neq_0. Qed.

Lemma Qlt_mul_pow2 (x y : Q) (k : Z) : x < y <-> x * 2 ^ k < y * 2 ^ k.
Proof. symmetry. apply Qmult_lt_r, pow2_gt_0. Qed.

Lemma Qle_mul_pow2 (x y : Q) (k : Z) : x <= y <-> x * 2 ^ k <= y * 2 ^ k.
Proof. symmetry. apply Qmult_le_r, pow2_gt_0. Qed.

Lemma Qnum_pos (x : Q) : 0 < x <-> (0 < Qnum x)%Z.
Proof. unfold Qlt. cbn. rewrite Z.mul_1_r. reflexivity. Qed.

Lemma Q_as_div (x : Q) : x == inject_Z (Qnum x) / inject_Z (Zpos (Qden x)).
Proof. destruct x as [a b]. apply Qmake_Qdiv. Qed.

Lemma inject_Z_pow2_log2 (a : Z) :
  (0 < a)%Z -> 2 ^ Z.log2 a <= inject_Z a /\ inject_Z a < 2 ^ (Z.log2 a + 1).
Proof.
  intros Ha. destruct (Z.log2_spec a Ha) as [Hlo Hhi]. pose proof (Z.log2_nonneg a).
  rewrite !pow2_nonneg by lia. rewrite <- Zle_Qle, <- Zlt_Qlt.
  replace (Z.log2 a + 1)%Z with (Z.succ (Z.log2 a)) by lia. done.
Qed.

Lemma inject_Z_pos (d : Z) : (0 < d)%Z -> 0 < inject_Z d.
Proof. intros H. change 0 with (inject_Z 0). by rewrite <- Zlt_Qlt. Qed.

(** [exponent2 x] is the binary exponent of [x]. *)
Lemma exponent2_spec (x : Q) :
  0 < x -> 2 ^ exponent2 x <= x /\ x < 2 ^ (exponent2 x + 1).
Proof.
  intros Hx. unfold exponent2.
  set (a := Qnum x). set (b := Z.pos (Qden x)).
  assert (0 < a)%Z as Ha by (by apply Qnum_pos).
  assert (0 < b)%Z as Hb by done.
  destruct (inject_Z_pow2_log2 a Ha) as [Ha1 Ha2].
  destruct (inject_Z_pow2_log2 b Hb) as [Hb1 Hb2].
  set (la := Z.log2 a) in *. set (lb := Z.log2 b) in *.
  assert (x * inject_Z b == inject_Z a) as Hxb.
  { rewrite (Q_as_div x) at 1. fold a b. field. intros E. unfold Qeq in E. cbn in E. lia. }
  assert (2 ^ (la - lb - 1) <= x /\ x < 2 ^ (la - lb + 1)) as [Hlow Hhigh].
  { split.
    - apply (Qle_mul_pow2 _ _ (lb + 1)). rewrite <- pow2_plus.
      replace (la - lb - 1 + (lb + 1))%Z with la by lia.
      apply Qle_trans with (inject_Z a); [exact Ha1|]. rewrite <- Hxb.
      apply Qmult_le_l; [exact Hx|]. by apply Qlt_le_weak.
    - apply (Qlt_mul_pow2 _ _ lb). rewrite <- pow2_plus.
      replace (la - lb + 1 + lb)%Z with (la + 1)%Z by lia.
      apply Qle_lt_trans with (inject_Z a); [|exact Ha2]. rewrite <- Hxb.
      apply Qmult_le_l; [exact Hx|exact Hb1]. }
  destruct (scale2_spec x (- (la - lb))) as [Hd Hnd].
  destruct (scale2 x (- (la - lb))) as [n d]. cbn [fst snd] in Hd, Hnd.
  assert (inject_Z n == x * 2 ^ (- (la - lb)) * inject_Z d) as Hn.
  { rewrite <- Hnd. field. intros E. unfold Qeq in E. cbn in E. lia. }
  destruct (Z.leb_spec d n) as [Hdn|Hdn].
  - split; [|exact Hhigh].
    apply (Qle_mul_pow2 _ _ (- (la - lb))). rewrite <- pow2_plus, Z.add_opp_diag_r.
    change (2 ^ 0) with 1. apply (Qmult_le_r _ _ (inject_Z d)); [by apply inject_Z_pos|].
    rewrite <- Hn, Qmult_1_l. by rewrite <- Zle_Qle.
  - split; [by replace (la - lb - 1 + 1)%Z with (la - lb)%Z by lia|].
    replace (la - lb - 1 + 1)%Z with (la - lb)%Z by lia.
    apply (Qlt_mul_pow2 _ _ (- (la - lb))). rewrite <- pow2_plus, Z.add_opp_diag_r.
    change (2 ^ 0) with 1. apply (Qmult_lt_r _ _ (inject_Z d)); [by apply inject_Z_pos|].
    rewrite <- Hn, Qmult_1_l. by rewrite <- Zlt_Qlt.
Qed.

Lemma exponent2_unique (x : Q) (e : Z) :
  2 ^ e <= x -> x < 2 ^ (e + 1) -> exponent2 x = e.
Proof.
  intros Hlo Hhi.
  assert (0 < x) as Hx by (eapply Qlt_le_trans; [apply (pow2_gt_0 e)|exact Hlo]).
  destruct (exponent2_spec x Hx) as [Hlo' Hhi'].
  destruct (Z.lt_trichotomy (exponent2 x) e) as [H|[H|H]]; [|exact H|]; exfalso.
  - assert (2 ^ (exponent2 x + 1) <= 2 ^ e) as Hle by (apply pow2_le; lia).
    apply (Qlt_irrefl x). eapply Qlt_le_trans; [exact Hhi'|]. by eapply Qle_trans.
  - assert (2 ^ (e + 1) <= 2 ^ exponent2 x) as Hle by (apply pow2_le; lia).
    apply (Qlt_irrefl x). eapply Qlt_le_trans; [exact Hhi|]. by eapply Qle_trans.
Qed.

Lemma round_half_even_exact (M d : Z) : (0 < d)%Z -> round_half_even (M * d) d = M.
Proof.
  intros Hd. unfold round_half_even. rewrite Z.div_mul, Z.mod_mul by lia.
  cbn. destruct d; try lia; reflexivity.
Qed.

Lemma inject_Z_div_eq (n d M : Z) :
  (0 < d)%Z -> inject_Z n / inject_Z d == inject_Z M -> n = (M * d)%Z.
Proof.
  intros Hd E.
  assert (inject_Z n == inject_Z M * inject_Z d) as E'.
  { rewrite <- E. field. intros E0. unfold Qeq in E0. cbn in E0. lia. }
  rewrite <- inject_Z_mult in E'. unfold Qeq in E'. cbn in E'. lia.
Qed.

(** A value with at most [p] bits whose last bit is not below the
    spacing at [2^emin] is kept by the rounding. *)
Lemma binary_round_pos_exact (p emin : Z) (x : Q) (m k : Z) :
  (0 < m < 2 ^ p)%Z -> (emin - (p - 1) <= k)%Z -> x == inject_Z m * 2 ^ k ->
  binary_round_pos p emin x = Qred x.
Proof.
  intros [Hm Hmp] Hk Hx.
  assert (0 <= p)%Z as Hp.
  { destruct (Z.le_gt_cases 0 p) as [H|H]; [exact H|]. rewrite Z.pow_neg_r in Hmp; lia. }
  destruct (inject_Z_pow2_log2 m Hm) as [Hlo Hhi].
  assert (Z.log2 m < p)%Z as Hlog by (apply Z.log2_lt_pow2; lia).
  pose proof (Z.log2_nonneg m) as Hlog0.
  assert (exponent2 x = Z.log2 m + k)%Z as He.
  { apply exponent2_unique; rewrite Hx.
    - rewrite pow2_plus. apply Qle_mul_pow2. exact Hlo.
    - replace (Z.log2 m + k + 1)%Z with (Z.log2 m + 1 + k)%Z by lia.
      rewrite pow2_plus. apply Qlt_mul_pow2. exact Hhi. }
  unfold binary_round_pos. rewrite He.
  set (E := Z.max (Z.log2 m + k) emin).
  assert (0 <= k + (p - 1 - E))%Z as Hj by lia.
  destruct (scale2_spec x (p - 1 - E)) as [Hd Hnd].
  destruct (scale2 x (p - 1 - E)) as [n d]. cbn [fst snd] in Hd, Hnd.
  assert (n = m * 2 ^ (k + (p - 1 - E)) * d)%Z as ->.
  { apply inject_Z_div_eq; [exact Hd|]. rewrite Hnd, Hx, inject_Z_mult.
    rewrite <- (pow2_nonneg _ Hj), pow2_plus. ring. }
  rewrite round_half_even_exact by exact Hd.
  rewrite <- of_scaled_canonical. apply Qred_complete.
  rewrite of_scaled_spec, Hx, inject_Z_mult, <- (pow2_nonneg _ Hj).
  rewrite <- Qmult_assoc, <- pow2_plus.
  replace (k + (p - 1 - E) + (E - (p - 1)))%Z with k by lia. reflexivity.
Qed.

Lemma Qopp_involutive_eq (x : Q) : - - x = x.
Proof. destruct x as [a b]. unfold Qopp. cbn. by rewrite Z.opp_involutive. Qed.

Lemma Qred_zero (x : Q) : Qnum (Qred x) = 0%Z -> Qred x = 0.
Proof.
  intros H. rewrite <- Qred_idem. change 0 with (Qred 0). apply Qred_complete.
  unfold Qeq. rewrite H. reflexivity.
Qed.

Lemma Qle_bool_false (x y : Q) : y < x -> Qle_bool x y = false.
Proof.
  intros H. destruct (Qle_bool x y) eqn:E; [|reflexivity].
  apply Qle_bool_iff in E. exfalso. by apply (Qlt_not_le y x).
Qed.

(** The rounding keeps every value of the format. *)
Lemma binary_round_exact (p emin emax : Z) (x : Q) (m k : Z) :
  (Z.abs m < 2 ^ p)%Z -> (emin - (p - 1) <= k)%Z -> x == inject_Z m * 2 ^ k ->
  Qabs x < 2 ^ (emax + 1) ->
  binary_round p emin emax x = Finite (Qred x).
Proof.
  intros Hm Hk Hx Hmax. unfold binary_round.
  assert (Qred x == inject_Z m * 2 ^ k) as Hx' by (by rewrite Qred_correct).
  assert (Qabs (Qred x) < 2 ^ (emax + 1)) as Hmax' by (by rewrite Qred_correct).
  destruct (Qnum (Qred x)) as [|a|a] eqn:Hnum.
  - by rewrite (Qred_zero x Hnum).
  - assert (0 < Qred x) as Hpos by (apply Qnum_pos; rewrite Hnum; lia).
    assert (0 < m)%Z as Hm0.
    { destruct (Z.lt_trichotomy m 0) as [H|[H|H]]; [| |exact H]; exfalso.
      - apply (Qlt_irrefl 0). eapply Qlt_le_trans; [exact Hpos|]. rewrite Hx'.
        rewrite <- (Qmult_0_l (2 ^ k)). apply Qle_mul_pow2.
        change 0 with (inject_Z 0). rewrite <- Zle_Qle. lia.
      - subst m. rewrite Hx' in Hpos. rewrite Qmult_0_l in Hpos. discriminate Hpos. }
    rewrite (binary_round_pos_exact p emin (Qred x) m k) by (try done; lia).
    rewrite Qred_idem, Qle_bool_false; [reflexivity|].
    rewrite of_scaled_spec, Qmult_1_l, <- (Qabs_pos (Qred x)) by (by apply Qlt_le_weak).
    by rewrite Qred_correct.
  - assert (Qred x < 0) as Hneg.
    { unfold Qlt. cbn. rewrite Hnum. lia. }
    assert (m < 0)%Z as Hm0.
    { destruct (Z.lt_trichotomy m 0) as [H|[H|H]]; [exact H| |]; exfalso.
      - subst m. rewrite Hx' in Hneg. rewrite Qmult_0_l in Hneg. discriminate Hneg.
      - apply (Qlt_irrefl 0). eapply Qle_lt_trans; [|exact Hneg]. rewrite Hx'.
        rewrite <- (Qmult_0_l (2 ^ k)). apply Qle_mul_pow2.
        change 0 with (inject_Z 0). rewrite <- Zle_Qle. lia. }
    rewrite (binary_round_pos_exact p emin (- Qred x) (- m) k); [|lia|lia|].
    + rewrite Qred_opp, Qred_idem, Qopp_involutive_eq, Qle_bool_false; [reflexivity|].
      rewrite of_scaled_spec, Qmult_1_l.
      rewrite <- (Qabs_neg (Qred x)) by (by apply Qlt_le_weak). by rewrite Qred_correct.
    + rewrite Hx', inject_Z_opp. ring.
Qed.

Lemma float32_round_exact (x : Q) : float32 x -> float32_round x = Finite (Qred x).
Proof.
  intros (m & k & Hm & Hk & Hx & Hmax).
  by apply (binary_round_exact 24 (-126) 127 x m k).
Qed.

Lemma double_round_exact (x : Q) (m k : Z) :
  (Z.abs m < 2 ^ 53)%Z -> (-1074 <= k)%Z -> x == inject_Z m * 2 ^ k -> Qabs x < 2 ^ 1024 ->
  double_round x = Finite (Qred x).
Proof. intros. by apply (binary_round_exact 53 (-1022) 1023 x m k). Qed.

Lemma double_round_float32 (x : Q) : float32 x -> double_round x = Finite (Qred x).
Proof.
  intros (m & k & Hm & Hk & Hx & Hmax).
  apply (double_round_exact x m k); [lia|lia|exact Hx|].
  eapply Qlt_trans; [exact Hmax|]. by apply pow2_lt.
Qed.

Lemma binary_round_comp (p emin emax : Z) (x y : Q) :
  x == y -> binary_round p emin emax x = binary_round p emin emax y.
Proof. intros E. unfold binary_round. by rewrite (Qred_complete x y E). Qed.

Lemma float32_comp (x y : Q) : x == y -> float32 x -> float32 y.
Proof.
  intros E (m & k & Hm & Hk & Hx & Hmax). exists m, k.
  repeat split; try done; by rewrite <- E.
Qed.

Lemma float32_Qred (x : Q) : float32 x -> float32 (Qred x).
Proof. apply float32_comp. symmetry. apply Qred_correct. Qed.

Lemma float32_opp (x : Q) : float32 x -> float32 (- x).
Proof.
  intros (m & k & Hm & Hk & Hx & Hmax). exists (- m)%Z, k.
  split; [lia|]. split; [exact Hk|]. split; [rewrite Hx, inject_Z_opp; ring|].
  by rewrite Qabs_opp.
Qed.

Lemma Qabs_inject_Z (z : Z) : Qabs (inject_Z z) = inject_Z (Z.abs z).
Proof. reflexivity. Qed.

Lemma float32_small (z : Z) : (Z.abs z < 2 ^ 24)%Z -> float32 (inject_Z z).
Proof.
  intros Hz. exists z, 0%Z. split; [exact Hz|]. split; [lia|].
  split; [change (2 ^ 0) with 1; ring|].
  rewrite Qabs_inject_Z, (pow2_nonneg 128) by lia. rewrite <- Zlt_Qlt. lia.
Qed.

Lemma Zdiv_abs_le (z d : Z) : (0 < d)%Z -> (Z.abs (z / d) <= Z.abs z)%Z.
Proof.
  intros Hd. pose proof (Z.div_mod z d ltac:(lia)) as E.
  pose proof (Z.mod_pos_bound z d Hd) as B.
  destruct (Z.le_gt_cases 0 z) as [Hz|Hz].
  - pose proof (Z.div_pos z d Hz Hd). rewrite !Z.abs_eq by lia. nia.
  - assert (z / d < 0)%Z by (apply Z.div_lt_upper_bound; lia).
    rewrite !Z.abs_neq by lia. nia.
Qed.

(** Halving an integer that a 32-bit float holds, any number of times
    and rounding down, gives one that a 32-bit float holds. *)
Lemma float32_floor_div (z : Z) (n : nat) :
  float32 (inject_Z z) -> float32 (inject_Z (z / 2 ^ Z.of_nat n)).
Proof.
  intros (m & k & Hm & Hk & Hx & Hmax).
  pose proof (Zpow2_pos (Z.of_nat n) ltac:(lia)) as Hd.
  pose proof (Zdiv_abs_le z _ Hd) as Hle.
  destruct (Z.le_gt_cases k 0) as [Hk0|Hk0].
  - apply float32_small.
    assert (z * 2 ^ (- k) = m)%Z as Hzm.
    { assert (inject_Z (z * 2 ^ (- k)) == inject_Z m) as E.
      { rewrite inject_Z_mult, <- (pow2_nonneg (- k)) by lia. rewrite Hx.
        rewrite <- Qmult_assoc, <- pow2_plus. replace (k + - k)%Z with 0%Z by lia.
        change (2 ^ 0) with 1. ring. }
      unfold Qeq in E. cbn in E. lia. }
    pose proof (Zpow2_pos (- k) ltac:(lia)). 
    assert (Z.abs z <= Z.abs m)%Z.
    { rewrite <- Hzm, Z.abs_mul, (Z.abs_eq (2 ^ (- k))) by lia.
      pose proof (Z.abs_nonneg z). nia. }
    lia.
  - assert (z = m * 2 ^ k)%Z as ->.
    { assert (inject_Z z == inject_Z (m * 2 ^ k)) as E
        by (rewrite inject_Z_mult, <- (pow2_nonneg k) by lia; exact Hx).
      unfold Qeq in E. cbn in E. lia. }
    destruct (Z.le_gt_cases (Z.of_nat n) k) as [Hnk|Hnk].
    + exists m, (k - Z.of_nat n)%Z. split; [exact Hm|]. split; [lia|].
      assert ((m * 2 ^ k) / 2 ^ Z.of_nat n = m * 2 ^ (k - Z.of_nat n))%Z as E.
      { replace k with ((k - Z.of_nat n) + Z.of_nat n)%Z at 1 by lia.
        rewrite Z.pow_add_r, Z.mul_assoc, Z.div_mul by lia. reflexivity. }
      split.
      * rewrite E, inject_Z_mult, <- (pow2_nonneg (k - Z.of_nat n)) by lia. reflexivity.
      * eapply Qle_lt_trans; [|exact Hmax]. rewrite !Qabs_inject_Z, <- Zle_Qle. exact Hle.
    + apply float32_small.
      assert ((m * 2 ^ k) / 2 ^ Z.of_nat n = m / 2 ^ (Z.of_nat n - k))%Z as E.
      { replace (Z.of_nat n) with (k + (Z.of_nat n - k))%Z at 1 by lia.
        rewrite Z.pow_add_r by lia. rewrite (Z.mul_comm (2 ^ k)).
        rewrite Z.div_mul_cancel_r; [reflexivity| |];
          apply Z.neq_sym, Z.lt_neq, Zpow2_pos; lia. }
      rewrite E. pose proof (Zdiv_abs_le m (2 ^ (Z.of_nat n - k)) (Zpow2_pos (Z.of_nat n - k) ltac:(lia))).
      lia.
Qed.

Lemma Qred_pos (x : Q) : 0 < x -> (0 < Qnum (Qred x))%Z.
Proof. intros H. apply Qnum_pos. by rewrite Qred_correct. Qed.

Lemma float32_level_bound (v : Q) (n : nat) :
  float32 v -> 0 < v -> v * inject_Z (2 ^ Z.of_nat n) < 2 ^ 128 -> (Z.of_nat n < 277)%Z.
Proof.
  intros (m & k & Hm & Hk & Hx & _) Hv Hmax.
  assert (1 <= m)%Z as Hm1.
  { destruct (Z.le_gt_cases 1 m) as [H|H]; [exact H|]. exfalso.
    apply (Qlt_irrefl 0). eapply Qlt_le_trans; [exact Hv|]. rewrite Hx.
    rewrite <- (Qmult_0_l (2 ^ k)). apply Qle_mul_pow2.
    change 0 with (inject_Z 0). rewrite <- Zle_Qle. lia. }
  assert (2 ^ (-149 + Z.of_nat n) < 2 ^ 128) as Hlt.
  { eapply Qle_lt_trans; [|exact Hmax]. rewrite pow2_plus, <- (pow2_nonneg (Z.of_nat n)) by lia.
    apply Qle_mul_pow2. rewrite Hx. apply Qle_trans with (1 * 2 ^ k).
    - rewrite Qmult_1_l. by apply pow2_le.
    - apply Qle_mul_pow2. change 1 with (inject_Z 1). by rewrite <- Zle_Qle. }
  apply Qpower_lt_compat_l_inv in Hlt; [lia|done].
Qed.

Lemma Math_pow_2_exact (n : nat) :
  (Z.of_nat n < 1024)%Z -> Math_pow_2 n = Finite (inject_Z (2 ^ Z.of_nat n)).
Proof.
  intros Hn. unfold Math_pow_2. rewrite <- (Qred_inject_Z (2 ^ Z.of_nat n)) at 2.
  apply (double_round_exact _ 1 (Z.of_nat n)); [lia|lia| |].
  - rewrite <- (pow2_nonneg (Z.of_nat n)) by lia. ring.
  - rewrite Qabs_inject_Z, Z.abs_eq by (apply Z.lt_le_incl, Zpow2_pos; lia).
    rewrite <- (pow2_nonneg (Z.of_nat n)) by lia. apply pow2_lt. lia.
Qed.

(** The resolution that [getSources] stores for a level, while it fits a
    32-bit float. *)
Lemma level_voxelSize_exact (v : Q) (n : nat) :
  float32 v -> 0 < v -> v * inject_Z (2 ^ Z.of_nat n) < 2 ^ 128 ->
  Float32_store (double_mul (Finite v) (Math_pow_2 n)) =
    Finite (Qred (v * inject_Z (2 ^ Z.of_nat n))).
Proof.
  intros Hf Hv Hmax. pose proof (float32_level_bound v n Hf Hv Hmax) as Hn.
  destruct Hf as (m & k & Hm & Hk & Hx & Hvmax).
  assert (0 < v * inject_Z (2 ^ Z.of_nat n)) as Hpos.
  { apply Qmult_lt_0_compat; [exact Hv|]. apply inject_Z_pos, Zpow2_pos. lia. }
  assert (float32 (v * inject_Z (2 ^ Z.of_nat n))) as Hfn.
  { exists m, (k + Z.of_nat n)%Z. split; [exact Hm|]. split; [lia|]. split.
    - rewrite Hx, pow2_plus, (pow2_nonneg (Z.of_nat n)) by lia. ring.
    - rewrite Qabs_pos by (by apply Qlt_le_weak). exact Hmax. }
  rewrite Math_pow_2_exact by lia. cbn [double_mul].
  rewrite (double_round_float32 _ Hfn). cbn [Float32_store].
  rewrite (float32_round_exact _ (float32_Qred _ Hfn)). by rewrite Qred_idem.
Qed.

Lemma level_ratio_exact (v : Q) (n : nat) :
  float32 v -> 0 < v -> v * inject_Z (2 ^ Z.of_nat n) < 2 ^ 128 ->
  exists r,
    double_div (Finite v) (Float32_store (double_mul (Finite v) (Math_pow_2 n))) = Finite r /\
    r == 2 ^ (- Z.of_nat n).
Proof.
  intros Hf Hv Hmax. pose proof (float32_level_bound v n Hf Hv Hmax) as Hn.
  rewrite (level_voxelSize_exact v n Hf Hv Hmax).
  assert (0 < v * inject_Z (2 ^ Z.of_nat n)) as Hpos.
  { apply Qmult_lt_0_compat; [exact Hv|]. apply inject_Z_pos, Zpow2_pos. lia. }
  cbn [double_div is_zero].
  pose proof (Qred_pos _ Hpos) as Hnum.
  destruct (Z.eqb_spec (Qnum (Qred (v * inject_Z (2 ^ Z.of_nat n)))) 0) as [E|_]; [lia|].
  assert (v / Qred (v * inject_Z (2 ^ Z.of_nat n)) == 2 ^ (- Z.of_nat n)) as Hr.
  { rewrite Qred_correct, pow2_opp, (pow2_nonneg (Z.of_nat n)) by lia.
    field. split.
    - intros E. pose proof (Zpow2_pos (Z.of_nat n) ltac:(lia)). unfold Qeq in E. cbn in E. lia.
    - intros E. rewrite E in Hv. discriminate Hv. }
  eexists. split.
  - apply (double_round_exact _ 1 (- Z.of_nat n)); [lia|lia|by rewrite Hr, Qmult_1_l|].
    rewrite Hr, Qabs_pos by (apply Qlt_le_weak, pow2_gt_0). apply pow2_lt. lia.
  - by rewrite Qred_correct.
Qed.

Lemma level_product_exact (z : Z) (r : Q) (n : nat) :
  float32 (inject_Z z) -> (Z.of_nat n < 277)%Z -> r == 2 ^ (- Z.of_nat n) ->
  exists q,
    double_mul (Finite (inject_Z z)) (Finite r) = Finite q /\
    q == inject_Z z / inject_Z (2 ^ Z.of_nat n).
Proof.
  intros (m & k & Hm & Hk & Hx & Hmax) Hn Hr.
  assert (inject_Z z * r == inject_Z z / inject_Z (2 ^ Z.of_nat n)) as Hq.
  { rewrite Hr, pow2_opp, (pow2_nonneg (Z.of_nat n)) by lia. reflexivity. }
  cbn [double_mul]. exists (Qred (inject_Z z * r)). split; [|by rewrite Qred_correct].
  apply (double_round_exact _ m (k - Z.of_nat n)); [lia|lia| |].
  - rewrite Hr, Hx. replace (k - Z.of_nat n)%Z with (k + - Z.of_nat n)%Z by lia.
    rewrite pow2_plus. ring.
  - rewrite Hr, Qabs_Qmult, (Qabs_pos (2 ^ (- Z.of_nat n))) by apply Qlt_le_weak, pow2_gt_0.
    rewrite Qmult_comm. apply Qle_lt_trans with (1 * Qabs (inject_Z z)).
    + apply Qmult_le_compat_r; [|apply Qabs_nonneg]. change 1 with (2 ^ 0). apply pow2_le. lia.
    + rewrite Qmult_1_l. eapply Qlt_trans; [exact Hmax|]. by apply pow2_lt.
Qed.

Lemma float32_store_integer (z : Z) :
  float32 (inject_Z z) -> Float32_store (Finite (inject_Z z)) = Finite (inject_Z z).
Proof. intros H. cbn [Float32_store]. by rewrite (float32_round_exact _ H), Qred_inject_Z. Qed.

(** One lower bound of a level, as [getSources] computes and stores
    it. *)
Lemma level_lower_bound (v : Q) (z : Z) (n : nat) :
  float32 v -> 0 < v -> v * inject_Z (2 ^ Z.of_nat n) < 2 ^ 128 -> float32 (inject_Z z) ->
  Float32_store
    (double_floor
       (double_mul (Finite (inject_Z z))
          (double_div (Finite v) (Float32_store (double_mul (Finite v) (Math_pow_2 n)))))) =
  Finite (inject_Z (z / 2 ^ Z.of_nat n)).
Proof.
  intros Hf Hv Hmax Hz. pose proof (float32_level_bound v n Hf Hv Hmax) as Hn.
  destruct (level_ratio_exact v n Hf Hv Hmax) as (r & -> & Hr).
  destruct (level_product_exact z r n Hz Hn Hr) as (q & -> & Hq).
  cbn [double_floor].
  rewrite (Qfloor_comp _ _ Hq), Qfloor_div_inject_Z by (apply Zpow2_pos; lia).
  apply float32_store_integer. by apply float32_floor_div.
Qed.

Lemma level_upper_bound (v : Q) (z : Z) (n : nat) :
  float32 v -> 0 < v -> v * inject_Z (2 ^ Z.of_nat n) < 2 ^ 128 -> float32 (inject_Z z) ->
  Float32_store
    (double_ceil
       (double_mul (Finite (inject_Z z))
          (double_div (Finite v) (Float32_store (double_mul (Finite v) (Math_pow_2 n)))))) =
  Finite (inject_Z (- (- z / 2 ^ Z.of_nat n))).
Proof.
  intros Hf Hv Hmax Hz. pose proof (float32_level_bound v n Hf Hv Hmax) as Hn.
  destruct (level_ratio_exact v n Hf Hv Hmax) as (r & -> & Hr).
  destruct (level_product_exact z r n Hz Hn Hr) as (q & -> & Hq).
  cbn [double_ceil]. unfold Qceiling.
  assert (- q == inject_Z (- z) / inject_Z (2 ^ Z.of_nat n)) as Hq'.
  { rewrite Hq, inject_Z_opp. field. intros E.
    pose proof (Zpow2_pos (Z.of_nat n) ltac:(lia)). unfold Qeq in E. cbn in E. lia. }
  rewrite (Qfloor_comp _ _ Hq'), Qfloor_div_inject_Z by (apply Zpow2_pos; lia).
  apply float32_store_integer.
  change (inject_Z (- (- z / 2 ^ Z.of_nat n))) with (- inject_Z (- z / 2 ^ Z.of_nat n)).
  apply float32_opp, float32_floor_div.
  change (inject_Z (- z)) with (- inject_Z z). by apply float32_opp.
Qed.

Lemma round_half_even_bounds (n d A B : Z) :
  (0 < d)%Z -> (A * d <= n)%Z -> (n <= B * d)%Z -> (A <= round_half_even n d <= B)%Z.
Proof.
  intros Hd HA HB. unfold round_half_even.
  pose proof (Z.div_mod n d ltac:(lia)) as E.
  pose proof (Z.mod_pos_bound n d Hd) as M.
  assert (A <= n / d)%Z by (apply Z.div_le_lower_bound; lia).
  assert (n / d <= B)%Z by (apply Z.div_le_upper_bound; lia).
  destruct (Z.eq_dec (n / d)%Z B) as [EB|NB].
  - assert (n mod d = 0)%Z by nia.
    replace (2 * (n mod d) ?= d)%Z with Lt; [lia|]. symmetry. apply Z.compare_lt_iff. lia.
  - destruct (2 * (n mod d) ?= d)%Z; [destruct (Z.even (n / d)%Z)|..]; lia.
Qed.

(** A rounded value keeps the binary exponent of what is rounded, or is
    the next power of two. *)
Lemma binary_round_pos_bounds (p emin : Z) (x : Q) :
  (1 <= p)%Z -> 0 < x -> (emin <= exponent2 x)%Z ->
  2 ^ exponent2 x <= binary_round_pos p emin x /\
  binary_round_pos p emin x <= 2 ^ (exponent2 x + 1).
Proof.
  intros Hp Hx He. destruct (exponent2_spec x Hx) as [Hlo Hhi].
  unfold binary_round_pos. rewrite Z.max_l by exact He.
  set (e := exponent2 x) in *.
  destruct (scale2_spec x (p - 1 - e)) as [Hd Hnd].
  destruct (scale2 x (p - 1 - e)) as [n d]. cbn [fst snd] in Hd, Hnd.
  assert (inject_Z n == x * 2 ^ (p - 1 - e) * inject_Z d) as Hn.
  { rewrite <- Hnd. field. intros E. unfold Qeq in E. cbn in E. lia. }
  assert (2 ^ (p - 1) * d <= n /\ n <= 2 ^ p * d)%Z as [HA HB].
  { rewrite !Zle_Qle, !inject_Z_mult, Hn, <- !pow2_nonneg by lia. split.
    - apply Qmult_le_compat_r; [|apply Qlt_le_weak, inject_Z_pos; exact Hd].
      replace (p - 1)%Z with (e + (p - 1 - e))%Z at 1 by lia.
      rewrite pow2_plus. apply Qle_mul_pow2. exact Hlo.
    - apply Qmult_le_compat_r; [|apply Qlt_le_weak, inject_Z_pos; exact Hd].
      replace p with (e + 1 + (p - 1 - e))%Z at 2 by lia.
      rewrite pow2_plus. apply Qle_mul_pow2, Qlt_le_weak. exact Hhi. }
  destruct (round_half_even_bounds n d (2 ^ (p - 1)) (2 ^ p) Hd HA HB) as [HM1 HM2].
  rewrite of_scaled_spec. split.
  - replace e with ((p - 1) + (e - (p - 1)))%Z at 1 by lia. rewrite pow2_plus.
    apply Qle_mul_pow2. rewrite pow2_nonneg by lia. by rewrite <- Zle_Qle.
  - replace (e + 1)%Z with (p + (e - (p - 1)))%Z by lia. rewrite pow2_plus.
    apply Qle_mul_pow2. rewrite pow2_nonneg by lia. by rewrite <- Zle_Qle.
Qed.

Lemma exponent2_ge (x : Q) (e : Z) : 2 ^ e <= x -> (e <= exponent2 x)%Z.
Proof.
  intros Hx.
  assert (0 < x) as Hpos by (eapply Qlt_le_trans; [apply (pow2_gt_0 e)|exact Hx]).
  destruct (exponent2_spec x Hpos) as [_ Hhi].
  destruct (Z.le_gt_cases e (exponent2 x)) as [H|H]; [exact H|]. exfalso.
  apply (Qlt_irrefl x). eapply Qlt_le_trans; [exact Hhi|].
  eapply Qle_trans; [|exact Hx]. apply pow2_le. lia.
Qed.

Lemma exponent2_lt (x : Q) (e : Z) : 0 < x -> x < 2 ^ e -> (exponent2 x < e)%Z.
Proof.
  intros Hpos Hx. destruct (exponent2_spec x Hpos) as [Hlo _].
  destruct (Z.lt_ge_cases (exponent2 x) e) as [H|H]; [exact H|]. exfalso.
  apply (Qlt_irrefl x). eapply Qlt_le_trans; [exact Hx|].
  eapply Qle_trans; [|exact Hlo]. by apply pow2_le.
Qed.

(** In the normal range of the formats the rounding is that of
    [Number_of] and of [Math_fround]. *)
Lemma Number_of_pos_binary (x : Q) :
  (-1022 <= exponent2 x)%Z -> binary_round_pos 53 (-1022) x = Number_of_pos x.
Proof. intros He. unfold binary_round_pos, Number_of_pos. by rewrite Z.max_l by exact He. Qed.

Lemma Math_fround_pos_binary (x : Q) :
  (-126 <= exponent2 x)%Z -> binary_round_pos 24 (-126) x = Math_fround_pos x.
Proof. intros He. unfold binary_round_pos, Math_fround_pos. by rewrite Z.max_l by exact He. Qed.

Lemma Qred_neg (x : Q) (a : positive) : Qnum (Qred x) = Z.neg a -> Qred x < 0.
Proof. intros H. unfold Qlt. cbn. rewrite H. lia. Qed.

Lemma Qabs_Qred (x : Q) : Qabs (Qred x) == Qabs x.
Proof. by rewrite Qred_correct. Qed.

(** Rounding in the normal range: the result has the magnitude that the
    rounding without a range gives, between the powers of two around
    what is rounded. *)
Lemma binary_round_normal (p emin emax : Z) (x : Q) (lo hi : Z) :
  (1 <= p)%Z -> (emin <= lo)%Z -> (hi <= emax)%Z ->
  2 ^ lo <= Qabs x -> Qabs x < 2 ^ hi ->
  exists r,
    binary_round p emin emax x = Finite r /\ 2 ^ lo <= Qabs r /\ Qabs r <= 2 ^ hi /\
    match Qnum (Qred x) with
    | Z0 => False
    | Zpos _ => r = binary_round_pos p emin (Qred x)
    | Zneg _ => r = - binary_round_pos p emin (- Qred x)
    end.
Proof.
  intros Hp Hlo Hhi Hx1 Hx2. unfold binary_round. cbv zeta.
  assert (forall y, 0 < y -> 2 ^ lo <= y -> y < 2 ^ hi ->
            Qle_bool (of_scaled 1 (emax + 1)) (binary_round_pos p emin y) = false /\
            2 ^ lo <= binary_round_pos p emin y /\ binary_round_pos p emin y <= 2 ^ hi)
    as Hpos.
  { intros y Hy Hy1 Hy2. pose proof (exponent2_ge y lo Hy1) as He1.
    pose proof (exponent2_lt y hi Hy Hy2) as He2.
    destruct (binary_round_pos_bounds p emin y Hp Hy ltac:(lia)) as [Hr1 Hr2].
    assert (binary_round_pos p emin y <= 2 ^ hi) as Hr3.
    { eapply Qle_trans; [exact Hr2|]. apply pow2_le. lia. }
    split; [|split; [|exact Hr3]].
    - apply Qle_bool_false. rewrite of_scaled_spec, Qmult_1_l.
      eapply Qle_lt_trans; [exact Hr3|]. apply pow2_lt. lia.
    - eapply Qle_trans; [|exact Hr1]. by apply pow2_le. }
  rewrite <- Qabs_Qred in Hx1, Hx2.
  destruct (Qnum (Qred x)) as [|a|a] eqn:Hnum.
  - exfalso. rewrite (Qred_zero x Hnum) in Hx1. apply (Qlt_irrefl 0).
    eapply Qlt_le_trans; [apply (pow2_gt_0 lo)|exact Hx1].
  - assert (0 < Qred x) as Hy by (apply Qnum_pos; rewrite Hnum; lia).
    rewrite Qabs_pos in Hx1, Hx2 by (by apply Qlt_le_weak).
    destruct (Hpos (Qred x) Hy Hx1 Hx2) as (-> & Hr1 & Hr2).
    eexists. split; [reflexivity|].
    assert (0 <= binary_round_pos p emin (Qred x)) as Hnn.
    { eapply Qle_trans; [|exact Hr1]. apply Qlt_le_weak, pow2_gt_0. }
    rewrite Qabs_pos by exact Hnn. done.
  - pose proof (Qred_neg x a Hnum) as Hy.
    rewrite Qabs_neg in Hx1, Hx2 by (by apply Qlt_le_weak).
    assert (0 < - Qred x) as Hy'.
    { apply Qnum_pos. cbn. rewrite Hnum. lia. }
    destruct (Hpos (- Qred x) Hy' Hx1 Hx2) as (-> & Hr1 & Hr2).
    eexists. split; [reflexivity|].
    assert (0 <= binary_round_pos p emin (- Qred x)) as Hnn.
    { eapply Qle_trans; [|exact Hr1]. apply Qlt_le_weak, pow2_gt_0. }
    rewrite Qabs_opp, Qabs_pos by exact Hnn. done.
Qed.

Lemma double_round_normal (x : Q) (lo hi : Z) :
  (-1022 <= lo)%Z -> (hi <= 1023)%Z -> 2 ^ lo <= Qabs x -> Qabs x < 2 ^ hi ->
  double_round x = Finite (Number_of x) /\
  2 ^ lo <= Qabs (Number_of x) /\ Qabs (Number_of x) <= 2 ^ hi.
Proof.
  intros Hlo Hhi Hx1 Hx2.
  destruct (binary_round_normal 53 (-1022) 1023 x lo hi ltac:(lia) Hlo Hhi Hx1 Hx2)
    as (r & Hr & Hr1 & Hr2 & Hcase).
  assert (2 ^ (-1022) <= Qabs (Qred x)) as Hmin.
  { rewrite Qabs_Qred. eapply Qle_trans; [|exact Hx1]. by apply pow2_le. }
  assert (r = Number_of x) as <-; [|done].
  unfold Number_of. cbv zeta. destruct (Qnum (Qred x)) as [|a|a] eqn:Hnum; [done|..].
  - rewrite Hcase. apply Number_of_pos_binary, exponent2_ge.
    rewrite Qabs_pos in Hmin; [exact Hmin|]. apply Qlt_le_weak, Qnum_pos. rewrite Hnum. lia.
  - rewrite Hcase. f_equal. apply Number_of_pos_binary, exponent2_ge.
    rewrite Qabs_neg in Hmin; [exact Hmin|]. by apply Qlt_le_weak, (Qred_neg x a).
Qed.

Lemma float32_round_normal (x : Q) (lo hi : Z) :
  (-126 <= lo)%Z -> (hi <= 127)%Z -> 2 ^ lo <= Qabs x -> Qabs x < 2 ^ hi ->
  float32_round x = Finite (Math_fround x).
Proof.
  intros Hlo Hhi Hx1 Hx2.
  destruct (binary_round_normal 24 (-126) 127 x lo hi ltac:(lia) Hlo Hhi Hx1 Hx2)
    as (r & Hr & Hr1 & Hr2 & Hcase).
  assert (2 ^ (-126) <= Qabs (Qred x)) as Hmin.
  { rewrite Qabs_Qred. eapply Qle_trans; [|exact Hx1]. by apply pow2_le. }
  assert (r = Math_fround x) as <-; [|done].
  unfold Math_fround. cbv zeta. destruct (Qnum (Qred x)) as [|a|a] eqn:Hnum; [done|..].
  - rewrite Hcase. apply Math_fround_pos_binary, exponent2_ge.
    rewrite Qabs_pos in Hmin; [exact Hmin|]. apply Qlt_le_weak, Qnum_pos. rewrite Hnum. lia.
  - rewrite Hcase. f_equal. apply Math_fround_pos_binary, exponent2_ge.
    rewrite Qabs_neg in Hmin; [exact Hmin|]. by apply Qlt_le_weak, (Qred_neg x a).
Qed.

(** For such a product [vec3.multiply] stores what [vec3_multiply32]
    computes. *)
Lemma multiply32_in_range (a b : Q) :
  in_float32_range (a * b) ->
  Float32_store (double_mul (Finite a) (Finite b)) = Finite (Math_fround (Number_mul a b)).
Proof.
  intros [Hz|[Hlo Hhi]]; cbn [double_mul]; unfold Number_mul.
  - unfold double_round. rewrite (binary_round_comp _ _ _ _ _ Hz), (Number_of_comp _ _ Hz).
    reflexivity.
  - destruct (double_round_normal (a * b) (-126) 126 ltac:(lia) ltac:(lia) Hlo Hhi)
      as (-> & Hy1 & Hy2).
    cbn [Float32_store]. apply (float32_round_normal _ (-126) 127); [lia|lia|exact Hy1|].
    eapply Qle_lt_trans; [exact Hy2|]. by apply pow2_lt.
Qed.

End Binary.

(** *** Properties of [Headers] *)

Lemma same_name_spec (a b : string) :
  same_name a b = true <-> toLowerCase a = toLowerCase b.
Proof. unfold same_name. by rewrite bool_decide_eq_true. Qed.

Lemma header_values_delete_same (h : Headers) (name name' : string) :
  same_name name name' = true -> header_values (header_list_delete h name) name' = [].
Proof.
  rewrite same_name_spec. intros E. unfold header_values, header_list_delete.
  induction h as [|p h IH]; [reflexivity|].
  destruct (same_name p.1 name) eqn:Hp.
  - by rewrite filter_cons_False by (by rewrite Hp).
  - rewrite filter_cons_True by done. rewrite filter_cons_False; [exact IH|].
    rewrite same_name_spec. rewrite <- E. intros E'. apply same_name_spec in E'. congruence.
Qed.

Lemma header_values_delete_other (h : Headers) (name name' : string) :
  same_name name name' = false ->
  header_values (header_list_delete h name) name' = header_values h name'.
Proof.
  intros E. unfold header_values, header_list_delete.
  induction h as [|p h IH]; [reflexivity|].
  destruct (same_name p.1 name) eqn:Hp.
  - rewrite filter_cons_False by (by rewrite Hp). rewrite IH.
    rewrite (filter_cons_False _ p); [reflexivity|].
    rewrite same_name_spec. intros E'. apply same_name_spec in Hp.
    rewrite Hp in E'. apply same_name_spec in E'. congruence.
  - rewrite filter_cons_True by done.
    destruct (same_name p.1 name') eqn:Hp'.
    + rewrite !filter_cons_True by done. cbn. by rewrite IH.
    + rewrite !filter_cons_False by (by rewrite Hp'). exact IH.
Qed.

(** After [set], the name has the one value; the values of every other
    name are as before. *)
Lemma header_values_set (h : Headers) (name value name' : string) :
  header_values (header_list_set h name value) name' =
    if same_name name name' then [value] else header_values h name'.
Proof.
  induction h as [|p h IH]; cbn [header_list_set].
  - unfold header_values. destruct (same_name name name') eqn:E.
    + by rewrite filter_cons_True.
    + by rewrite filter_cons_False by (cbn; by rewrite E).
  - destruct (same_name p.1 name) eqn:Hp.
    + apply same_name_spec in Hp. destruct (same_name name name') eqn:E.
      * pose proof (header_values_delete_same h name name' E) as Hd.
        unfold header_values in *. rewrite filter_cons_True; [cbn; by rewrite Hd|].
        cbn. apply same_name_spec. apply same_name_spec in E. congruence.
      * pose proof (header_values_delete_other h name name' E) as Hd.
        assert (same_name p.1 name' = false) as Hp'.
        { apply not_true_iff_false. rewrite same_name_spec, Hp, <- same_name_spec. congruence. }
        unfold header_values in *.
        rewrite !filter_cons_False by (cbn; by rewrite Hp'). exact Hd.
    + destruct (same_name name name') eqn:E.
      * assert (same_name p.1 name' = false) as Hp'.
        { apply not_true_iff_false. apply same_name_spec in E.
          rewrite same_name_spec, <- E, <- same_name_spec. congruence. }
        unfold header_values in *. rewrite filter_cons_False by (by rewrite Hp'). exact IH.
      * unfold header_values in *. destruct (same_name p.1 name') eqn:Hp'.
        -- rewrite !filter_cons_True by done. cbn. by rewrite IH.
        -- rewrite !filter_cons_False by (by rewrite Hp'). exact IH.
Qed.

Lemma header_list_get_set (h : Headers) (name value name' : string) :
  header_list_get (header_list_set h name value) name' =
    if same_name name name' then Some value else header_list_get h name'.
Proof.
  unfold header_list_get. rewrite header_values_set. by destruct (same_name name name').
Qed.

Lemma every_strip_trailing (P : ascii -> bool) (s : string) :
  every P s = true -> every P (strip_trailing s) = true.
Proof.
  induction s as [|c s IH]; [done|]. cbn [every strip_trailing].
  intros [Hc Hs]%andb_true_iff. specialize (IH Hs).
  destruct (strip_trailing s) as [|d t].
  - destruct (is_http_whitespace c); [done|]. cbn. by rewrite Hc.
  - cbn [every] in *. by rewrite Hc.
Qed.

(** What [strip_trailing] leaves does not end in whitespace. *)
Lemma last_char_strip_trailing (s : string) :
  from_option is_http_whitespace false (last_char (strip_trailing s)) = false.
Proof.
  induction s as [|c s IH]; [done|]. cbn [strip_trailing].
  destruct (strip_trailing s) as [|d t].
  - by destruct (is_http_whitespace c) eqn:Hc.
  - exact IH.
Qed.

Lemma first_char_strip_trailing (c : ascii) (s : string) :
  is_http_whitespace c = false -> first_char (strip_trailing (String c s)) = Some c.
Proof.
  intros Hc. cbn [strip_trailing]. rewrite Hc. by destruct (strip_trailing s).
Qed.

Lemma is_http_tab_or_space_whitespace (c : ascii) :
  is_http_whitespace c = false -> is_http_tab_or_space c = false.
Proof.
  unfold is_http_whitespace, is_http_tab_or_space.
  destruct (nat_of_ascii c =? 9)%nat, (nat_of_ascii c =? 32)%nat; cbn; try done.
  by rewrite orb_true_r.
Qed.

(** A string that starts with something other than whitespace, stripped
    at its end, is a header value when it holds no NUL and no newline. *)
Lemma is_header_value_strip_trailing (c : ascii) (s : string) :
  is_http_whitespace c = false ->
  every (fun c => negb (is_NUL_or_newline c)) (String c s) = true ->
  is_header_value (strip_trailing (String c s)) = true.
Proof.
  intros Hc Hs. unfold is_header_value.
  rewrite first_char_strip_trailing by done. cbn [from_option].
  rewrite (is_http_tab_or_space_whitespace c Hc). cbn [negb andb].
  rewrite every_strip_trailing by done. rewrite andb_true_r.
  pose proof (last_char_strip_trailing (String c s)) as Hl.
  destruct (last_char (strip_trailing (String c s))) as [d|]; [|done].
  cbn in *. by rewrite is_http_tab_or_space_whitespace.
Qed.

(** Nothing is stripped from a string that ends in something other than
    whitespace. *)
Lemma strip_trailing_app (a b : string) :
  b <> EmptyString -> strip_trailing b = b -> strip_trailing (a +:+ b) = a +:+ b.
Proof.
  intros Hb E. induction a as [|c a IH]; [exact E|].
  change (String c a +:+ b) with (String c (a +:+ b)). cbn [strip_trailing]. rewrite IH.
  destruct (a +:+ b) eqn:Hab; [|reflexivity].
  destruct a; [|discriminate]. by destruct b.
Qed.

End Js.

Import Js.

(** ** [datasource/dvid/api.ts] *)

Module DvidApi.

Definition DVIDToken : Type := string.

(** A [RequestInit] object: its own properties by name. *)
Abbreviation RequestInit := (gmap string InitValue).

(** The two answers of the error handler that ask for another attempt. *)
Inductive ErrorAction : Type :=
| refresh
| retry.

(** The [credentials => ...] argument of [fetchWithDVIDCredentials]. *)
Definition applyCredentials (input : string) (init : RequestInit)
    (credentials : DVIDToken) : Result RequestInit :=
  headers ← new_Headers (init !! "headers");
  headers ←
    (if startsWith input "https" then
       headers ← Headers_set headers "Authorization" ("Bearer " +:+ credentials);
       Headers_set headers "Access-Control-Allow-Origin" "*"
     else Ok headers);
  Ok (<["headers" := InitHeaders headers]> init).

(** The [error => ...] argument of [fetchWithDVIDCredentials]. *)
Definition errorHandler (error : Error) : Result ErrorAction :=
  let status := status error in
  if bool_decide (status = Some 403%Z ∨ status = Some 401%Z) then
    Ok refresh
  else if bool_decide (status = Some 504%Z) then
    Ok retry
  else Throw error.

Section Fetch.
(** [fetchWithCredentials] of [credentials_provider/http_request] is
    imported, not defined here: it is a parameter. *)
Context {CredentialsProvider ResponseTransform CancellationToken Promise : Type}.
Variable fetchWithCredentials :
  CredentialsProvider -> string -> RequestInit -> ResponseTransform ->
  (DVIDToken -> Result RequestInit) -> (Error -> Result ErrorAction) ->
  CancellationToken -> Promise.

Definition fetchWithDVIDCredentials (credentialsProvider : CredentialsProvider)
    (input : string) (init : RequestInit) (transformResponse : ResponseTransform)
    (cancellationToken : CancellationToken) : Promise :=
  fetchWithCredentials credentialsProvider input init transformResponse
    (applyCredentials input init) errorHandler cancellationToken.
End Fetch.

(** *** [DVIDInstance], [makeRequest] and [makeRequestWithCredentials] *)

(** [HttpCall]: the method, the path below the node and the payload. *)
Inductive Method : Type :=
| GET
| POST
| DELETE.

Definition Method_toString (m : Method) : string :=
  match m with GET => "GET" | POST => "POST" | DELETE => "DELETE" end.

(** [XMLHttpRequestResponseType] *)
Inductive XMLHttpRequestResponseType : Type :=
| rt_empty
| rt_arraybuffer
| rt_blob
| rt_document
| rt_json
| rt_text.

Record HttpCall := {
  method : Method;
  path : string;
  payload : option string;
  responseType : XMLHttpRequestResponseType;
}.

Record DVIDInstance := {
  baseUrl : string;
  nodeKey : string;
}.

Definition getNodeApiUrl (this : DVIDInstance) : string :=
  baseUrl this +:+ "/api/node/" +:+ nodeKey this.

(** The response transforms: [responseText] of this file, [responseJson]
    and [responseArrayBuffer] of [util/http_request]. *)
Inductive ResponseFunction : Type :=
| responseText
| responseJson
| responseArrayBuffer.

(** [{ method: httpCall.method, body: httpCall.payload }]; a property
    whose value is [undefined] reads like one that is absent. *)
Definition request_init (httpCall : HttpCall) : RequestInit :=
  let init : RequestInit := {[ "method" := InitString (Method_toString (method httpCall)) ]} in
  match payload httpCall with
  | Some body => <["body" := InitString body]> init
  | None => init
  end.

Section Requests.
(** [cancellableFetchOk] of [util/http_request] and [fetchWithCredentials]
    are imported: they are parameters. *)
Context {CredentialsProvider CancellationToken Promise : Type}.
Variable cancellableFetchOk :
  string -> RequestInit -> ResponseFunction -> CancellationToken -> Promise.
Variable fetchWithCredentials :
  CredentialsProvider -> string -> RequestInit -> ResponseFunction ->
  (DVIDToken -> Result RequestInit) -> (Error -> Result ErrorAction) ->
  CancellationToken -> Promise.

Definition makeRequest (instance : DVIDInstance) (httpCall : HttpCall)
    (cancellationToken : CancellationToken) : Promise :=
  let requestInfo := getNodeApiUrl instance +:+ path httpCall in
  let init := request_init httpCall in
  match responseType httpCall with
  | rt_empty => cancellableFetchOk requestInfo init responseText cancellationToken
  | _ => cancellableFetchOk requestInfo init responseJson cancellationToken
  end.

Definition makeRequestWithCredentials (instance : DVIDInstance)
    (credentialsProvider : CredentialsProvider) (httpCall : HttpCall)
    (cancellationToken : CancellationToken) : Promise :=
  fetchWithDVIDCredentials fetchWithCredentials credentialsProvider
    (getNodeApiUrl instance +:+ path httpCall)
    (request_init httpCall)
    (match responseType httpCall with
     | rt_empty => responseText
     | rt_json => responseJson
     | _ => responseArrayBuffer
     end)
    cancellationToken.
End Requests.

(** *** Properties *)

(** C1.  The error handler of [fetchWithDVIDCredentials] answers
    ['refresh'] exactly for the statuses 401 and 403, ['retry'] exactly for
    the status 504, and throws in every other case; what it throws is the
    error it was given, unchanged. *)
Theorem errorHandler_classifies (error : Error) :
  (errorHandler error = Ok refresh <->
     status error = Some 401%Z \/ status error = Some 403%Z) /\
  (errorHandler error = Ok retry <-> status error = Some 504%Z) /\
  ((exists e, errorHandler error = Throw e) <->
     ~ (status error = Some 401%Z \/ status error = Some 403%Z \/
        status error = Some 504%Z)) /\
  (forall e, errorHandler error = Throw e -> e = error).
Proof.
  unfold errorHandler; cbn zeta.
  repeat case_bool_decide; repeat split; intros;
    repeat match goal with
           | H : exists _, _ |- _ => destruct H
           | H : _ \/ _ |- _ => destruct H
           end;
    try congruence; try tauto; eauto.
Qed.

(** The handler at the four kinds of error a request meets. *)
Example errorHandler_samples :
  errorHandler (mkError "Unauthorized" (Some 401%Z)) = Ok refresh /\
  errorHandler (mkError "Forbidden" (Some 403%Z)) = Ok refresh /\
  errorHandler (mkError "Gateway Timeout" (Some 504%Z)) = Ok retry /\
  errorHandler (mkError "Not Found" (Some 404%Z)) = Throw (mkError "Not Found" (Some 404%Z)) /\
  errorHandler (new_Error "network") = Throw (new_Error "network").
Proof. repeat split. Qed.

(** When [new Headers] rejects the caller's headers, or [set] the
    value, no init is produced. *)
Lemma applyCredentials_throws (input : string) (init : RequestInit)
    (credentials : DVIDToken) :
  (forall e, new_Headers (init !! "headers") = Throw e ->
     applyCredentials input init credentials = Throw e) /\
  (forall before, new_Headers (init !! "headers") = Ok before ->
     startsWith input "https" = true ->
     is_header_value (normalize_value ("Bearer " +:+ credentials)) = false ->
     applyCredentials input init credentials = Throw TypeError).
Proof.
  unfold applyCredentials. split.
  - by intros e ->.
  - intros before -> -> Hv. cbn. unfold Headers_set at 2. rewrite Hv. reflexivity.
Qed.

(** C6.  The request init handed to [fetch], when [new Headers] accepts
    the caller's headers, for a token of code units below 256.  For a URL
    that starts with [https] the value set for [Authorization] is
    [Bearer <token>] without the whitespace at its end.  When that value is a header value (it is one for every
    token that holds no NUL, line feed or carriage return) the headers
    hold it for [Authorization], [*] for [Access-Control-Allow-Origin],
    and agree with the caller's headers on every other name; the value is
    [Bearer <token>] itself for a token that is not empty and does not
    end in whitespace.  When it is not a header value, the call throws a
    [TypeError].  For any other URL the headers are the caller's, with
    nothing attached.  Every field of the init other than [headers] is
    passed through unchanged. *)
Theorem applyCredentials_headers (input : string) (init : RequestInit)
    (credentials : DVIDToken) (before : Headers) :
  new_Headers (init !! "headers") = Ok before ->
  (startsWith input "https" = true ->
   is_header_value (normalize_value ("Bearer " +:+ credentials)) = true ->
   exists result after,
     applyCredentials input init credentials = Ok result /\
     result !! "headers" = Some (InitHeaders after) /\
     Headers_get after "Authorization" =
       Ok (Some (normalize_value ("Bearer " +:+ credentials))) /\
     Headers_get after "Access-Control-Allow-Origin" = Ok (Some "*") /\
     (forall name,
        toLowerCase name <> "authorization" ->
        toLowerCase name <> "access-control-allow-origin" ->
        Headers_get after name = Headers_get before name) /\
     (forall field, field <> "headers" -> result !! field = init !! field)) /\
  (startsWith input "https" = true ->
   is_header_value (normalize_value ("Bearer " +:+ credentials)) = false ->
   applyCredentials input init credentials = Throw TypeError) /\
  (startsWith input "https" = false ->
   exists result,
     applyCredentials input init credentials = Ok result /\
     result !! "headers" = Some (InitHeaders before) /\
     (forall field, field <> "headers" -> result !! field = init !! field)) /\
  (every (fun c => negb (is_NUL_or_newline c)) credentials = true ->
   is_header_value (normalize_value ("Bearer " +:+ credentials)) = true) /\
  (credentials <> EmptyString -> strip_trailing credentials = credentials ->
   normalize_value ("Bearer " +:+ credentials) = "Bearer " +:+ credentials).
Proof.
  intros Hbefore. split; [|split; [|split; [|split]]].
  - intros Hs Hv. unfold applyCredentials. rewrite Hbefore, Hs. cbn.
    unfold Headers_set at 2. rewrite Hv. cbn.
    do 2 eexists. split; [reflexivity|]. split; [apply lookup_insert_eq|].
    unfold Headers_get. split; [|split; [|split]].
    + cbn [is_header_name every]. rewrite !header_list_get_set. reflexivity.
    + rewrite header_list_get_set. reflexivity.
    + intros name Ha Hc. destruct (is_header_name name); [|reflexivity].
      rewrite !header_list_get_set.
      assert (same_name "Access-Control-Allow-Origin" name = false) as ->.
      { apply not_true_iff_false. rewrite same_name_spec. intros E. by apply Hc. }
      assert (same_name "Authorization" name = false) as ->.
      { apply not_true_iff_false. rewrite same_name_spec. intros E. by apply Ha. }
      reflexivity.
    + intros field Hfield. by rewrite lookup_insert_ne.
  - intros Hs Hv. by apply (applyCredentials_throws input init credentials) with before.
  - intros Hs. unfold applyCredentials. rewrite Hbefore, Hs. cbn.
    eexists. split; [reflexivity|]. split; [apply lookup_insert_eq|].
    intros field Hfield. by rewrite lookup_insert_ne.
  - intros Hc. apply (is_header_value_strip_trailing "B"); [reflexivity|exact Hc].
  - intros Hne He. apply (strip_trailing_app "Bearer " credentials Hne He).
Qed.

(** A DVID request over https with a token of letters. *)
Lemma applyCredentials_headers_example :
  (startsWith "https://emdata.example/api/node/ab/x" "https" = true ->
   is_header_value (normalize_value ("Bearer " +:+ "tok")) = true ->
   exists result after,
     applyCredentials "https://emdata.example/api/node/ab/x"
       {[ "method" := InitString "GET" ]} "tok" = Ok result /\
     result !! "headers" = Some (InitHeaders after) /\
     Headers_get after "Authorization" = Ok (Some (normalize_value ("Bearer " +:+ "tok"))) /\
     Headers_get after "Access-Control-Allow-Origin" = Ok (Some "*") /\
     (forall name,
        toLowerCase name <> "authorization" ->
        toLowerCase name <> "access-control-allow-origin" ->
        Headers_get after name = Headers_get [] name) /\
     (forall field, field <> "headers" ->
        result !! field = ({[ "method" := InitString "GET" ]} : RequestInit) !! field)) /\
  (startsWith "https://emdata.example/api/node/ab/x" "https" = true ->
   is_header_value (normalize_value ("Bearer " +:+ "tok")) = false ->
   applyCredentials "https://emdata.example/api/node/ab/x"
     {[ "method" := InitString "GET" ]} "tok" = Throw TypeError) /\
  (startsWith "https://emdata.example/api/node/ab/x" "https" = false ->
   exists result,
     applyCredentials "https://emdata.example/api/node/ab/x"
       {[ "method" := InitString "GET" ]} "tok" = Ok result /\
     result !! "headers" = Some (InitHeaders []) /\
     (forall field, field <> "headers" ->
        result !! field = ({[ "method" := InitString "GET" ]} : RequestInit) !! field)) /\
  (every (fun c => negb (is_NUL_or_newline c)) "tok" = true ->
   is_header_value (normalize_value ("Bearer " +:+ "tok")) = true) /\
  ("tok" <> EmptyString -> strip_trailing "tok" = "tok" ->
   normalize_value ("Bearer " +:+ "tok") = "Bearer " +:+ "tok").
Proof.
  apply (applyCredentials_headers "https://emdata.example/api/node/ab/x"
           {[ "method" := InitString "GET" ]} "tok" []).
  reflexivity.
Defined.

(** A token with a line feed inside it makes [set] throw, so that no
    init is produced and no header attached; for the empty token the
    value of [Authorization] is [Bearer], without the space. *)
Lemma applyCredentials_rejects_token :
  startsWith "https://emdata.example/api/node/ab/x" "https" = true /\
  applyCredentials "https://emdata.example/api/node/ab/x"
    {[ "method" := InitString "GET" ]}
    (String "a" (String "010" (String "b" EmptyString))) = Throw TypeError /\
  ~ (exists result after,
       applyCredentials "https://emdata.example/api/node/ab/x"
         {[ "method" := InitString "GET" ]}
         (String "a" (String "010" (String "b" EmptyString))) = Ok result /\
       result !! "headers" = Some (InitHeaders after) /\
       Headers_get after "Authorization" =
         Ok (Some ("Bearer " +:+ String "a" (String "010" (String "b" EmptyString)))) /\
       Headers_get after "Access-Control-Allow-Origin" = Ok (Some "*")) /\
  (exists result,
     applyCredentials "https://emdata.example/api/node/ab/x"
       {[ "method" := InitString "GET" ]} EmptyString = Ok result /\
     result !! "headers" =
       Some (InitHeaders [("Authorization", "Bearer"); ("Access-Control-Allow-Origin", "*")]) /\
     Headers_get [("Authorization", "Bearer"); ("Access-Control-Allow-Origin", "*")]
       "Authorization" = Ok (Some "Bearer") /\
     "Bearer" <> "Bearer " +:+ EmptyString).
Proof.
  split; [reflexivity|]. split; [reflexivity|]. split.
  - intros (result & after & E & _). discriminate E.
  - eexists. split; [reflexivity|]. split; [reflexivity|]. split; [reflexivity|]. discriminate.
Qed.

(** A DVID request over https and the same request over http. *)
Example applyCredentials_samples :
  applyCredentials "https://emdata.example/api/node/ab/x"
      {[ "method" := InitString "GET" ]} "tok" =
    Ok {[ "method" := InitString "GET";
          "headers" := InitHeaders [("Authorization", "Bearer tok");
                                    ("Access-Control-Allow-Origin", "*")] ]} /\
  applyCredentials "http://emdata.example/api/node/ab/x"
      {[ "method" := InitString "GET" ]} "tok" =
    Ok {[ "method" := InitString "GET"; "headers" := InitHeaders [] ]} /\
  applyCredentials "https://emdata.example/api/node/ab/x"
      {[ "headers" := InitPairs [("authorization", "Basic abc"); ("Accept", "text/plain")] ]}
      "tok" =
    Ok {[ "headers" := InitHeaders [("authorization", "Bearer tok"); ("Accept", "text/plain");
                                    ("Access-Control-Allow-Origin", "*")] ]} /\
  applyCredentials "http://emdata.example/api/node/ab/x"
      {[ "headers" := InitString "Accept: text/plain" ]} "tok" = Throw TypeError.
Proof. repeat split; apply bool_decide_eq_true_1; vm_compute; reflexivity. Qed.

(** X1.  Whatever the imported fetch functions are: [makeRequest] and
    [makeRequestWithCredentials] address the same URL,
    [baseUrl/api/node/nodeKey] followed by the path of the call, with the
    same init.  [makeRequest] reads the response as text for the response
    type [''] and as JSON for every other one, ['arraybuffer'] included:
    it never selects [responseArrayBuffer].  [makeRequestWithCredentials]
    selects [responseArrayBuffer] for every response type other than ['']
    and ['json'], so the two agree on the transform exactly for those
    two. *)
Theorem makeRequest_transform
    {CredentialsProvider CancellationToken Promise : Type}
    (cancellableFetchOk : string -> RequestInit -> ResponseFunction -> CancellationToken -> Promise)
    (fetchWithCredentials :
       CredentialsProvider -> string -> RequestInit -> ResponseFunction ->
       (DVIDToken -> Result RequestInit) -> (Error -> Result ErrorAction) ->
       CancellationToken -> Promise)
    (instance : DVIDInstance) (credentialsProvider : CredentialsProvider)
    (httpCall : HttpCall) (cancellationToken : CancellationToken) :
  let url := baseUrl instance +:+ "/api/node/" +:+ nodeKey instance +:+ path httpCall in
  exists plain withCredentials : ResponseFunction,
    makeRequest cancellableFetchOk instance httpCall cancellationToken =
      cancellableFetchOk url (request_init httpCall) plain cancellationToken /\
    makeRequestWithCredentials fetchWithCredentials instance credentialsProvider httpCall
        cancellationToken =
      fetchWithCredentials credentialsProvider url (request_init httpCall) withCredentials
        (applyCredentials url (request_init httpCall)) errorHandler cancellationToken /\
    plain <> responseArrayBuffer /\
    (plain = responseText <-> responseType httpCall = rt_empty) /\
    (withCredentials = responseArrayBuffer <->
       responseType httpCall <> rt_empty /\ responseType httpCall <> rt_json) /\
    (plain = withCredentials <->
       responseType httpCall = rt_empty \/ responseType httpCall = rt_json).
Proof.
  intros url.
  assert (getNodeApiUrl instance +:+ path httpCall = url) as Hurl.
  { unfold getNodeApiUrl, url. by rewrite !append_assoc. }
  unfold makeRequest, makeRequestWithCredentials, fetchWithDVIDCredentials. rewrite Hurl.
  destruct (responseType httpCall); do 2 eexists;
    (split; [reflexivity|]); (split; [reflexivity|]);
    repeat split; try discriminate; try tauto; try (intros [? ?]; congruence);
    try (intros [?|?]; congruence); eauto.
Qed.

(** X2.  What [makeRequestWithCredentials] hands to [fetch] once the
    token, of code units below 256, is known.  Whether the token is attached is decided by the
    instance's [baseUrl] alone, not by the node key or the path.  For a
    base URL that starts with [https] the headers are exactly
    [Authorization], with the value [Bearer <token>] without the
    whitespace at its end, and [Access-Control-Allow-Origin: *], when
    that value is a header value; when it is not, the call throws a
    [TypeError].  For any other base URL there are no headers.  The
    method and the payload of the call arrive unchanged. *)
Theorem makeRequestWithCredentials_init (instance : DVIDInstance) (httpCall : HttpCall)
    (credentials : DVIDToken) :
  let input := getNodeApiUrl instance +:+ path httpCall in
  let sent := applyCredentials input (request_init httpCall) credentials in
  let value := normalize_value ("Bearer " +:+ credentials) in
  startsWith input "https" = startsWith (baseUrl instance) "https" /\
  sent =
    (if startsWith (baseUrl instance) "https" then
       if is_header_value value then
         Ok (<["headers" := InitHeaders [("Authorization", value);
                                          ("Access-Control-Allow-Origin", "*")]]>
               (request_init httpCall))
       else Throw TypeError
     else Ok (<["headers" := InitHeaders []]> (request_init httpCall))) /\
  request_init httpCall !! "headers" = None /\
  request_init httpCall !! "method" = Some (InitString (Method_toString (method httpCall))) /\
  request_init httpCall !! "body" = InitString <$> payload httpCall /\
  (forall field, field ∉ ["headers"; "method"; "body"] ->
     request_init httpCall !! field = None) /\
  (every (fun c => negb (is_NUL_or_newline c)) credentials = true ->
   is_header_value value = true) /\
  (credentials <> EmptyString -> strip_trailing credentials = credentials ->
   value = "Bearer " +:+ credentials).
Proof.
  intros input sent value.
  assert (startsWith input "https" = startsWith (baseUrl instance) "https") as Hs.
  { unfold input, getNodeApiUrl. rewrite !append_assoc.
    apply (startsWith_before_separator "/" "https"). reflexivity. }
  assert (request_init httpCall !! "headers" = None) as Hh.
  { unfold request_init. destruct (payload httpCall); by simplify_map_eq. }
  split; [exact Hs|]. split.
  { subst sent. unfold applyCredentials. rewrite Hs, Hh. cbn [new_Headers].
    destruct (startsWith (baseUrl instance) "https"); [|reflexivity].
    cbn. unfold Headers_set at 2. fold value. cbn [is_header_name every andb].
    change (is_tchar _ && _) with true. cbn [andb].
    destruct (is_header_value value); reflexivity. }
  split; [exact Hh|]. split; [|split; [|split; [|split]]].
  - unfold request_init. destruct (payload httpCall); by simplify_map_eq.
  - unfold request_init. destruct (payload httpCall); by simplify_map_eq.
  - intros field Hf.
    assert (field <> "method") by (intros ->; apply Hf; set_solver).
    assert (field <> "body") by (intros ->; apply Hf; set_solver).
    unfold request_init. destruct (payload httpCall); by simplify_map_eq.
  - intros Hc. apply (is_header_value_strip_trailing "B"); [reflexivity|exact Hc].
  - intros Hne He. apply (strip_trailing_app "Bearer " credentials Hne He).
Qed.

Example makeRequestWithCredentials_samples :
  getNodeApiUrl {| baseUrl := "https://emdata.example"; nodeKey := "ab12" |} +:+
      "/segmentation/label/12" =
    "https://emdata.example/api/node/ab12/segmentation/label/12" /\
  applyCredentials
      (getNodeApiUrl {| baseUrl := "https://emdata.example"; nodeKey := "ab12" |} +:+
         "/segmentation/label/12")
      (request_init {| method := POST; path := "/segmentation/label/12";
                       payload := Some "[]"; responseType := rt_json |}) "tok" =
    Ok {[ "method" := InitString "POST"; "body" := InitString "[]";
          "headers" := InitHeaders [("Authorization", "Bearer tok");
                                    ("Access-Control-Allow-Origin", "*")] ]} /\
  applyCredentials
      (getNodeApiUrl {| baseUrl := "http://emdata.example"; nodeKey := "https" |} +:+
         "/segmentation/label/12")
      (request_init {| method := POST; path := "/segmentation/label/12";
                       payload := Some "[]"; responseType := rt_json |}) "tok" =
    Ok {[ "method" := InitString "POST"; "body" := InitString "[]";
          "headers" := InitHeaders [] ]}.
Proof. repeat split; apply bool_decide_eq_true_1; vm_compute; reflexivity. Qed.

End DvidApi.

(** ** [datasource/dvid/frontend.ts] *)

Module DvidFrontend.

(** [JSON.stringify] is a built-in; only the fact that it is a function of
    its argument is used. *)
Class JsBuiltins := { JSON_stringify : json -> string }.

(** The functions imported from [neuroglancer/util/json].  They are not
    part of the sources at hand, so the parsers below take them as
    parameters; [out] arguments of length three are [vec3]. *)
Class UtilJson := {
  stableStringify : json -> string;
  verifyObject : json -> Result json;
  verifyObjectProperty : forall {T}, json -> string -> (json -> Result T) -> Result T;
  verifyString : json -> Result string;
  verifyInt : json -> Result Q;
  verifyPositiveInt : json -> Result Q;
  verifyFinitePositiveFloat : json -> Result Q;
  verifyMapKey : forall {U}, json -> Map U -> Result U;
  parseArray : forall {T}, json -> (json -> Result T) -> Result (list T);
  parseIntVec : vec3 -> json -> Result vec3;
  parseFixedLengthArray : vec3 -> json -> (json -> Result Q) -> Result vec3;
  verifyObjectAsMap : forall {T}, json -> (json -> Result T) -> Result (Map T);
}.

Inductive DataType := UINT8 | UINT32 | UINT64.
Inductive VolumeType := IMAGE | SEGMENTATION.
Inductive TileEncoding := JPEG.

Definition serverDataTypes : Map DataType :=
  Map_set (Map_set (Map_set [] "uint8" UINT8) "uint32" UINT32) "uint64" UINT64.

Record DataInstanceBaseInfo := { base_obj : json }.

Definition typeName (b : DataInstanceBaseInfo) : json :=
  get_property (base_obj b) "TypeName".

Definition new_DataInstanceBaseInfo `{UtilJson} (obj : json) : Result DataInstanceBaseInfo :=
  _ ← verifyObject obj;
  _ ← verifyObjectProperty obj "TypeName" verifyString;
  Ok {| base_obj := obj |}.

Record VolumeChunkSourceParameters := {
  baseUrls : list string;
  nodeKey : string;
  dataInstanceKey : string;
  level2 : string;
}.

(** [VolumeChunkSpecification] of [sliceview/base]: the constructor
    arguments, in order; the chunk layout is given by its size.  The
    layout and the bounds are [Float32Array]s that [getSources] fills;
    [V] is the type of their contents: [Float32Array3] for the volume
    sources, whose resolution grows with the level until it leaves the
    range of a 32-bit float, and [vec3] for the tile sources. *)
Record VolumeChunkSpecification {V : Type} := {
  chunkLayout : V;
  chunkDataSize : vec3;
  spec_numChannels : Z;
  spec_dataType : DataType;
  lowerVoxelBound : V;
  upperVoxelBound : V;
}.
Global Arguments VolumeChunkSpecification : clear implicits.

Record VolumeChunkSource := {
  spec : VolumeChunkSpecification Float32Array3;
  parameters : VolumeChunkSourceParameters;
}.

Record VolumeDataInstanceInfo := {
  vol_obj : json;
  vol_name : string;
  vol_base : DataInstanceBaseInfo;
  volumeType : VolumeType;
  dataType : DataType;
  vol_lowerVoxelBound : vec3;
  vol_upperVoxelBound : vec3;
  voxelSize : vec3;
  numChannels : Z;
  numLevels : nat;
}.

(** The [while (true)] loop of the constructor: count the keys
    [name_1], [name_2], ... that are present, starting from [numLevels].
    The loop leaves at the first absent key; [fuel] bounds the iterations
    (see [countLevels_exits]). *)
Fixpoint countLevels (keyset : gset string) (name : string) (fuel numLevels : nat) : nat :=
  match fuel with
  | O => numLevels
  | S fuel' =>
      if bool_decide (name +:+ "_" +:+ decimal (Z.of_nat numLevels) ∈ keyset)
      then countLevels keyset name fuel' (numLevels + 1)
      else numLevels
  end.

Definition new_VolumeDataInstanceInfo `{UtilJson} (obj : json) (name : string)
    (base : DataInstanceBaseInfo) (volumeType : VolumeType) (keys : list string)
    : Result VolumeDataInstanceInfo :=
  extended ← verifyObjectProperty obj "Extended" verifyObject;
  extendedValues ← verifyObjectProperty extended "Values" (fun x => parseArray x verifyObject);
  match extendedValues with
  | [] =>
      Throw (new_Error
        "Expected Extended.Values property to have length >= 1, but received: ${JSON.stringify(extendedValues)}.")
  | extendedValues0 :: _ =>
      let keyset : gset string := list_to_set keys in
      let numLevels := countLevels keyset name (S (length keys)) 1 in
      dataType ← verifyObjectProperty extendedValues0 "DataType"
                   (fun x => verifyMapKey x serverDataTypes);
      lowerVoxelBound ← verifyObjectProperty extended "MinPoint"
                          (fun x => parseIntVec vec3_create x);
      upperVoxelBound ← verifyObjectProperty extended "MaxPoint"
                          (fun x => parseIntVec vec3_create x);
      voxelSize ← verifyObjectProperty extended "VoxelSize"
                    (fun x => parseFixedLengthArray vec3_create x verifyFinitePositiveFloat);
      Ok {| vol_obj := obj; vol_name := name; vol_base := base;
            volumeType := volumeType; dataType := dataType;
            vol_lowerVoxelBound := lowerVoxelBound;
            vol_upperVoxelBound := upperVoxelBound;
            voxelSize := voxelSize; numChannels := 1; numLevels := numLevels |}
  end.

(** One turn of the [for (level ...)] loop of [getSources]: the
    alternatives pushed for [level].  The chunk manager hands back the
    source its factory argument builds (unless one is already registered
    under the same key); that source is what is modelled.  The
    arithmetic is the code's: Numbers with the range of IEEE 754, and a
    32-bit float kept by every store into a [Float32Array], so that the
    resolution of a level is [Infinity] once it reaches [2^128]. *)
Definition getSources_level (this : VolumeDataInstanceInfo)
    (parameters : VolumeChunkSourceParameters) (level : nat) : list VolumeChunkSource :=
  let voxelSize := Float32Array3_of (vec3_clone (voxelSize this)) in
  let chunkDataSize := vec3_fromValues 64 64 64 in
  let voxelSize :=
    Float32Array3_set voxelSize 0
      (double_mul (Float32Array3_get voxelSize 0) (Math_pow_2 level)) in
  let voxelSize :=
    Float32Array3_set voxelSize 1
      (double_mul (Float32Array3_get voxelSize 1) (Math_pow_2 level)) in
  let voxelSize :=
    Float32Array3_set voxelSize 2
      (double_mul (Float32Array3_get voxelSize 2) (Math_pow_2 level)) in
  let chunkLayout := Float32Array3_multiply voxelSize (Float32Array3_of chunkDataSize) in
  let lowerVoxelBound :=
    Float32Array3_tabulate (fun i =>
      double_floor
        (double_mul (Finite (vec3_get (vol_lowerVoxelBound this) i))
           (double_div (Finite (vec3_get (DvidFrontend.voxelSize this) i))
              (Float32Array3_get voxelSize i)))) in
  let upperVoxelBound :=
    Float32Array3_tabulate (fun i =>
      double_ceil
        (double_mul (Finite (vec3_get (vol_upperVoxelBound this) i))
           (double_div (Finite (vec3_get (DvidFrontend.voxelSize this) i))
              (Float32Array3_get voxelSize i)))) in
  let spec :=
    {| chunkLayout := chunkLayout; chunkDataSize := chunkDataSize;
       spec_numChannels := numChannels this; spec_dataType := dataType this;
       lowerVoxelBound := lowerVoxelBound; upperVoxelBound := upperVoxelBound |} in
  let volParameters :=
    {| baseUrls := baseUrls parameters; nodeKey := nodeKey parameters;
       dataInstanceKey := dataInstanceKey parameters;
       level2 := decimal (Z.of_nat level) |} in
  [ {| spec := spec; parameters := volParameters |} ].

Definition getSources (this : VolumeDataInstanceInfo)
    (parameters : VolumeChunkSourceParameters) : list (list VolumeChunkSource) :=
  map (getSources_level this parameters) (seq 0 (numLevels this)).

Record TileLevelInfo := {
  resolution : vec3;
  tileSize : vec3;
}.

Definition new_TileLevelInfo `{UtilJson} (obj : json) : Result TileLevelInfo :=
  _ ← verifyObject obj;
  resolution ← verifyObjectProperty obj "Resolution"
                 (fun x => parseFixedLengthArray vec3_create x verifyFinitePositiveFloat);
  tileSize ← verifyObjectProperty obj "TileSize"
               (fun x => parseFixedLengthArray vec3_create x verifyPositiveInt);
  Ok {| resolution := resolution; tileSize := tileSize |}.

Record TileDataInstanceInfo := {
  tile_obj : json;
  tile_name : string;
  tile_base : DataInstanceBaseInfo;
  encoding : TileEncoding;
  tile_voxelSize : vec3;
  levels : Map TileLevelInfo;
  tile_lowerVoxelBound : vec3;
  tile_upperVoxelBound : vec3;
}.

Definition new_TileDataInstanceInfo `{JsBuiltins} `{UtilJson} (obj : json) (name : string)
    (base : DataInstanceBaseInfo) : Result TileDataInstanceInfo :=
  extended ← verifyObjectProperty obj "Extended" verifyObject;
  levels ← verifyObjectProperty extended "Levels"
             (fun x => verifyObjectAsMap x new_TileLevelInfo);
  match Map_get levels "0" with
  | None => Throw (new_Error "Level 0 is not defined.")
  | Some baseLevel =>
      minTileCoord ← verifyObjectProperty extended "MinTileCoord"
                       (fun x => parseFixedLengthArray vec3_create x verifyInt);
      maxTileCoord ← verifyObjectProperty extended "MaxTileCoord"
                       (fun x => parseFixedLengthArray vec3_create x verifyInt);
      encodingNumber ← verifyObjectProperty extended "Encoding" (fun x => Ok x);
      match encodingNumber with
      | JNum q =>
          if Qeq_bool q 2 then
            Ok {| tile_obj := obj; tile_name := name; tile_base := base;
                  encoding := JPEG; tile_voxelSize := resolution baseLevel;
                  levels := levels;
                  tile_lowerVoxelBound := vec3_multiply32 (tileSize baseLevel) minTileCoord;
                  tile_upperVoxelBound := vec3_multiply32 (tileSize baseLevel) maxTileCoord |}
          else Throw (new_Error ("Unsupported tile encoding: " +:+
                                 JSON_stringify encodingNumber +:+ "."))
      | _ => Throw (new_Error ("Unsupported tile encoding: " +:+
                               JSON_stringify encodingNumber +:+ "."))
      end
  end.

(** [TileChunkSourceParameters] of [datasource/dvid/base], as the object
    literal of [getSources] fills it. *)
Record TileChunkSourceParameters := {
  tile_baseUrls : list string;
  tile_nodeKey : string;
  tile_level2 : string;
  tile_dataInstanceKey : string;
  tile_encoding : TileEncoding;
  tile_level : string;
  tile_dims : string;
}.

Record TileChunkSource := {
  tile_spec : VolumeChunkSpecification vec3;
  tile_parameters : TileChunkSourceParameters;
}.

Definition TILE_DIMS : list (list nat) := [[0; 1; 2]; [0; 2; 1]; [1; 2; 0]]%nat.

(** [`${dims[k]}`] *)
Definition dims_toString (dims : list nat) (k : nat) : string :=
  from_option (fun dim => decimal (Z.of_nat dim)) "undefined" (dims !! k).

(** The callback of [TILE_DIMS.map] in [TileDataInstanceInfo.getSources],
    for one entry [level], [levelInfo] of [this.levels].  The arithmetic
    is the code's: products and quotients of Numbers, and a 32-bit float
    kept by every store into a [vec3]. *)
Definition TileDataInstanceInfo_getSources_alternative (this : TileDataInstanceInfo)
    (parameters : VolumeChunkSourceParameters) (level : string) (levelInfo : TileLevelInfo)
    (dims : list nat) : TileChunkSource :=
  let voxelSize := vec3_clone (tile_voxelSize this) in
  let chunkDataSize := vec3_fromValues 1 1 1 in
  let '(voxelSize, chunkDataSize) :=
    fold_left
      (fun '(voxelSize, chunkDataSize) dim =>
         (vec3_set voxelSize dim (vec3_get (resolution levelInfo) dim),
          vec3_set chunkDataSize dim (vec3_get (tileSize levelInfo) dim)))
      dims (voxelSize, chunkDataSize) in
  let chunkLayout := vec3_multiply32 voxelSize chunkDataSize in
  let lowerVoxelBound :=
    vec3_tabulate (fun i =>
      Math_fround (Math_floor
        (Number_mul (vec3_get (tile_lowerVoxelBound this) i)
           (Number_div (vec3_get (tile_voxelSize this) i) (vec3_get voxelSize i))))) in
  let upperVoxelBound :=
    vec3_tabulate (fun i =>
      Math_fround (Math_ceil
        (Number_mul (vec3_get (tile_upperVoxelBound this) i)
           (Number_div (vec3_get (tile_voxelSize this) i) (vec3_get voxelSize i))))) in
  let spec :=
    {| chunkLayout := chunkLayout; chunkDataSize := chunkDataSize;
       spec_numChannels := 1; spec_dataType := UINT8;
       lowerVoxelBound := lowerVoxelBound; upperVoxelBound := upperVoxelBound |} in
  let tileParameters :=
    {| tile_baseUrls := baseUrls parameters; tile_nodeKey := nodeKey parameters;
       tile_level2 := "0"; tile_dataInstanceKey := dataInstanceKey parameters;
       tile_encoding := encoding this; tile_level := level;
       tile_dims := dims_toString dims 0 +:+ "_" +:+ dims_toString dims 1 |} in
  {| tile_spec := spec; tile_parameters := tileParameters |}.

(** [TileDataInstanceInfo.getSources]: one list of alternatives for
    every entry of [this.levels], in the order of the map. *)
Definition TileDataInstanceInfo_getSources (this : TileDataInstanceInfo)
    (parameters : VolumeChunkSourceParameters) : list (list TileChunkSource) :=
  map (fun '(level, levelInfo) =>
         map (TileDataInstanceInfo_getSources_alternative this parameters level levelInfo)
           TILE_DIMS)
    (levels this).

(** [DataInstanceInfo]: the two subclasses [parseDataInstance] builds. *)
Inductive DataInstanceInfo :=
| VolumeInfo (info : VolumeDataInstanceInfo)
| TileInfo (info : TileDataInstanceInfo).

(** [x === s] for a string literal [s] *)
Definition is_string (x : json) (s : string) : bool :=
  match x with
  | JStr t => String.eqb t s
  | _ => false
  end.

Definition parseDataInstance `{JsBuiltins} `{UtilJson} (obj : json) (name : string)
    (keys : list string) : Result DataInstanceInfo :=
  _ ← verifyObject obj;
  baseInfo ← verifyObjectProperty obj "Base" new_DataInstanceBaseInfo;
  let t := typeName baseInfo in
  if is_string t "uint8blk" || is_string t "grayscale8" then
    info ← new_VolumeDataInstanceInfo obj name baseInfo IMAGE keys; Ok (VolumeInfo info)
  else if is_string t "imagetile" then
    info ← new_TileDataInstanceInfo obj name baseInfo; Ok (TileInfo info)
  else if is_string t "labels64" || is_string t "labelblk" then
    info ← new_VolumeDataInstanceInfo obj name baseInfo SEGMENTATION keys; Ok (VolumeInfo info)
  else
    Throw (new_Error ("DVID data type " +:+ JSON_stringify t +:+ " is not supported.")).

Record RepositoryInfo := {
  alias : option string;
  description : option string;
  errors : list string;
  dataInstances : Map DataInstanceInfo;
  uuid : option string;
  nodes : list string;
}.

(** The field initialisers: what [new RepositoryInfo(undefined)] returns. *)
Definition RepositoryInfo_fields : RepositoryInfo :=
  {| alias := None; description := None; errors := []; dataInstances := [];
     uuid := None; nodes := [] |}.

(** The body of [for (let key of Object.keys(dataInstanceObjs))]: the
    [try] stores the parsed instance, the [catch] records the message
    (and logs it to the console, which is not modelled). *)
Definition parseDataInstance_step `{JsBuiltins} `{UtilJson} (dataInstanceObjs : json)
    (this : RepositoryInfo) (key : string) : RepositoryInfo :=
  match parseDataInstance (get_property dataInstanceObjs key) key
          (Object_keys dataInstanceObjs) with
  | Ok info =>
      {| alias := alias this; description := description this; errors := errors this;
         dataInstances := Map_set (dataInstances this) key info;
         uuid := uuid this; nodes := nodes this |}
  | Throw parseError =>
      let message := "Failed to parse data instance " +:+ JSON_stringify (JStr key) +:+
                     ": " +:+ message parseError in
      {| alias := alias this; description := description this;
         errors := errors this ++ [message];
         dataInstances := dataInstances this; uuid := uuid this; nodes := nodes this |}
  end.

Definition new_RepositoryInfo `{JsBuiltins} `{UtilJson} (obj : json) : Result RepositoryInfo :=
  match obj with
  | JUndefined => Ok RepositoryInfo_fields
  | _ =>
      _ ← verifyObject obj;
      alias_ ← verifyObjectProperty obj "Alias" verifyString;
      description_ ← verifyObjectProperty obj "Description" verifyString;
      dataInstanceObjs ← verifyObjectProperty obj "DataInstances" verifyObject;
      let this :=
        fold_left (parseDataInstance_step dataInstanceObjs) (Object_keys dataInstanceObjs)
          {| alias := Some alias_; description := Some description_; errors := [];
             dataInstances := []; uuid := None; nodes := [] |} in
      dagObj ← verifyObjectProperty obj "DAG" verifyObject;
      nodeObjs ← verifyObjectProperty dagObj "Nodes" verifyObject;
      Ok {| alias := alias this; description := description this; errors := errors this;
            dataInstances := dataInstances this; uuid := uuid this;
            nodes := fold_left Set_add (Object_keys nodeObjs) (nodes this) |}
  end.

(** The inner loop of [parseRepositoriesInfo]: one more entry of [temp]
    for every node of the repository other than its root. *)
Definition addNode (key : string) (info : RepositoryInfo) (temp : Map RepositoryInfo)
    (key2 : string) : Map RepositoryInfo :=
  if String.eqb key2 key then temp
  else
    let rep :=
      {| alias := alias info; description := description info; errors := errors info;
         dataInstances := dataInstances info; uuid := None; nodes := [] |} in
    Map_set temp key2 rep.

Definition addRepository (temp : Map RepositoryInfo) (entry : string * RepositoryInfo)
    : Map RepositoryInfo :=
  let '(key, info) := entry in
  fold_left (addNode key info) (nodes info) (Map_set temp key info).

Definition setUuid (entry : string * RepositoryInfo) : string * RepositoryInfo :=
  let '(key, info) := entry in
  (key, {| alias := alias info; description := description info; errors := errors info;
           dataInstances := dataInstances info; uuid := Some key; nodes := nodes info |}).

Definition parseRepositoriesInfo `{JsBuiltins} `{UtilJson} (obj : json)
    : Result (Map RepositoryInfo) :=
  try_catch
    (result ← verifyObjectAsMap obj new_RepositoryInfo;
     let temp := fold_left addRepository result [] in
     Ok (map setUuid temp))
    (fun parseError =>
       Throw (new_Error ("Failed to parse DVID repositories info: " +:+ message parseError))).

Record ServerInfo := { repositories : Map RepositoryInfo }.

Definition new_ServerInfo `{JsBuiltins} `{UtilJson} (obj : json) : Result ServerInfo :=
  repositories ← parseRepositoriesInfo obj;
  Ok {| repositories := repositories |}.

(** [ServerInfo.getNode]: [None] is [undefined]. *)
Definition getNode `{JsBuiltins} (this : ServerInfo) (nodeKey : string)
    : Result (option RepositoryInfo) :=
  let matches := filter (fun key => startsWith key nodeKey = true) (Map_keys (repositories this)) in
  if negb (length matches =? 1)%nat then
    Throw (new_Error ("Node key " +:+ JSON_stringify (JStr nodeKey) +:+ " matches " +:+
                      JSON_stringify (JArr (map JStr matches)) +:+ " nodes."))
  else Ok (Map_get (repositories this) nodeKey).

(** *** The two module-level caches

    Promises and volume sources are objects with an identity: they are
    modelled as indices into the tables of the objects allocated so far. *)

Inductive PromiseState :=
| Pending
| Fulfilled (value : ServerInfo)
| Rejected (reason : Error).

Record MultiscaleVolumeChunkSource := {
  mv_baseUrls : list string;
  mv_nodeKey : option string;
  mv_dataInstanceKey : string;
  mv_level2 : string;
  mv_info : DataInstanceInfo;
}.

Record State := {
  (** [cachedServerInfo]: cache key to promise *)
  cachedServerInfo : gmap string nat;
  (** the promises [getServerInfo] created, each with the base URLs of
      the one request sent for it *)
  serverInfoPromises : list (list string * PromiseState);
  (** the promises whose response was handed to [new ServerInfo] *)
  parsed : list nat;
  (** [existingVolumes]: cache key to volume source *)
  existingVolumes : gmap string nat;
  (** the [MultiscaleVolumeChunkSource] objects created *)
  volumeSources : list MultiscaleVolumeChunkSource;
}.

Definition initial : State :=
  {| cachedServerInfo := ∅; serverInfoPromises := []; parsed := [];
     existingVolumes := ∅; volumeSources := [] |}.

Definition serverInfoKey `{UtilJson} (baseUrls : list string) : string :=
  stableStringify (JArr (map JStr baseUrls)).

(** [getServerInfo]: the promise returned and the state afterwards.  The
    status message is user interface and left out. *)
Definition getServerInfo `{UtilJson} (baseUrls : list string) (s : State) : nat * State :=
  let cacheKey := serverInfoKey baseUrls in
  match cachedServerInfo s !! cacheKey with
  | Some result => (result, s)
  | None =>
      let result := length (serverInfoPromises s) in
      (result,
       {| cachedServerInfo := <[cacheKey := result]> (cachedServerInfo s);
          serverInfoPromises := serverInfoPromises s ++ [(baseUrls, Pending)];
          parsed := parsed s;
          existingVolumes := existingVolumes s;
          volumeSources := volumeSources s |})
  end.

(** The request behind promise [p] completes: with a response, which
    [.then(response => new ServerInfo(response))] parses, or with an
    error.  A promise that is no longer pending stays as it is. *)
Definition settle `{JsBuiltins} `{UtilJson} (p : nat) (outcome : Result json) (s : State) : State :=
  match serverInfoPromises s !! p with
  | Some (urls, Pending) =>
      let state :=
        match outcome with
        | Ok response =>
            match new_ServerInfo response with
            | Ok info => Fulfilled info
            | Throw e => Rejected e
            end
        | Throw e => Rejected e
        end in
      {| cachedServerInfo := cachedServerInfo s;
         serverInfoPromises := <[p := (urls, state)]> (serverInfoPromises s);
         parsed := if is_Ok outcome then parsed s ++ [p] else parsed s;
         existingVolumes := existingVolumes s;
         volumeSources := volumeSources s |}
  | _ => s
  end.

Definition volumeKey `{UtilJson} (baseUrls : list string) (uuid : option string)
    (dataInstanceKey level2 : string) : string :=
  stableStringify
    (JObj [("baseUrls", JArr (map JStr baseUrls));
           ("nodeKey", from_option JStr JUndefined uuid);
           ("dataInstanceKey", JStr dataInstanceKey);
           ("level2", JStr level2)]).

(** The [serverInfo => ...] callback of [getShardedVolume]: what the
    returned promise resolves to (an object identity) or rejects with.
    Reading [dataInstances] of [undefined] is the engine's [TypeError]. *)
Definition getShardedVolume_then `{JsBuiltins} `{UtilJson} (baseUrls : list string)
    (nodeKey dataInstanceKey level2 : string) (serverInfo : ServerInfo) (s : State)
    : Result nat * State :=
  match getNode serverInfo nodeKey with
  | Throw e => (Throw e, s)
  | Ok None =>
      (Throw (new_Error "TypeError: repositoryInfo is undefined"), s)
  | Ok (Some repositoryInfo) =>
      match Map_get (dataInstances repositoryInfo) dataInstanceKey with
      | None =>
          (Throw (new_Error ("Invalid data instance " +:+ dataInstanceKey +:+ ".")), s)
      | Some dataInstanceInfo =>
          let cacheKey := volumeKey baseUrls (uuid repositoryInfo) dataInstanceKey level2 in
          match existingVolumes s !! cacheKey with
          | Some result => (Ok result, s)
          | None =>
              let result := length (volumeSources s) in
              (Ok result,
               {| cachedServerInfo := cachedServerInfo s;
                  serverInfoPromises := serverInfoPromises s;
                  parsed := parsed s;
                  existingVolumes := <[cacheKey := result]> (existingVolumes s);
                  volumeSources := volumeSources s ++
                    [ {| mv_baseUrls := baseUrls; mv_nodeKey := uuid repositoryInfo;
                         mv_dataInstanceKey := dataInstanceKey; mv_level2 := level2;
                         mv_info := dataInstanceInfo |} ] |})
          end
      end
  end.




(** [getShardedVolume]: the promise of the server info that is waited
    for, with the arguments its callback [getShardedVolume_then] holds. *)
Record ShardedVolumePromise := {
  then_serverInfo : nat;
  then_baseUrls : list string;
  then_nodeKey : string;
  then_dataInstanceKey : string;
  then_level2 : string;
}.

Definition getShardedVolume `{UtilJson} (baseUrls : list string)
    (nodeKey dataInstanceKey level2 : string) (s : State) : ShardedVolumePromise * State :=
  let '(serverInfo, s') := getServerInfo baseUrls s in
  ({| then_serverInfo := serverInfo; then_baseUrls := baseUrls; then_nodeKey := nodeKey;
      then_dataInstanceKey := dataInstanceKey; then_level2 := level2 |}, s').

(** [/^((?:http|https):\/\/[^\/]+)\/([^\/]+)\/([^\/]+)$/] *)
Definition urlPattern : pattern :=
  PSeq (PGroup 1 (PSeq (PAlt (PLit "http") (PLit "https"))
                    (PSeq (PLit "://") (PPlus (CNot ["/"%char])))))
    (PSeq (PLit "/")
       (PSeq (PGroup 2 (PPlus (CNot ["/"%char])))
          (PSeq (PLit "/") (PGroup 3 (PPlus (CNot ["/"%char])))))).

Definition getVolume `{JsBuiltins} `{UtilJson} (url : string) (s : State)
    : Result ShardedVolumePromise * State :=
  match String_match url urlPattern with
  | None => (Throw (new_Error ("Invalid DVID URL: " +:+ JSON_stringify (JStr url) +:+ ".")), s)
  | Some match_ =>
      let '(volume, s') :=
        getShardedVolume [group match_ 1] (group match_ 2) (group match_ 3) "0" s in
      (Ok volume, s')
  end.

(** *** An implementation of the imports, to run the parsers

    The statements below hold for every implementation of [JsBuiltins] and
    [UtilJson].  To evaluate the parsers on concrete server replies, the
    following one is used: each validator accepts the values its name
    says and reports anything else with the property it was found under. *)

Definition quote (s : string) : string :=
  String (ascii_of_nat 34) EmptyString +:+ s +:+ String (ascii_of_nat 34) EmptyString.

Definition join (sep : string) (l : list string) : string :=
  match l with
  | [] => EmptyString
  | x :: l' => fold_left (fun acc y => acc +:+ sep +:+ y) l' x
  end.

Fixpoint stringify (j : json) : string :=
  match j with
  | JUndefined => "undefined"
  | JNull => "null"
  | JBool b => if b then "true" else "false"
  | JNum q => Number_toString q
  | JStr s => quote s
  | JArr l => "[" +:+ join "," (map stringify l) +:+ "]"
  | JObj l => "{" +:+ join "," (map (fun p => quote p.1 +:+ ":" +:+ stringify p.2) l) +:+ "}"
  end.

Definition is_integer (q : Q) : bool := Qeq_bool q (inject_Z (Qfloor q)).

Definition expected (what : string) (x : json) : Error :=
  new_Error ("Expected " +:+ what +:+ ", but received: " +:+ stringify x +:+ ".").

Definition number_such_that (what : string) (ok : Q -> bool) (x : json) : Result Q :=
  match x with
  | JNum q => if ok q then Ok q else Throw (expected what x)
  | _ => Throw (expected what x)
  end.

Definition in_property {T} (name : string) (r : Result T) : Result T :=
  try_catch r (fun e =>
    Throw (new_Error ("Error parsing " +:+ quote name +:+ " property: " +:+ message e))).

Definition fixed3 (x : json) (parseElement : json -> Result Q) : Result vec3 :=
  match x with
  | JArr [a; b; c] =>
      a' ← parseElement a; b' ← parseElement b; c' ← parseElement c; Ok (Vec3 a' b' c')
  | _ => Throw (expected "length 3 array" x)
  end.

Definition object_as_map {T} (x : json) (validator : json -> Result T) : Result (Map T) :=
  match x with
  | JObj l =>
      fold_left (fun acc key =>
          m ← acc;
          v ← try_catch (validator (get_property x key)) (fun e =>
                 Throw (new_Error ("Error parsing value associated with key " +:+
                                   quote key +:+ ": " +:+ message e)));
          Ok (Map_set m key v))
        (Object_keys x) (Ok [])
  | _ => Throw (expected "JSON object" x)
  end.

Definition exampleBuiltins : JsBuiltins := {| JSON_stringify := stringify |}.

Definition exampleUtilJson : UtilJson := {|
  stableStringify := stringify;
  verifyObject x := match x with JObj _ => Ok x | _ => Throw (expected "JSON object" x) end;
  verifyObjectProperty T obj name validator := in_property name (validator (get_property obj name));
  verifyString x := match x with JStr s => Ok s | _ => Throw (expected "string" x) end;
  verifyInt := number_such_that "integer" is_integer;
  verifyPositiveInt := number_such_that "positive integer" (fun q => is_integer q && Qle_bool 1 q);
  verifyFinitePositiveFloat :=
    number_such_that "positive finite floating-point number" (fun q => negb (Qle_bool q 0));
  verifyMapKey U x m :=
    match x with
    | JStr s => from_option Ok (Throw (expected ("one of " +:+ stringify (JArr (map JStr (Map_keys m)))) x))
                  (Map_get m s)
    | _ => Throw (expected ("one of " +:+ stringify (JArr (map JStr (Map_keys m)))) x)
    end;
  parseArray T x parseElement :=
    match x with JArr l => mapM parseElement l | _ => Throw (expected "array" x) end;
  parseIntVec out x := fixed3 x (number_such_that "integer" is_integer);
  parseFixedLengthArray out x parseElement := fixed3 x parseElement;
  verifyObjectAsMap T x validator := object_as_map x validator;
|}.

(** *** A server reply, to run the parsers on

    A repository with a two-level grayscale volume ([grayscale] and its
    down-sampled [grayscale_1]) and a key-value instance, which this
    data source does not support. *)

Definition example_grayscale : json :=
  JObj [("Base", JObj [("TypeName", JStr "uint8blk")]);
        ("Extended",
         JObj [("Values", JArr [JObj [("DataType", JStr "uint8")]]);
               ("MinPoint", JArr [JNum 0; JNum 0; JNum 0]);
               ("MaxPoint", JArr [JNum 100; JNum 100; JNum 100]);
               ("VoxelSize", JArr [JNum 10; JNum 10; JNum 10])])].

Definition example_keyvalue : json :=
  JObj [("Base", JObj [("TypeName", JStr "keyvalue")])].

Definition example_repository : json :=
  JObj [("Alias", JStr "demo");
        ("Description", JStr "a demonstration repository");
        ("DataInstances",
         JObj [("grayscale", example_grayscale);
               ("notes", example_keyvalue);
               ("grayscale_1", example_grayscale)]);
        ("DAG", JObj [("Nodes", JObj [("abcdef", JObj []); ("0123ab", JObj [])])])].

Definition example_volume : VolumeDataInstanceInfo :=
  {| vol_obj := example_grayscale; vol_name := "grayscale";
     vol_base := {| base_obj := JObj [("TypeName", JStr "uint8blk")] |};
     volumeType := IMAGE; dataType := UINT8;
     vol_lowerVoxelBound := Vec3 0 0 0; vol_upperVoxelBound := Vec3 100 100 100;
     voxelSize := Vec3 10 10 10; numChannels := 1; numLevels := 2 |}.

Definition example_parameters : VolumeChunkSourceParameters :=
  {| baseUrls := ["http://emdata.example"]; nodeKey := "abcdef";
     dataInstanceKey := "grayscale"; level2 := "0" |}.

(** *** Level bounds of [getSources] *)

Section LevelBounds.
Local Open Scope Q_scope.

(** The rescale rule in the words of property P4: the bound of the base
    level times [R0/Rn], rounded down for a lower bound and up for an
    upper bound. *)
Definition P4_lowerBound (lowerBound_0 : Z) (R0 Rn : Q) : Z :=
  Qfloor (inject_Z lowerBound_0 * R0 / Rn).
Definition P4_upperBound (upperBound_0 : Z) (R0 Rn : Q) : Z :=
  Qceiling (inject_Z upperBound_0 * R0 / Rn).

(** The resolution of level [n]: [Rn = R0 * 2^n]. *)
Definition level_resolution (R0 : Q) (n : nat) : Q := R0 * Math_pow2 n.

Lemma pow2_pos (n : nat) : (0 < 2 ^ Z.of_nat n)%Z.
Proof. apply Z.pow_pos_nonneg; lia. Qed.

Lemma rescale_ratio (b : Z) (R0 : Q) (n : nat) :
  0 < R0 ->
  inject_Z b * (R0 / level_resolution R0 n) == b # Z.to_pos (2 ^ Z.of_nat n).
Proof.
  intros HR. unfold level_resolution, Math_pow2.
  rewrite (Qmake_Qdiv b), Z2Pos.id by apply pow2_pos.
  assert (~ inject_Z (2 ^ Z.of_nat n) == 0) as Hp.
  { intros E. pose proof (pow2_pos n) as Hpos.
    unfold Qeq in E; simpl in E. lia. }
  assert (~ R0 == 0) as HR0 by (intros E; rewrite E in HR; discriminate HR).
  field. split; assumption.
Qed.

Lemma rescale_floor (b : Z) (R0 : Q) (n : nat) :
  0 < R0 ->
  Qfloor (inject_Z b * (R0 / level_resolution R0 n)) = (b / 2 ^ Z.of_nat n)%Z.
Proof.
  intros HR. rewrite (Qfloor_comp _ _ (rescale_ratio b R0 n HR)).
  simpl. rewrite Z2Pos.id by apply pow2_pos. reflexivity.
Qed.

Lemma rescale_ceiling (b : Z) (R0 : Q) (n : nat) :
  0 < R0 ->
  Qceiling (inject_Z b * (R0 / level_resolution R0 n)) = (- (- b / 2 ^ Z.of_nat n))%Z.
Proof.
  intros HR. rewrite (Qceiling_comp _ _ (rescale_ratio b R0 n HR)).
  unfold Qceiling. simpl. rewrite Z2Pos.id by apply pow2_pos. reflexivity.
Qed.

Lemma P4_lowerBound_code (b : Z) (R0 : Q) (n : nat) :
  0 < R0 ->
  P4_lowerBound b R0 (level_resolution R0 n) =
  Qfloor (inject_Z b * (R0 / level_resolution R0 n)).
Proof.
  intros HR. unfold P4_lowerBound. apply Qfloor_comp.
  unfold Qdiv. symmetry. apply Qmult_assoc.
Qed.

Lemma P4_upperBound_code (b : Z) (R0 : Q) (n : nat) :
  0 < R0 ->
  P4_upperBound b R0 (level_resolution R0 n) =
  Qceiling (inject_Z b * (R0 / level_resolution R0 n)).
Proof.
  intros HR. unfold P4_upperBound. apply Qceiling_comp.
  unfold Qdiv. symmetry. apply Qmult_assoc.
Qed.

Lemma getSources_lookup (this : VolumeDataInstanceInfo)
    (parameters : VolumeChunkSourceParameters) (n : nat) :
  (n < numLevels this)%nat ->
  getSources this parameters !! n = Some (getSources_level this parameters n).
Proof.
  intros Hn. unfold getSources.
  change (map (getSources_level this parameters) (seq 0 (numLevels this)))
    with (getSources_level this parameters <$> seq 0 (numLevels this)).
  rewrite list_lookup_fmap, lookup_seq_lt by assumption. reflexivity.
Qed.

(** The bounds of a level while its resolution fits a 32-bit float:
    the products and quotients are by powers of two and exact, and so
    are the stores. *)
Lemma getSources_level_bounds (this : VolumeDataInstanceInfo)
    (parameters : VolumeChunkSourceParameters) (n : nat) (Lx Ly Lz Ux Uy Uz : Z) :
  0 < v0 (voxelSize this) -> 0 < v1 (voxelSize this) -> 0 < v2 (voxelSize this) ->
  float32_vec3 (voxelSize this) ->
  vol_lowerVoxelBound this = ivec3 Lx Ly Lz -> float32_vec3 (ivec3 Lx Ly Lz) ->
  vol_upperVoxelBound this = ivec3 Ux Uy Uz -> float32_vec3 (ivec3 Ux Uy Uz) ->
  level_resolution (v0 (voxelSize this)) n < 2 ^ 128 ->
  level_resolution (v1 (voxelSize this)) n < 2 ^ 128 ->
  level_resolution (v2 (voxelSize this)) n < 2 ^ 128 ->
  exists source,
    getSources_level this parameters n = [source] /\
    lowerVoxelBound (spec source) =
      Float32Array3_of
        (ivec3 (Lx / 2 ^ Z.of_nat n) (Ly / 2 ^ Z.of_nat n) (Lz / 2 ^ Z.of_nat n)) /\
    upperVoxelBound (spec source) =
      Float32Array3_of
        (ivec3 (- (- Ux / 2 ^ Z.of_nat n)) (- (- Uy / 2 ^ Z.of_nat n))
               (- (- Uz / 2 ^ Z.of_nat n))).
Proof.
  intros H0 H1 H2 (F0 & F1 & F2) HL (FLx & FLy & FLz) HU (FUx & FUy & FUz) R0 R1 R2.
  eexists. split; [reflexivity|].
  cbn [spec lowerVoxelBound upperVoxelBound]. rewrite HL, HU.
  unfold Float32Array3_tabulate, Float32Array3_of, ivec3, vec3_clone.
  cbn [Float32Array3_get Float32Array3_set f0 f1 f2 vec3_get v0 v1 v2] in *.
  unfold level_resolution, Math_pow2 in R0, R1, R2.
  rewrite !level_lower_bound, !level_upper_bound by assumption.
  split; reflexivity.
Qed.

(** C2.  For a volume with integer bounds [L] and [U] and base resolution
    [R0], all of them values that a [Float32Array] holds, and for a level
    [n] whose resolution [Rn = R0 * 2^n] is below [2^128], the range of a
    32-bit float, the source of level [n] has the bounds of property P4,
    componentwise: [floor(L * R0/Rn)] and [ceil(U * R0/Rn)], which are
    [floor(L / 2^n)] and [ceil(U / 2^n)]. *)
Theorem getSources_bounds (this : VolumeDataInstanceInfo)
    (parameters : VolumeChunkSourceParameters) (n : nat) (Lx Ly Lz Ux Uy Uz : Z) :
  (n < numLevels this)%nat ->
  0 < v0 (voxelSize this) -> 0 < v1 (voxelSize this) -> 0 < v2 (voxelSize this) ->
  float32_vec3 (voxelSize this) ->
  vol_lowerVoxelBound this = ivec3 Lx Ly Lz -> float32_vec3 (ivec3 Lx Ly Lz) ->
  vol_upperVoxelBound this = ivec3 Ux Uy Uz -> float32_vec3 (ivec3 Ux Uy Uz) ->
  let R0 := voxelSize this in
  let Rn := fun i => level_resolution (vec3_get R0 i) n in
  Rn 0%nat < 2 ^ 128 -> Rn 1%nat < 2 ^ 128 -> Rn 2%nat < 2 ^ 128 ->
  exists source,
    getSources this parameters !! n = Some [source] /\
    lowerVoxelBound (spec source) =
      Float32Array3_of
        (ivec3 (P4_lowerBound Lx (v0 R0) (Rn 0%nat)) (P4_lowerBound Ly (v1 R0) (Rn 1%nat))
               (P4_lowerBound Lz (v2 R0) (Rn 2%nat))) /\
    upperVoxelBound (spec source) =
      Float32Array3_of
        (ivec3 (P4_upperBound Ux (v0 R0) (Rn 0%nat)) (P4_upperBound Uy (v1 R0) (Rn 1%nat))
               (P4_upperBound Uz (v2 R0) (Rn 2%nat))) /\
    lowerVoxelBound (spec source) =
      Float32Array3_of
        (ivec3 (Lx / 2 ^ Z.of_nat n) (Ly / 2 ^ Z.of_nat n) (Lz / 2 ^ Z.of_nat n)) /\
    upperVoxelBound (spec source) =
      Float32Array3_of
        (ivec3 (- (- Ux / 2 ^ Z.of_nat n)) (- (- Uy / 2 ^ Z.of_nat n))
               (- (- Uz / 2 ^ Z.of_nat n))).
Proof.
  intros Hn H0 H1 H2 HF HL HFL HU HFU R0 Rn Hr0 Hr1 Hr2. subst R0 Rn.
  cbn [vec3_get] in Hr0, Hr1, Hr2.
  destruct (getSources_level_bounds this parameters n Lx Ly Lz Ux Uy Uz
              H0 H1 H2 HF HL HFL HU HFU Hr0 Hr1 Hr2) as (source & Hsource & Hl & Hu).
  exists source. rewrite getSources_lookup by exact Hn.
  split; [by rewrite Hsource|]. cbn [vec3_get].
  rewrite !P4_lowerBound_code, !P4_upperBound_code by assumption.
  rewrite !rescale_floor, !rescale_ceiling by assumption. done.
Qed.

(** The scenario of the specification: bounds [0,0,0] and [100,100,100]
    at resolution 10, rescaled to level 1. *)
Lemma getSources_bounds_scenario :
  exists source,
    getSources example_volume example_parameters !! 1%nat = Some [source] /\
    lowerVoxelBound (spec source) = Float32Array3_of (ivec3 0 0 0) /\
    upperVoxelBound (spec source) = Float32Array3_of (ivec3 50 50 50).
Proof.
  assert (float32_vec3 (Vec3 10 10 10)) as HF
    by (repeat split; apply (float32_small 10); reflexivity).
  assert (float32_vec3 (ivec3 0 0 0)) as HFL
    by (repeat split; apply float32_small; reflexivity).
  assert (float32_vec3 (ivec3 100 100 100)) as HFU
    by (repeat split; apply float32_small; reflexivity).
  destruct (getSources_bounds example_volume example_parameters 1 0 0 0 100 100 100)
    as (source & Hs & _ & _ & Hl & Hu);
    [cbn; lia | reflexivity | reflexivity | reflexivity | exact HF | reflexivity | exact HFL
    | reflexivity | exact HFU | reflexivity | reflexivity | reflexivity |].
  exists source. split; [exact Hs|]. split; [exact Hl|exact Hu].
Defined.

(** A volume of 126 levels at resolution 8: at level 125 the resolution
    [8 * 2^125 = 2^128] is stored as [Infinity], the factor
    [voxelSize / Infinity] is zero, and so are both bounds, where P4
    asks for [floor(-3 / 2^125) = -1] and [ceil(3 / 2^125) = 1]. *)
Definition overflow_volume : VolumeDataInstanceInfo :=
  {| vol_obj := example_grayscale; vol_name := "grayscale";
     vol_base := {| base_obj := JObj [("TypeName", JStr "uint8blk")] |};
     volumeType := IMAGE; dataType := UINT8;
     vol_lowerVoxelBound := ivec3 (-3) 0 0; vol_upperVoxelBound := ivec3 3 1 1;
     voxelSize := Vec3 8 8 8; numChannels := 1; numLevels := 126 |}.

Lemma getSources_bounds_overflow :
  exists source,
    getSources overflow_volume example_parameters !! 125%nat = Some [source] /\
    level_resolution 8 125 == 2 ^ 128 /\
    lowerVoxelBound (spec source) = Float32Array3_of (ivec3 0 0 0) /\
    upperVoxelBound (spec source) = Float32Array3_of (ivec3 0 0 0) /\
    P4_lowerBound (-3) 8 (level_resolution 8 125) = (-1)%Z /\
    P4_upperBound 3 8 (level_resolution 8 125) = 1%Z /\
    lowerVoxelBound (spec source) <>
      Float32Array3_of
        (ivec3 (P4_lowerBound (-3) 8 (level_resolution 8 125))
               (P4_lowerBound 0 8 (level_resolution 8 125))
               (P4_lowerBound 0 8 (level_resolution 8 125))).
Proof.
  eexists. split; [apply getSources_lookup; cbn; lia|].
  split; [reflexivity|]. vm_compute. repeat split. discriminate.
Qed.

Example example_volume_parsed :
  @parseDataInstance exampleBuiltins exampleUtilJson example_grayscale "grayscale"
    ["grayscale"; "notes"; "grayscale_1"] = Ok (VolumeInfo example_volume).
Proof. vm_compute. reflexivity. Qed.

End LevelBounds.

(** *** The level count of [VolumeDataInstanceInfo] *)

Definition levelKey (name : string) (n : nat) : string :=
  name +:+ "_" +:+ decimal (Z.of_nat n).

Lemma levelKey_inj (name : string) (n m : nat) : levelKey name n = levelKey name m -> n = m.
Proof.
  unfold levelKey. intros E. apply String.app_inj in E.
  apply (String.app_inj "_") in E. apply decimal_inj in E. lia.
Qed.

Lemma countLevels_run (keyset : gset string) (name : string) (fuel : nat) :
  forall n0 : nat,
  let n := countLevels keyset name fuel n0 in
  (n0 <= n <= n0 + fuel)%nat /\
  (forall m, (n0 <= m < n)%nat -> levelKey name m ∈ keyset) /\
  ((n < n0 + fuel)%nat -> levelKey name n ∉ keyset).
Proof.
  induction fuel as [|fuel IH]; intros n0; cbn [countLevels].
  - cbn zeta. split; [lia|]. split; intros; lia.
  - fold (levelKey name n0). case_bool_decide as Hin.
    + specialize (IH (n0 + 1)%nat). cbn zeta in IH. destruct IH as (Hle & Hall & Hout).
      cbn zeta. split; [lia|]. split.
      * intros m Hm. destruct (decide (m = n0)) as [->|]; [exact Hin|]. apply Hall. lia.
      * intros Hlt. apply Hout. lia.
    + cbn zeta. split; [lia|]. split; [intros; lia|]. intros _. exact Hin.
Qed.

(** X3.  The [while (true)] loop of the [VolumeDataInstanceInfo]
    constructor ends, and it ends through its [break]: the level count
    [n] it leaves behind is the first one whose key [name_n] is not among
    the keys of the repository, and the keys [name_1] to [name_(n-1)]
    all are.  The fuel of the model is never used up. *)
Lemma countLevels_exits (keys : list string) (name : string) :
  let n := countLevels (list_to_set keys) name (S (length keys)) 1 in
  (forall m, (1 <= m < n)%nat -> levelKey name m ∈ keys) /\ levelKey name n ∉ keys.
Proof.
  destruct (countLevels_run (list_to_set keys) name (S (length keys)) 1)
    as (Hle & Hall & Hout).
  cbn zeta. set (n := countLevels _ _ _ _) in *.
  assert (forall m, (1 <= m < n)%nat -> levelKey name m ∈ keys) as Hall'.
  { intros m Hm. apply (elem_of_list_to_set (C := gset string)). by apply Hall. }
  split; [exact Hall'|].
  assert (n < 1 + S (length keys))%nat as Hlt.
  { assert (length (levelKey name <$> seq 1 (n - 1)) <= length keys)%nat as Hlen.
    { apply submseteq_length, NoDup_submseteq.
      - apply NoDup_fmap_2_strong; [|apply NoDup_seq].
        intros x y _ _. apply levelKey_inj.
      - intros k Hk. apply list_elem_of_fmap in Hk as (m & -> & Hm).
        apply elem_of_seq in Hm. apply Hall'. lia. }
    rewrite length_fmap, length_seq in Hlen. lia. }
  intros Hin. apply (Hout Hlt). by apply elem_of_list_to_set.
Qed.

(** *** [RepositoryInfo]: data instances that fail to parse *)

Lemma assoc_Map_set {V} (m : Map V) (key key' : string) (v : V) :
  Map_get (Map_set m key v) key' = if decide (key = key') then Some v else Map_get m key'.
Proof.
  unfold Map_get. induction m as [|[k w] m IH]; simpl.
  - destruct (String.eqb_spec key key'); case_decide; congruence.
  - destruct (String.eqb_spec k key) as [->|Hk]; simpl.
    + destruct (String.eqb_spec key key'); case_decide; congruence.
    + destruct (String.eqb_spec k key'); [|exact IH].
      case_decide; congruence.
Qed.

(** What the loop keeps for [key], and what it records for it. *)
Definition parsed_instance `{JsBuiltins} `{UtilJson} (dataInstanceObjs : json)
    (key : string) : option DataInstanceInfo :=
  match parseDataInstance (get_property dataInstanceObjs key) key
          (Object_keys dataInstanceObjs) with
  | Ok info => Some info
  | Throw _ => None
  end.

Definition failure_message `{JsBuiltins} `{UtilJson} (dataInstanceObjs : json)
    (key : string) : option string :=
  match parseDataInstance (get_property dataInstanceObjs key) key
          (Object_keys dataInstanceObjs) with
  | Ok _ => None
  | Throw parseError =>
      Some ("Failed to parse data instance " +:+ JSON_stringify (JStr key) +:+ ": " +:+
            message parseError)
  end.

Lemma parse_step `{JsBuiltins} `{UtilJson} (dataInstanceObjs : json) (k : string)
    (this : RepositoryInfo) :
  let this' := parseDataInstance_step dataInstanceObjs this k in
  alias this' = alias this /\ description this' = description this /\
  uuid this' = uuid this /\ nodes this' = nodes this /\
  errors this' = errors this ++ omap (failure_message dataInstanceObjs) [k] /\
  forall key,
    Map_get (dataInstances this') key =
      if decide (k = key) then
        match parsed_instance dataInstanceObjs key with
        | Some info => Some info
        | None => Map_get (dataInstances this) key
        end
      else Map_get (dataInstances this) key.
Proof.
  unfold parseDataInstance_step, failure_message, parsed_instance. cbn [omap list_omap].
  destruct (parseDataInstance (get_property dataInstanceObjs k) k
              (Object_keys dataInstanceObjs)) as [info|e] eqn:Hk;
    cbn [alias description uuid nodes errors dataInstances].
  - rewrite app_nil_r. repeat split. intros key. rewrite assoc_Map_set.
    case_decide; [subst key; rewrite Hk|]; reflexivity.
  - repeat split. intros key.
    case_decide; [subst key; rewrite Hk|]; reflexivity.
Qed.

Lemma parse_loop `{JsBuiltins} `{UtilJson} (dataInstanceObjs : json) (keys : list string) :
  forall this : RepositoryInfo,
  let this' := fold_left (parseDataInstance_step dataInstanceObjs) keys this in
  alias this' = alias this /\ description this' = description this /\
  uuid this' = uuid this /\ nodes this' = nodes this /\
  errors this' = errors this ++ omap (failure_message dataInstanceObjs) keys /\
  forall key,
    Map_get (dataInstances this') key =
      if bool_decide (key ∈ keys) then
        match parsed_instance dataInstanceObjs key with
        | Some info => Some info
        | None => Map_get (dataInstances this) key
        end
      else Map_get (dataInstances this) key.
Proof.
  induction keys as [|k keys IH]; intros this; cbn [fold_left].
  - cbn. rewrite app_nil_r. repeat split.
  - specialize (IH (parseDataInstance_step dataInstanceObjs this k)).
    cbn zeta in IH. destruct IH as (Ha & Hd & Hu & Hn & He & Hg).
    destruct (parse_step dataInstanceObjs k this) as (Ha' & Hd' & Hu' & Hn' & He' & Hg').
    cbn zeta. rewrite Ha, Hd, Hu, Hn, He, Ha', Hd', Hu', Hn', He'.
    repeat split.
    + rewrite <- app_assoc. f_equal.
      change (k :: keys) with ([k] ++ keys). rewrite omap_app. reflexivity.
    + intros key. rewrite Hg, Hg'.
      destruct (decide (k = key)) as [->|Hne].
      * rewrite (bool_decide_eq_true_2 (key ∈ key :: keys)) by apply list_elem_of_here.
        destruct (parsed_instance dataInstanceObjs key); case_bool_decide; reflexivity.
      * destruct (bool_decide (key ∈ keys)) eqn:Hin.
        -- apply bool_decide_eq_true in Hin.
           rewrite bool_decide_eq_true_2 by (apply list_elem_of_further; exact Hin).
           reflexivity.
        -- apply bool_decide_eq_false in Hin.
           rewrite bool_decide_eq_false_2; [reflexivity|].
           intros [?|?]%elem_of_cons; congruence.
Qed.

(** C3.  For a repository object whose own fields are well formed
    ([Alias], [Description], [DataInstances], [DAG.Nodes]), the
    constructor returns whatever the data instances are: an instance is
    kept exactly when [parseDataInstance] succeeds on it, and the errors
    are the messages of the failing ones, one each, in key order. *)
Theorem new_RepositoryInfo_skips_failures `{JsBuiltins} `{UtilJson} (obj : json)
    (alias_ description_ : string) (dataInstanceObjs dagObj nodeObjs : json) :
  obj <> JUndefined ->
  is_Ok (verifyObject obj) = true ->
  verifyObjectProperty obj "Alias" verifyString = Ok alias_ ->
  verifyObjectProperty obj "Description" verifyString = Ok description_ ->
  verifyObjectProperty obj "DataInstances" verifyObject = Ok dataInstanceObjs ->
  verifyObjectProperty obj "DAG" verifyObject = Ok dagObj ->
  verifyObjectProperty dagObj "Nodes" verifyObject = Ok nodeObjs ->
  exists info,
    new_RepositoryInfo obj = Ok info /\
    (forall key,
       Map_get (dataInstances info) key =
         if bool_decide (key ∈ Object_keys dataInstanceObjs)
         then parsed_instance dataInstanceObjs key else None) /\
    errors info = omap (failure_message dataInstanceObjs) (Object_keys dataInstanceObjs).
Proof.
  intros Hobj Hv Ha Hd Hi Hdag Hnodes.
  destruct (verifyObject obj) as [o|] eqn:Hvo; [|discriminate Hv].
  pose proof (parse_loop dataInstanceObjs (Object_keys dataInstanceObjs)
    {| alias := Some alias_; description := Some description_; errors := [];
       dataInstances := []; uuid := None; nodes := [] |}) as Hloop.
  cbn zeta in Hloop. destruct Hloop as (_ & _ & _ & _ & He & Hg).
  eexists. split; [|split].
  - unfold new_RepositoryInfo.
    destruct obj; try congruence; unfold mbind, Result_bind;
      rewrite Hvo; cbn [bind];
      rewrite Ha; cbn [bind]; rewrite Hd; cbn [bind]; rewrite Hi; cbn [bind];
      rewrite Hdag; cbn [bind]; rewrite Hnodes; cbn [bind]; reflexivity.
  - intros key. cbn [dataInstances]. rewrite Hg. cbn [dataInstances Map_get assoc].
    destruct (parsed_instance dataInstanceObjs key); reflexivity.
  - cbn [errors]. rewrite He. reflexivity.
Qed.

(** The example repository: the key-value instance is skipped and
    reported, the two volumes are kept. *)
Lemma new_RepositoryInfo_example :
  exists info,
    @new_RepositoryInfo exampleBuiltins exampleUtilJson example_repository = Ok info /\
    is_Some (Map_get (dataInstances info) "grayscale") /\
    is_Some (Map_get (dataInstances info) "grayscale_1") /\
    Map_get (dataInstances info) "notes" = None /\
    length (errors info) = 1%nat.
Proof.
  destruct (@new_RepositoryInfo_skips_failures exampleBuiltins exampleUtilJson
              example_repository "demo" "a demonstration repository"
              (get_property example_repository "DataInstances")
              (get_property example_repository "DAG")
              (get_property (get_property example_repository "DAG") "Nodes"))
    as (info & Hinfo & Hget & Herr);
    [discriminate | reflexivity | reflexivity | reflexivity | reflexivity
    | reflexivity | reflexivity |].
  exists info. split; [exact Hinfo|].
  rewrite !Hget, Herr. vm_compute. repeat split; eauto.
Defined.

(** *** [ServerInfo.getNode] *)

Lemma filter_one_unique {A} (P : A -> Prop) `{forall x, Decision (P x)} (l : list A) :
  NoDup l ->
  (length (filter P l) = 1%nat) <-> (exists! x, x ∈ l /\ P x).
Proof.
  intros Hnd. split.
  - intros Hlen. destruct (filter P l) as [|x [|y t]] eqn:Hf; try discriminate Hlen.
    exists x. split.
    + assert (x ∈ filter P l) as Hx by (rewrite Hf; apply list_elem_of_here).
      apply list_elem_of_filter in Hx. tauto.
    + intros y [Hy HP].
      assert (y ∈ filter P l) as Hin by (apply list_elem_of_filter; tauto).
      rewrite Hf in Hin. apply list_elem_of_singleton in Hin. congruence.
  - intros (x & [Hx HP] & Huniq).
    assert (forall y, y ∈ filter P l -> x = y) as Hall.
    { intros y Hy. apply list_elem_of_filter in Hy. apply Huniq. tauto. }
    assert (x ∈ filter P l) as Hin by (apply list_elem_of_filter; tauto).
    pose proof (NoDup_filter P l Hnd) as Hnd'.
    destruct (filter P l) as [|a [|b t]]; [by apply not_elem_of_nil in Hin|reflexivity|].
    exfalso. apply NoDup_cons_1_1 in Hnd'. apply Hnd'.
    rewrite <- (Hall a) by apply list_elem_of_here.
    rewrite (Hall b) at 1 by (apply list_elem_of_further, list_elem_of_here).
    apply list_elem_of_here.
Qed.

Lemma Map_keys_set {V} (m : Map V) (key : string) (v : V) :
  Map_keys (Map_set m key v) =
    if bool_decide (key ∈ Map_keys m) then Map_keys m else Map_keys m ++ [key].
Proof.
  unfold Map_keys. induction m as [|[k w] m IH]; [reflexivity|]. cbn [Map_set map fst].
  destruct (String.eqb_spec k key) as [->|Hne]; cbn [map fst].
  - rewrite bool_decide_eq_true_2 by apply list_elem_of_here. reflexivity.
  - rewrite IH. destruct (bool_decide (key ∈ map fst m)) eqn:Hin.
    + apply bool_decide_eq_true in Hin.
      rewrite bool_decide_eq_true_2 by (by apply list_elem_of_further). reflexivity.
    + apply bool_decide_eq_false in Hin.
      rewrite bool_decide_eq_false_2; [reflexivity|].
      intros [?|?]%elem_of_cons; congruence.
Qed.

Lemma Map_wf_set {V} (m : Map V) (key : string) (v : V) :
  Map_wf m -> Map_wf (Map_set m key v).
Proof.
  unfold Map_wf. intros Hwf. rewrite Map_keys_set. case_bool_decide as Hin; [exact Hwf|].
  apply NoDup_app. split; [exact Hwf|]. split; [|apply NoDup_singleton].
  intros k Hk Hk'. apply list_elem_of_singleton in Hk'. congruence.
Qed.

Lemma Map_keys_setUuid (temp : Map RepositoryInfo) :
  Map_keys (map setUuid temp) = Map_keys temp.
Proof.
  unfold Map_keys. induction temp as [|[k r] temp IH]; [reflexivity|].
  cbn [map fst setUuid]. by rewrite IH.
Qed.

(** The repositories of a [ServerInfo] that was constructed are a map:
    no key occurs twice. *)
Lemma new_ServerInfo_wf `{JsBuiltins} `{UtilJson} (obj : json) (info : ServerInfo) :
  new_ServerInfo obj = Ok info -> Map_wf (repositories info).
Proof.
  unfold new_ServerInfo, parseRepositoriesInfo, mbind, Result_bind.
  destruct (verifyObjectAsMap obj new_RepositoryInfo) as [result|e]; [|discriminate].
  cbn [bind try_catch]. intros [= <-]. cbn [repositories].
  assert (forall temp : Map RepositoryInfo, Map_wf temp ->
            Map_wf (fold_left addRepository result temp)) as Hfold.
  { induction result as [|[key repository] result IH]; intros temp Hwf; [exact Hwf|].
    cbn [fold_left]. apply IH. unfold addRepository.
    generalize (Map_wf_set temp key repository Hwf).
    generalize (Map_set temp key repository).
    induction (nodes repository) as [|key2 keys IHk]; intros temp' Hwf'; [exact Hwf'|].
    cbn [fold_left]. apply IHk. unfold addNode.
    destruct (String.eqb key2 key); [exact Hwf'|by apply Map_wf_set]. }
  specialize (Hfold [] (NoDup_nil_2 (A := string))).
  unfold Map_wf in *. by rewrite Map_keys_setUuid.
Qed.

(** C9.  [getNode] throws unless exactly one repository key starts with
    [nodeKey]; when it returns, it returns the entry stored under
    [nodeKey] itself.  So for a [nodeKey] that is a strict prefix of
    exactly one key and is not a key, the check passes and the result is
    [undefined]. *)
Theorem getNode_returns_own_entry `{JsBuiltins} :
  (forall (this : ServerInfo) (nodeKey : string),
     Map_wf (repositories this) ->
     ((exists e, getNode this nodeKey = Throw e) <->
        ~ (exists! key, key ∈ Map_keys (repositories this) /\ startsWith key nodeKey = true)) /\
     (forall r, getNode this nodeKey = Ok r -> r = Map_get (repositories this) nodeKey)) /\
  (exists (this : ServerInfo) (nodeKey : string),
     Map_wf (repositories this) /\
     (exists! key, key ∈ Map_keys (repositories this) /\ startsWith key nodeKey = true) /\
     (forall key, key ∈ Map_keys (repositories this) -> startsWith key nodeKey = true ->
        nodeKey <> key) /\
     (nodeKey ∉ Map_keys (repositories this)) /\
     getNode this nodeKey = Ok None).
Proof.
  split.
  - intros this nodeKey Hwf. unfold getNode.
    pose proof (filter_one_unique (fun key => startsWith key nodeKey = true)
                  (Map_keys (repositories this)) Hwf) as Huniq.
    destruct (Nat.eqb_spec
      (length (filter (fun key => startsWith key nodeKey = true)
                 (Map_keys (repositories this)))) 1) as [Hlen|Hlen]; cbn [negb].
    + split; [split|].
      * intros [e He]. discriminate He.
      * intros Hn. exfalso. apply Hn, Huniq, Hlen.
      * intros r Hr. congruence.
    + split; [split|].
      * intros _ Hex. apply Hlen, Huniq, Hex.
      * intros _. eauto.
      * intros r Hr. discriminate Hr.
  - exists {| repositories := [("abcdef", RepositoryInfo_fields)] |}, "abc".
    assert (forall key : string, key ∈ ["abcdef"] -> key = "abcdef") as Hone.
    { intros key Hk. by apply list_elem_of_singleton in Hk. }
    cbn [repositories Map_keys map fst].
    split; [apply NoDup_singleton|].
    split; [|split; [|split]].
    + exists "abcdef". split; [split; [apply list_elem_of_here|reflexivity]|].
      intros key [Hk _]. symmetry. by apply Hone.
    + intros key Hk _ E. apply Hone in Hk. subst key. discriminate E.
    + intros Hk. apply Hone in Hk. discriminate Hk.
    + reflexivity.
Qed.

(** *** The caches of [getServerInfo] and [getShardedVolume] *)

Section Caches.
Context `{JsBuiltins} `{UtilJson}.




















End Caches.


(** A session against the example server: three calls of
    [getServerInfo], the reply arriving after the second one, then two
    [getShardedVolume] callbacks; and the node key [abcd], which is a
    prefix of one repository key and not a key. *)
Section Samples.
#[local] Existing Instance exampleBuiltins.
#[local] Existing Instance exampleUtilJson.

Example caches_samples :
  let urls := ["http://emdata.example"] in
  let first := getServerInfo urls initial in
  let second := getServerInfo urls first.2 in
  let replied := settle first.1 (Ok (JObj [("abcdef", example_repository)])) second.2 in
  let third := getServerInfo urls replied in
  (first.1, second.1, third.1) = (0, 0, 0)%nat /\
  length (serverInfoPromises third.2) = 1%nat /\
  parsed third.2 = [0%nat] /\
  match serverInfoPromises third.2 !! 0%nat with
  | Some (_, Fulfilled info) =>
      let volume := getShardedVolume_then urls "abcdef" "grayscale" "0" info third.2 in
      let again := getShardedVolume_then urls "abcdef" "grayscale" "0" info volume.2 in
      volume.1 = Ok 0%nat /\ again.1 = Ok 0%nat /\
      length (volumeSources again.2) = 1%nat /\
      Map_keys (repositories info) = ["abcdef"; "0123ab"] /\
      getNode info "abcd" = Ok None /\
      is_Ok (getShardedVolume_then urls "abcd" "grayscale" "0" info third.2).1 = false
  | _ => False
  end.
Proof. vm_compute. repeat split. Qed.

End Samples.

(** *** The sources of a volume, level by level *)

(** X4.  [VolumeDataInstanceInfo.getSources] returns one entry for every
    level, [numLevels] in all; the entry of level [n] is a single source
    whose parameters are the caller's with [level2] set to the digits of
    [n], with chunks of [64 x 64 x 64] voxels and the channel count and
    data type of the instance.  Sources of different levels differ in
    their parameters. *)
Theorem getSources_levels (this : VolumeDataInstanceInfo)
    (parameters : VolumeChunkSourceParameters) :
  length (getSources this parameters) = numLevels this /\
  (forall n, (n < numLevels this)%nat ->
     exists source,
       getSources this parameters !! n = Some [source] /\
       DvidFrontend.parameters source =
         {| baseUrls := baseUrls parameters; nodeKey := nodeKey parameters;
            dataInstanceKey := dataInstanceKey parameters;
            level2 := decimal (Z.of_nat n) |} /\
       chunkDataSize (spec source) = Vec3 64 64 64 /\
       spec_numChannels (spec source) = numChannels this /\
       spec_dataType (spec source) = dataType this) /\
  (forall n m source source',
     getSources this parameters !! n = Some [source] ->
     getSources this parameters !! m = Some [source'] ->
     DvidFrontend.parameters source = DvidFrontend.parameters source' -> n = m).
Proof.
  split; [|split].
  - unfold getSources. by rewrite length_map, length_seq.
  - intros n Hn. eexists. split; [by apply getSources_lookup|]. repeat split.
  - intros n m source source' Hn Hm E.
    assert (forall k s, getSources this parameters !! k = Some [s] ->
              level2 (DvidFrontend.parameters s) = decimal (Z.of_nat k)) as Hlevel.
    { intros k s Hk.
      assert (k < numLevels this)%nat as Hlt.
      { apply lookup_lt_Some in Hk. unfold getSources in Hk.
        by rewrite length_map, length_seq in Hk. }
      rewrite getSources_lookup in Hk by exact Hlt. by injection Hk as <-. }
    apply Hlevel in Hn, Hm. rewrite E, Hm in Hn. apply decimal_inj in Hn. lia.
Qed.

Section LevelNesting.
Local Open Scope Q_scope.

Lemma level_resolution_mono (R0 : Q) (n : nat) :
  0 < R0 -> level_resolution R0 (S n) < 2 ^ 128 -> level_resolution R0 n < 2 ^ 128.
Proof.
  intros HR. apply Qle_lt_trans. unfold level_resolution, Math_pow2.
  apply Qmult_le_l; [exact HR|]. rewrite <- Zle_Qle.
  apply Z.pow_le_mono_r; lia.
Qed.

Lemma Math_floor_half (a : Z) (n : nat) :
  Math_floor (inject_Z (a / 2 ^ Z.of_nat n) / 2) = inject_Z (a / 2 ^ Z.of_nat (S n)).
Proof.
  unfold Math_floor. change 2 with (inject_Z 2). rewrite Qfloor_div_inject_Z by lia.
  rewrite Z.div_div by (pose proof (pow2_pos n); lia).
  rewrite Nat2Z.inj_succ, Z.pow_succ_r by lia. do 2 f_equal. lia.
Qed.

Lemma Math_ceil_half (a : Z) (n : nat) :
  Math_ceil (inject_Z (- (- a / 2 ^ Z.of_nat n)) / 2) =
  inject_Z (- (- a / 2 ^ Z.of_nat (S n))).
Proof.
  unfold Math_ceil, Qceiling.
  assert (- (inject_Z (- (- a / 2 ^ Z.of_nat n)) / 2) ==
          inject_Z (- a / 2 ^ Z.of_nat n) / inject_Z 2) as E.
  { rewrite inject_Z_opp. change (inject_Z 2) with 2. field. }
  rewrite (Qfloor_comp _ _ E), Qfloor_div_inject_Z by lia.
  rewrite Z.div_div by (pose proof (pow2_pos n); lia).
  rewrite Nat2Z.inj_succ, Z.pow_succ_r by lia. do 3 f_equal. lia.
Qed.

(** X5.  Each level is the one below it halved, as long as its
    resolution is below [2^128]: the lower bound of level [n + 1] is
    the floor of half the lower bound of level [n], and its upper bound
    the ceiling of half the upper bound of level [n].  The bounds and
    the voxel size of the instance are values that a [Float32Array]
    holds. *)
Theorem getSources_levels_nest (this : VolumeDataInstanceInfo)
    (parameters : VolumeChunkSourceParameters) (n : nat) (Lx Ly Lz Ux Uy Uz : Z) :
  (S n < numLevels this)%nat ->
  0 < v0 (voxelSize this) -> 0 < v1 (voxelSize this) -> 0 < v2 (voxelSize this) ->
  float32_vec3 (voxelSize this) ->
  vol_lowerVoxelBound this = ivec3 Lx Ly Lz -> float32_vec3 (ivec3 Lx Ly Lz) ->
  vol_upperVoxelBound this = ivec3 Ux Uy Uz -> float32_vec3 (ivec3 Ux Uy Uz) ->
  level_resolution (v0 (voxelSize this)) (S n) < 2 ^ 128 ->
  level_resolution (v1 (voxelSize this)) (S n) < 2 ^ 128 ->
  level_resolution (v2 (voxelSize this)) (S n) < 2 ^ 128 ->
  exists fine coarse l u,
    getSources this parameters !! n = Some [fine] /\
    getSources this parameters !! S n = Some [coarse] /\
    lowerVoxelBound (spec fine) = Float32Array3_of l /\
    upperVoxelBound (spec fine) = Float32Array3_of u /\
    lowerVoxelBound (spec coarse) =
      Float32Array3_of (vec3_map (fun x => Math_floor (x / 2)) l) /\
    upperVoxelBound (spec coarse) =
      Float32Array3_of (vec3_map (fun x => Math_ceil (x / 2)) u).
Proof.
  intros Hn H0 H1 H2 HF HL HFL HU HFU R0 R1 R2.
  destruct (getSources_level_bounds this parameters n Lx Ly Lz Ux Uy Uz H0 H1 H2 HF HL HFL
              HU HFU (level_resolution_mono _ _ H0 R0) (level_resolution_mono _ _ H1 R1)
              (level_resolution_mono _ _ H2 R2))
    as (fine & Hfine & Hl & Hu).
  destruct (getSources_level_bounds this parameters (S n) Lx Ly Lz Ux Uy Uz H0 H1 H2 HF HL
              HFL HU HFU R0 R1 R2)
    as (coarse & Hcoarse & Hl' & Hu').
  exists fine, coarse. do 2 eexists.
  rewrite !getSources_lookup by lia. rewrite Hfine, Hcoarse.
  split; [reflexivity|]. split; [reflexivity|].
  split; [exact Hl|]. split; [exact Hu|].
  rewrite Hl', Hu'. unfold vec3_map, ivec3. cbn [v0 v1 v2].
  by rewrite !Math_floor_half, !Math_ceil_half.
Qed.

(** The example volume: level 1 from level 0. *)
Lemma getSources_levels_nest_example :
  exists fine coarse l u,
    getSources example_volume example_parameters !! 0%nat = Some [fine] /\
    getSources example_volume example_parameters !! 1%nat = Some [coarse] /\
    lowerVoxelBound (spec fine) = Float32Array3_of l /\
    upperVoxelBound (spec fine) = Float32Array3_of u /\
    lowerVoxelBound (spec coarse) =
      Float32Array3_of (vec3_map (fun x => Math_floor (x / 2)) l) /\
    upperVoxelBound (spec coarse) =
      Float32Array3_of (vec3_map (fun x => Math_ceil (x / 2)) u).
Proof.
  assert (float32_vec3 (Vec3 10 10 10)) as HF
    by (repeat split; apply (float32_small 10); reflexivity).
  assert (float32_vec3 (ivec3 0 0 0)) as HFL
    by (repeat split; apply float32_small; reflexivity).
  assert (float32_vec3 (ivec3 100 100 100)) as HFU
    by (repeat split; apply float32_small; reflexivity).
  apply (getSources_levels_nest example_volume example_parameters 0 0 0 0 100 100 100);
    [cbn; lia | reflexivity | reflexivity | reflexivity | exact HF | reflexivity | exact HFL
    | reflexivity | exact HFU | reflexivity | reflexivity | reflexivity].
Defined.

End LevelNesting.

Lemma floor_power_bounds (a : Z) (n : nat) :
  let d := (2 ^ Z.of_nat n)%Z in
  (a / d * d <= a < (a / d + 1) * d)%Z.
Proof.
  cbn zeta. pose proof (pow2_pos n) as Hd.
  pose proof (Z.div_mod a (2 ^ Z.of_nat n) ltac:(lia)).
  pose proof (Z.mod_pos_bound a (2 ^ Z.of_nat n) Hd). nia.
Qed.

Lemma ceiling_power_bounds (a : Z) (n : nat) :
  let d := (2 ^ Z.of_nat n)%Z in
  ((- (- a / d) - 1) * d < a <= - (- a / d) * d)%Z.
Proof.
  cbn zeta. pose proof (floor_power_bounds (- a) n) as H. cbn zeta in H. nia.
Qed.

(** X6.  The box of level [n], counted in voxels of the base level, is
    the smallest box with corners on multiples of [2^n] that contains the
    box of the instance, as long as the resolution of the level is below
    [2^128]: each lower bound [l] has [l * 2^n <= L < (l + 1) * 2^n],
    each upper bound [u] has [(u - 1) * 2^n < U <= u * 2^n], and a box
    that is not empty stays not empty.  The bounds and the voxel size of
    the instance are values that a [Float32Array] holds. *)
Theorem getSources_levels_cover (this : VolumeDataInstanceInfo)
    (parameters : VolumeChunkSourceParameters) (n : nat) (Lx Ly Lz Ux Uy Uz : Z) :
  (n < numLevels this)%nat ->
  (0 < v0 (voxelSize this))%Q -> (0 < v1 (voxelSize this))%Q -> (0 < v2 (voxelSize this))%Q ->
  float32_vec3 (voxelSize this) ->
  vol_lowerVoxelBound this = ivec3 Lx Ly Lz -> float32_vec3 (ivec3 Lx Ly Lz) ->
  vol_upperVoxelBound this = ivec3 Ux Uy Uz -> float32_vec3 (ivec3 Ux Uy Uz) ->
  (level_resolution (v0 (voxelSize this)) n < 2 ^ 128)%Q ->
  (level_resolution (v1 (voxelSize this)) n < 2 ^ 128)%Q ->
  (level_resolution (v2 (voxelSize this)) n < 2 ^ 128)%Q ->
  let d := (2 ^ Z.of_nat n)%Z in
  exists source lx ly lz ux uy uz,
    getSources this parameters !! n = Some [source] /\
    lowerVoxelBound (spec source) = Float32Array3_of (ivec3 lx ly lz) /\
    upperVoxelBound (spec source) = Float32Array3_of (ivec3 ux uy uz) /\
    (lx * d <= Lx < (lx + 1) * d /\ ly * d <= Ly < (ly + 1) * d /\
     lz * d <= Lz < (lz + 1) * d)%Z /\
    ((ux - 1) * d < Ux <= ux * d /\ (uy - 1) * d < Uy <= uy * d /\
     (uz - 1) * d < Uz <= uz * d)%Z /\
    ((Lx <= Ux -> lx <= ux) /\ (Ly <= Uy -> ly <= uy) /\ (Lz <= Uz -> lz <= uz))%Z.
Proof.
  intros Hn H0 H1 H2 HF HL HFL HU HFU R0 R1 R2 d.
  destruct (getSources_level_bounds this parameters n Lx Ly Lz Ux Uy Uz H0 H1 H2 HF HL HFL
              HU HFU R0 R1 R2)
    as (source & Hsource & Hl & Hu).
  exists source. do 6 eexists.
  rewrite getSources_lookup by exact Hn. rewrite Hsource.
  split; [reflexivity|]. split; [exact Hl|]. split; [exact Hu|].
  pose proof (pow2_pos n) as Hd.
  pose proof (floor_power_bounds Lx n) as Px. pose proof (floor_power_bounds Ly n) as Py.
  pose proof (floor_power_bounds Lz n) as Pz.
  pose proof (ceiling_power_bounds Ux n) as Qx. pose proof (ceiling_power_bounds Uy n) as Qy.
  pose proof (ceiling_power_bounds Uz n) as Qz.
  cbn zeta in Px, Py, Pz, Qx, Qy, Qz. subst d.
  repeat split; try lia; intros; apply (Z.mul_le_mono_pos_r _ _ _ Hd); lia.
Qed.

(** The example volume at level 1: the box [0, 100) becomes [0, 50). *)
Lemma getSources_levels_cover_example :
  exists source lx ly lz ux uy uz,
    getSources example_volume example_parameters !! 1%nat = Some [source] /\
    lowerVoxelBound (spec source) = Float32Array3_of (ivec3 lx ly lz) /\
    upperVoxelBound (spec source) = Float32Array3_of (ivec3 ux uy uz) /\
    (lx * 2 <= 0 < (lx + 1) * 2 /\ ly * 2 <= 0 < (ly + 1) * 2 /\
     lz * 2 <= 0 < (lz + 1) * 2)%Z /\
    ((ux - 1) * 2 < 100 <= ux * 2 /\ (uy - 1) * 2 < 100 <= uy * 2 /\
     (uz - 1) * 2 < 100 <= uz * 2)%Z /\
    ((0 <= 100 -> lx <= ux) /\ (0 <= 100 -> ly <= uy) /\ (0 <= 100 -> lz <= uz))%Z.
Proof.
  assert (float32_vec3 (Vec3 10 10 10)) as HF
    by (repeat split; apply (float32_small 10); reflexivity).
  assert (float32_vec3 (ivec3 0 0 0)) as HFL
    by (repeat split; apply float32_small; reflexivity).
  assert (float32_vec3 (ivec3 100 100 100)) as HFU
    by (repeat split; apply float32_small; reflexivity).
  apply (getSources_levels_cover example_volume example_parameters 1 0 0 0 100 100 100);
    [cbn; lia | reflexivity | reflexivity | reflexivity | exact HF | reflexivity | exact HFL
    | reflexivity | exact HFU | reflexivity | reflexivity | reflexivity].
Defined.

Lemma is_string_spec (x : json) (s : string) : is_string x s = true <-> x = JStr s.
Proof.
  destruct x; cbn [is_string]; try (split; [discriminate|intros [=]]).
  rewrite String.eqb_eq. split; [by intros ->|by intros [= ->]].
Qed.

Lemma new_VolumeDataInstanceInfo_fields `{UtilJson} (obj : json) (name : string)
    (base : DataInstanceBaseInfo) (volumeType_ : VolumeType) (keys : list string)
    (info : VolumeDataInstanceInfo) :
  new_VolumeDataInstanceInfo obj name base volumeType_ keys = Ok info ->
  vol_obj info = obj /\ vol_name info = name /\ vol_base info = base /\
  volumeType info = volumeType_ /\ numChannels info = 1%Z /\
  numLevels info = countLevels (list_to_set keys) name (S (length keys)) 1.
Proof.
  unfold new_VolumeDataInstanceInfo, mbind, Result_bind, bind. intros Hnew.
  repeat case_match; try discriminate. injection Hnew as <-. repeat split.
Qed.

Lemma new_TileDataInstanceInfo_fields `{JsBuiltins} `{UtilJson} (obj : json) (name : string)
    (base : DataInstanceBaseInfo) (info : TileDataInstanceInfo) :
  new_TileDataInstanceInfo obj name base = Ok info ->
  tile_obj info = obj /\ tile_name info = name /\ tile_base info = base /\
  encoding info = JPEG /\
  exists baseLevel minTileCoord maxTileCoord,
    Map_get (levels info) "0" = Some baseLevel /\
    tile_voxelSize info = resolution baseLevel /\
    tile_lowerVoxelBound info = vec3_multiply32 (tileSize baseLevel) minTileCoord /\
    tile_upperVoxelBound info = vec3_multiply32 (tileSize baseLevel) maxTileCoord.
Proof.
  unfold new_TileDataInstanceInfo, mbind, Result_bind, bind. intros Hnew.
  repeat case_match; try discriminate. injection Hnew as <-.
  cbn. repeat split. eauto 10.
Qed.

(** X7.  What [parseDataInstance] returns follows the type name of the
    instance: a volume of type [IMAGE] for [uint8blk] and [grayscale8], a
    volume of type [SEGMENTATION] for [labels64] and [labelblk], tiles for
    [imagetile]; the result carries the object and the name it was built
    from.  For any other type name it throws
    [DVID data type ... is not supported.] *)
Theorem parseDataInstance_kinds `{JsBuiltins} `{UtilJson} (obj : json) (name : string)
    (keys : list string) :
  (forall info : DataInstanceInfo,
     parseDataInstance obj name keys = Ok info ->
     match info with
     | VolumeInfo volume =>
         vol_obj volume = obj /\ vol_name volume = name /\
         (volumeType volume = IMAGE /\
            (typeName (vol_base volume) = JStr "uint8blk" \/
             typeName (vol_base volume) = JStr "grayscale8") \/
          volumeType volume = SEGMENTATION /\
            (typeName (vol_base volume) = JStr "labels64" \/
             typeName (vol_base volume) = JStr "labelblk"))
     | TileInfo tile =>
         tile_obj tile = obj /\ tile_name tile = name /\
         typeName (tile_base tile) = JStr "imagetile"
     end) /\
  (forall baseInfo : DataInstanceBaseInfo,
     is_Ok (verifyObject obj) = true ->
     verifyObjectProperty obj "Base" new_DataInstanceBaseInfo = Ok baseInfo ->
     typeName baseInfo ∉ map JStr ["uint8blk"; "grayscale8"; "imagetile"; "labels64"; "labelblk"] ->
     parseDataInstance obj name keys =
       Throw (new_Error ("DVID data type " +:+ JSON_stringify (typeName baseInfo) +:+
                         " is not supported."))).
Proof.
  split.
  - intros info. unfold parseDataInstance, mbind, Result_bind, bind.
    destruct (verifyObject obj); [|discriminate].
    destruct (verifyObjectProperty obj "Base" new_DataInstanceBaseInfo) as [baseInfo|];
      [|discriminate].
    destruct (is_string (typeName baseInfo) "uint8blk" ||
              is_string (typeName baseInfo) "grayscale8") eqn:Himage.
    { destruct (new_VolumeDataInstanceInfo obj name baseInfo IMAGE keys) as [volume|] eqn:Hv;
        [|discriminate].
      intros [= <-]. apply new_VolumeDataInstanceInfo_fields in Hv as (-> & -> & -> & -> & _).
      apply orb_true_iff in Himage. rewrite !is_string_spec in Himage. tauto. }
    destruct (is_string (typeName baseInfo) "imagetile") eqn:Htile.
    { destruct (new_TileDataInstanceInfo obj name baseInfo) as [tile|] eqn:Ht; [|discriminate].
      intros [= <-]. apply new_TileDataInstanceInfo_fields in Ht as (-> & -> & -> & _).
      apply is_string_spec in Htile. tauto. }
    destruct (is_string (typeName baseInfo) "labels64" ||
              is_string (typeName baseInfo) "labelblk") eqn:Hlabels; [|discriminate].
    destruct (new_VolumeDataInstanceInfo obj name baseInfo SEGMENTATION keys)
      as [volume|] eqn:Hv; [|discriminate].
    intros [= <-]. apply new_VolumeDataInstanceInfo_fields in Hv as (-> & -> & -> & -> & _).
    apply orb_true_iff in Hlabels. rewrite !is_string_spec in Hlabels. tauto.
  - intros baseInfo Hobj Hbase Hother.
    unfold parseDataInstance, mbind, Result_bind, bind.
    destruct (verifyObject obj); [|discriminate]. rewrite Hbase.
    assert (forall s, s ∈ ["uint8blk"; "grayscale8"; "imagetile"; "labels64"; "labelblk"] ->
              is_string (typeName baseInfo) s = false) as Hno.
    { intros s Hs. destruct (is_string (typeName baseInfo) s) eqn:E; [|reflexivity].
      apply is_string_spec in E. exfalso. apply Hother. rewrite E.
      by apply (list_elem_of_fmap_2 JStr). }
    rewrite !Hno by set_solver. reflexivity.
Qed.

(** X8.  A [TileDataInstanceInfo] that was constructed has a level
    ["0"], its voxel size is the resolution of that level, and its
    encoding is JPEG.  Its bounds are what
    [vec3.multiply(vec3.create(), tileSize, coord)] stores for the tile
    size of that level and the [MinTileCoord] and [MaxTileCoord] that
    were parsed, each product rounded to a 32-bit float (stated for
    products that are zero or of a magnitude from [2^-126] to [2^126]).
    The constructor throws [Level 0 is not defined.] when the levels
    hold no ["0"], before it looks at the tile coordinates, and
    [Unsupported tile encoding: ...] for every encoding other than the
    number 2. *)
Theorem new_TileDataInstanceInfo_guarantees `{JsBuiltins} `{UtilJson} (obj : json)
    (name : string) (base : DataInstanceBaseInfo) :
  (forall info : TileDataInstanceInfo,
     new_TileDataInstanceInfo obj name base = Ok info ->
     encoding info = JPEG /\
     exists extended baseLevel minTileCoord maxTileCoord,
       verifyObjectProperty obj "Extended" verifyObject = Ok extended /\
       verifyObjectProperty extended "Levels" (fun x => verifyObjectAsMap x new_TileLevelInfo)
         = Ok (levels info) /\
       Map_get (levels info) "0" = Some baseLevel /\
       verifyObjectProperty extended "MinTileCoord"
         (fun x => parseFixedLengthArray vec3_create x verifyInt) = Ok minTileCoord /\
       verifyObjectProperty extended "MaxTileCoord"
         (fun x => parseFixedLengthArray vec3_create x verifyInt) = Ok maxTileCoord /\
       tile_voxelSize info = resolution baseLevel /\
       (products_in_float32_range (tileSize baseLevel) minTileCoord ->
        Float32Array3_multiply (Float32Array3_of (tileSize baseLevel))
          (Float32Array3_of minTileCoord) = Float32Array3_of (tile_lowerVoxelBound info)) /\
       (products_in_float32_range (tileSize baseLevel) maxTileCoord ->
        Float32Array3_multiply (Float32Array3_of (tileSize baseLevel))
          (Float32Array3_of maxTileCoord) = Float32Array3_of (tile_upperVoxelBound info))) /\
  (forall (extended : json) (levels_ : Map TileLevelInfo),
     verifyObjectProperty obj "Extended" verifyObject = Ok extended ->
     verifyObjectProperty extended "Levels" (fun x => verifyObjectAsMap x new_TileLevelInfo)
       = Ok levels_ ->
     Map_get levels_ "0" = None ->
     new_TileDataInstanceInfo obj name base = Throw (new_Error "Level 0 is not defined.")) /\
  (forall (extended : json) (levels_ : Map TileLevelInfo) (encodingNumber : json),
     verifyObjectProperty obj "Extended" verifyObject = Ok extended ->
     verifyObjectProperty extended "Levels" (fun x => verifyObjectAsMap x new_TileLevelInfo)
       = Ok levels_ ->
     is_Some (Map_get levels_ "0") ->
     is_Ok (verifyObjectProperty extended "MinTileCoord"
              (fun x => parseFixedLengthArray vec3_create x verifyInt)) = true ->
     is_Ok (verifyObjectProperty extended "MaxTileCoord"
              (fun x => parseFixedLengthArray vec3_create x verifyInt)) = true ->
     verifyObjectProperty extended "Encoding" (fun x => Ok x) = Ok encodingNumber ->
     (forall q, encodingNumber = JNum q -> ~ q == 2) ->
     new_TileDataInstanceInfo obj name base =
       Throw (new_Error ("Unsupported tile encoding: " +:+ JSON_stringify encodingNumber +:+
                         "."))).
Proof.
  split; [|split].
  - intros info. unfold new_TileDataInstanceInfo, mbind, Result_bind, bind.
    destruct (verifyObjectProperty obj "Extended" verifyObject) as [extended|] eqn:He;
      [|discriminate].
    destruct (verifyObjectProperty extended "Levels" _) as [levels_|] eqn:Hl; [|discriminate].
    destruct (Map_get levels_ "0") as [baseLevel|] eqn:Hzero; [|discriminate].
    destruct (verifyObjectProperty extended "MinTileCoord" _) as [minTileCoord|] eqn:Hmin;
      [|discriminate].
    destruct (verifyObjectProperty extended "MaxTileCoord" _) as [maxTileCoord|] eqn:Hmax;
      [|discriminate].
    destruct (verifyObjectProperty extended "Encoding" _) as [encodingNumber|];
      [|discriminate].
    destruct encodingNumber as [| | |q| | |]; try discriminate.
    destruct (Qeq_bool q 2); [|discriminate]. intros [= <-].
    split; [reflexivity|]. exists extended, baseLevel, minTileCoord, maxTileCoord.
    cbn [levels tile_voxelSize tile_lowerVoxelBound tile_upperVoxelBound].
    split; [reflexivity|]. split; [exact Hl|]. split; [exact Hzero|].
    split; [exact Hmin|]. split; [exact Hmax|]. split; [reflexivity|].
    split; intros (P0 & P1 & P2); unfold Float32Array3_multiply, Float32Array3_tabulate,
      Float32Array3_of, vec3_multiply32;
      cbn [Float32Array3_get f0 f1 f2 v0 v1 v2];
      by rewrite !multiply32_in_range.
  - intros extended levels_ He Hl Hzero.
    unfold new_TileDataInstanceInfo, mbind, Result_bind, bind. by rewrite He, Hl, Hzero.
  - intros extended levels_ encodingNumber He Hl [baseLevel Hzero] Hmin Hmax Henc Hnot.
    unfold new_TileDataInstanceInfo, mbind, Result_bind, bind. rewrite He, Hl, Hzero.
    destruct (verifyObjectProperty extended "MinTileCoord" _); [|discriminate].
    destruct (verifyObjectProperty extended "MaxTileCoord" _); [|discriminate].
    rewrite Henc. destruct encodingNumber as [| | |q| | |]; try reflexivity.
    destruct (Qeq_bool q 2) eqn:Hq; [|reflexivity].
    apply Qeq_bool_eq in Hq. by destruct (Hnot q eq_refl).
Qed.

(** *** The sources of a tile instance *)

(** Tiles of 512 voxels at two levels, three by three by one of them. *)
Definition example_imagetile : json :=
  JObj [("Base", JObj [("TypeName", JStr "imagetile")]);
        ("Extended",
         JObj [("Levels",
                JObj [("0", JObj [("Resolution", JArr [JNum 10; JNum 10; JNum 10]);
                                  ("TileSize", JArr [JNum 512; JNum 512; JNum 512])]);
                      ("1", JObj [("Resolution", JArr [JNum 20; JNum 20; JNum 20]);
                                  ("TileSize", JArr [JNum 512; JNum 512; JNum 512])])]);
               ("MinTileCoord", JArr [JNum 0; JNum 0; JNum 0]);
               ("MaxTileCoord", JArr [JNum 3; JNum 3; JNum 1]);
               ("Encoding", JNum 2)])].

Definition example_tile : TileDataInstanceInfo :=
  {| tile_obj := example_imagetile; tile_name := "tiles";
     tile_base := {| base_obj := JObj [("TypeName", JStr "imagetile")] |};
     encoding := JPEG; tile_voxelSize := Vec3 10 10 10;
     levels := [("0", {| resolution := Vec3 10 10 10; tileSize := Vec3 512 512 512 |});
                ("1", {| resolution := Vec3 20 20 20; tileSize := Vec3 512 512 512 |})];
     tile_lowerVoxelBound := ivec3 0 0 0;
     tile_upperVoxelBound := ivec3 1536 1536 512 |}.

Example example_tile_parsed :
  @parseDataInstance exampleBuiltins exampleUtilJson example_imagetile "tiles" ["tiles"] =
    Ok (TileInfo example_tile).
Proof. vm_compute. reflexivity. Qed.

Lemma TileDataInstanceInfo_getSources_lookup (this : TileDataInstanceInfo)
    (parameters : VolumeChunkSourceParameters) (n : nat) (level : string)
    (levelInfo : TileLevelInfo) :
  levels this !! n = Some (level, levelInfo) ->
  TileDataInstanceInfo_getSources this parameters !! n =
    Some (map (TileDataInstanceInfo_getSources_alternative this parameters level levelInfo)
            TILE_DIMS).
Proof.
  intros Hn. unfold TileDataInstanceInfo_getSources.
  change (map ?f (levels this)) with (f <$> levels this).
  unfold Map in Hn. by rewrite list_lookup_fmap, Hn.
Qed.

(** X9.  [TileDataInstanceInfo.getSources] returns one entry for every
    level, in the order of the map; the entry holds three alternatives,
    for the planes [0_1], [0_2] and [1_2].  Every entry of [TILE_DIMS]
    names all three dimensions, so the loop over [dims] overwrites the
    chunk size [1, 1, 1] in each of them: the three alternatives have one
    and the same specification, with the tile size of the level as chunk
    size, and differ in [dims] only. *)
Theorem TileDataInstanceInfo_getSources_alternatives (this : TileDataInstanceInfo)
    (parameters : VolumeChunkSourceParameters) :
  length (TileDataInstanceInfo_getSources this parameters) = length (levels this) /\
  (forall (n : nat) (level : string) (levelInfo : TileLevelInfo),
     levels this !! n = Some (level, levelInfo) ->
     exists xy xz yz,
       TileDataInstanceInfo_getSources this parameters !! n = Some [xy; xz; yz] /\
       tile_dims (tile_parameters xy) = "0_1" /\
       tile_dims (tile_parameters xz) = "0_2" /\
       tile_dims (tile_parameters yz) = "1_2" /\
       tile_spec xy = tile_spec xz /\ tile_spec xz = tile_spec yz /\
       chunkDataSize (tile_spec xy) = vec3_map Math_fround (tileSize levelInfo) /\
       (forall source, source ∈ [xy; xz; yz] ->
          tile_level (tile_parameters source) = level /\
          tile_level2 (tile_parameters source) = "0" /\
          tile_encoding (tile_parameters source) = encoding this /\
          tile_baseUrls (tile_parameters source) = baseUrls parameters /\
          tile_nodeKey (tile_parameters source) = nodeKey parameters /\
          tile_dataInstanceKey (tile_parameters source) = dataInstanceKey parameters)).
Proof.
  split.
  - unfold TileDataInstanceInfo_getSources. by rewrite length_map.
  - intros n level levelInfo Hn. do 3 eexists.
    split; [by apply TileDataInstanceInfo_getSources_lookup|].
    do 6 (split; [reflexivity|]).
    intros source Hs.
    repeat (apply elem_of_cons in Hs as [->|Hs]); [..|by apply elem_of_nil in Hs];
      repeat split.
Qed.

(** X10.  For a level whose resolution is the voxel size of the
    instance (level ["0"] is one), every alternative has the bounds of
    the instance itself: the rescaling factor [voxelSize / voxelSize] is
    one.  The bounds are integers below [2^24], the range a
    [Float32Array] stores exactly. *)
Theorem TileDataInstanceInfo_getSources_base_level (this : TileDataInstanceInfo)
    (parameters : VolumeChunkSourceParameters) (n : nat) (level : string)
    (levelInfo : TileLevelInfo) (Lx Ly Lz Ux Uy Uz : Z) :
  levels this !! n = Some (level, levelInfo) ->
  resolution levelInfo = tile_voxelSize this ->
  vec3_map Math_fround (tile_voxelSize this) = tile_voxelSize this ->
  ~ v0 (tile_voxelSize this) == 0 -> ~ v1 (tile_voxelSize this) == 0 ->
  ~ v2 (tile_voxelSize this) == 0 ->
  tile_lowerVoxelBound this = ivec3 Lx Ly Lz ->
  tile_upperVoxelBound this = ivec3 Ux Uy Uz ->
  (Z.abs Lx < 2 ^ 24 /\ Z.abs Ly < 2 ^ 24 /\ Z.abs Lz < 2 ^ 24)%Z ->
  (Z.abs Ux < 2 ^ 24 /\ Z.abs Uy < 2 ^ 24 /\ Z.abs Uz < 2 ^ 24)%Z ->
  exists alternatives,
    TileDataInstanceInfo_getSources this parameters !! n = Some alternatives /\
    forall source, source ∈ alternatives ->
      lowerVoxelBound (tile_spec source) = tile_lowerVoxelBound this /\
      upperVoxelBound (tile_spec source) = tile_upperVoxelBound this.
Proof.
  intros Hn Hres Hf32 H0 H1 H2 HL HU (Lx24 & Ly24 & Lz24) (Ux24 & Uy24 & Uz24).
  eexists. split; [by eapply TileDataInstanceInfo_getSources_lookup|].
  assert (forall (z : Z) (r : Q), (Z.abs z < 2 ^ 24)%Z -> ~ r == 0 ->
            Math_fround (Math_floor (Number_mul (inject_Z z) (Number_div r r))) = inject_Z z /\
            Math_fround (Math_ceil (Number_mul (inject_Z z) (Number_div r r))) = inject_Z z)
    as Hbound.
  { intros z r Hz Hr. rewrite Number_div_self by exact Hr.
    rewrite Number_mul_1_r by lia. unfold Math_floor, Math_ceil.
    rewrite Qfloor_Z, Qceiling_Z. split; by apply Math_fround_small. }
  destruct (tile_voxelSize this) as [r0 r1 r2] eqn:HR.
  cbn [vec3_map v0 v1 v2] in Hf32, H0, H1, H2. injection Hf32 as F0 F1 F2.
  intros source Hs. unfold TILE_DIMS in Hs. cbn [map] in Hs.
  repeat (apply elem_of_cons in Hs as [->|Hs]); [..|by apply elem_of_nil in Hs];
    unfold TileDataInstanceInfo_getSources_alternative;
    rewrite Hres, HL, HU, HR;
    cbn [fold_left vec3_set vec3_get vec3_clone v0 v1 v2 tile_spec lowerVoxelBound
         upperVoxelBound vec3_tabulate ivec3];
    rewrite F0, F1, F2; unfold vec3_tabulate, ivec3; cbn [vec3_get v0 v1 v2];
    rewrite (proj1 (Hbound Lx r0 Lx24 H0)), (proj1 (Hbound Ly r1 Ly24 H1)),
      (proj1 (Hbound Lz r2 Lz24 H2)), (proj2 (Hbound Ux r0 Ux24 H0)),
      (proj2 (Hbound Uy r1 Uy24 H1)), (proj2 (Hbound Uz r2 Uz24 H2));
    split; reflexivity.
Qed.

(** The example tiles at level ["0"]. *)
Lemma TileDataInstanceInfo_getSources_base_level_example :
  exists alternatives,
    TileDataInstanceInfo_getSources example_tile example_parameters !! 0%nat
      = Some alternatives /\
    forall source, source ∈ alternatives ->
      lowerVoxelBound (tile_spec source) = ivec3 0 0 0 /\
      upperVoxelBound (tile_spec source) = ivec3 1536 1536 512.
Proof.
  apply (TileDataInstanceInfo_getSources_base_level example_tile example_parameters 0 "0"
           {| resolution := Vec3 10 10 10; tileSize := Vec3 512 512 512 |}
           0 0 0 1536 1536 512);
    try reflexivity; try (intros E; discriminate E); cbn; lia.
Defined.

(** The alternatives of the example tiles at level ["1"]: chunks of one
    tile, a layout twice as coarse, and half the bounds. *)
Example TileDataInstanceInfo_getSources_samples :
  match TileDataInstanceInfo_getSources example_tile example_parameters !! 1%nat with
  | Some [xy; xz; yz] =>
      map (fun source => tile_dims (tile_parameters source)) [xy; xz; yz]
        = ["0_1"; "0_2"; "1_2"] /\
      tile_level (tile_parameters xy) = "1" /\
      chunkDataSize (tile_spec xy) = ivec3 512 512 512 /\
      chunkLayout (tile_spec xy) = ivec3 10240 10240 10240 /\
      lowerVoxelBound (tile_spec xy) = ivec3 0 0 0 /\
      upperVoxelBound (tile_spec xy) = ivec3 768 768 256
  | _ => False
  end.
Proof. vm_compute. repeat split. Qed.

(** *** [parseRepositoriesInfo]: one entry for every node *)

Lemma elem_of_Map_keys_set {V} (m : Map V) (key : string) (v : V) (k : string) :
  k ∈ Map_keys (Map_set m key v) <-> k = key \/ k ∈ Map_keys m.
Proof.
  rewrite Map_keys_set. case_bool_decide as Hin.
  - split; [tauto|]. intros [->|?]; assumption.
  - rewrite elem_of_app, list_elem_of_singleton. tauto.
Qed.

Lemma Map_keys_addNodes (key : string) (info : RepositoryInfo) (keys : list string) :
  forall (temp : Map RepositoryInfo) (k : string),
  k ∈ Map_keys (fold_left (addNode key info) keys temp) <->
  k ∈ Map_keys temp \/ (k ∈ keys /\ k <> key).
Proof.
  induction keys as [|key2 keys IH]; intros temp k; cbn [fold_left].
  - split; [tauto|]. intros [?|[Hk _]]; [assumption|]. by apply elem_of_nil in Hk.
  - rewrite IH. unfold addNode. destruct (String.eqb_spec key2 key) as [->|Hne].
    + rewrite elem_of_cons. split; [tauto|]. intros [?|[[->|?] ?]]; tauto.
    + rewrite elem_of_Map_keys_set, elem_of_cons. split; [|tauto].
      intros [[->|?]|[? ?]]; tauto.
Qed.

Lemma Map_keys_addRepository (temp : Map RepositoryInfo) (key : string)
    (info : RepositoryInfo) (k : string) :
  k ∈ Map_keys (addRepository temp (key, info)) <->
  k ∈ Map_keys temp \/ k = key \/ k ∈ nodes info.
Proof.
  unfold addRepository. rewrite Map_keys_addNodes, elem_of_Map_keys_set.
  destruct (decide (k = key)); tauto.
Qed.

Lemma Map_keys_addRepositories (result : Map RepositoryInfo) :
  forall (temp : Map RepositoryInfo) (k : string),
  k ∈ Map_keys (fold_left addRepository result temp) <->
  k ∈ Map_keys temp \/
  exists key info, (key, info) ∈ result /\ (k = key \/ k ∈ nodes info).
Proof.
  induction result as [|[key info] result IH]; intros temp k; cbn [fold_left].
  - split; [tauto|]. intros [?|(? & ? & Hin & _)]; [assumption|]. by apply elem_of_nil in Hin.
  - rewrite IH, Map_keys_addRepository. split.
    + intros [[?|Hk]|(key' & info' & Hin & Hk)]; [by left|..].
      * right. exists key, info. split; [apply list_elem_of_here|exact Hk].
      * right. exists key', info'. split; [by apply list_elem_of_further|exact Hk].
    + intros [?|(key' & info' & Hin & Hk)]; [tauto|].
      apply elem_of_cons in Hin as [[= -> ->]|Hin]; [tauto|]. right. eauto.
Qed.

(** An entry of [temp] stands for the node [k] of a repository of
    [result] and shares its fields. *)
Definition entry_of (result : Map RepositoryInfo) (k : string) (r : RepositoryInfo) : Prop :=
  exists key info,
    (key, info) ∈ result /\ (k = key \/ k ∈ nodes info) /\
    alias r = alias info /\ description r = description info /\
    errors r = errors info /\ dataInstances r = dataInstances info.

Lemma entry_of_addNodes (result : Map RepositoryInfo) (key : string) (info : RepositoryInfo)
    (keys : list string) :
  (key, info) ∈ result -> keys ⊆ nodes info ->
  forall temp : Map RepositoryInfo,
  (forall k r, (k, r) ∈ temp -> entry_of result k r) ->
  forall k r, (k, r) ∈ fold_left (addNode key info) keys temp -> entry_of result k r.
Proof.
  intros Hin. induction keys as [|key2 keys IH]; intros Hsub temp Htemp; [exact Htemp|].
  cbn [fold_left]. apply IH; [set_solver|]. unfold addNode.
  destruct (String.eqb key2 key); [exact Htemp|].
  intros k r [[-> ->]|Hk]%elem_of_Map_set; [|by apply Htemp].
  exists key, info. split; [exact Hin|]. split; [right; set_solver|]. repeat split.
Qed.

Lemma entry_of_addRepositories (result : Map RepositoryInfo) (rest : Map RepositoryInfo) :
  rest ⊆ result ->
  forall temp : Map RepositoryInfo,
  (forall k r, (k, r) ∈ temp -> entry_of result k r) ->
  forall k r, (k, r) ∈ fold_left addRepository rest temp -> entry_of result k r.
Proof.
  induction rest as [|[key info] rest IH]; intros Hsub temp Htemp; [exact Htemp|].
  cbn [fold_left]. apply IH; [set_solver|].
  assert ((key, info) ∈ result) as Hin by set_solver.
  unfold addRepository. apply entry_of_addNodes; [exact Hin|done|].
  intros k r [[-> ->]|Hk]%elem_of_Map_set; [|by apply Htemp].
  exists key, info. split; [exact Hin|]. split; [by left|]. repeat split.
Qed.

Lemma elem_of_setUuid (temp : Map RepositoryInfo) (k : string) (r : RepositoryInfo) :
  (k, r) ∈ map setUuid temp ->
  uuid r = Some k /\
  exists r', (k, r') ∈ temp /\ alias r = alias r' /\ description r = description r' /\
             errors r = errors r' /\ dataInstances r = dataInstances r' /\
             nodes r = nodes r'.
Proof.
  intros Hin. apply (list_elem_of_fmap_1 setUuid) in Hin as ([k' r'] & E & Hin).
  cbn [setUuid] in E. injection E as -> ->. cbn. split; [reflexivity|].
  exists r'. repeat split. exact Hin.
Qed.

Lemma parseRepositoriesInfo_Ok `{JsBuiltins} `{UtilJson} (obj : json)
    (repos : Map RepositoryInfo) :
  parseRepositoriesInfo obj = Ok repos ->
  exists result,
    verifyObjectAsMap obj new_RepositoryInfo = Ok result /\
    repos = map setUuid (fold_left addRepository result []).
Proof.
  unfold parseRepositoriesInfo, mbind, Result_bind.
  destruct (verifyObjectAsMap obj new_RepositoryInfo) as [result|e]; [|discriminate].
  cbn [bind try_catch]. intros [= <-]. eauto.
Qed.

(** X11.  [parseRepositoriesInfo] never fails once the reply has been
    validated.  Its keys are the repository keys together with all nodes
    of their DAGs, and the entry of a key has the alias, description,
    errors and data instances of a repository that has this key as its
    own key or among its nodes. *)
Theorem parseRepositoriesInfo_nodes `{JsBuiltins} `{UtilJson} (obj : json)
    (result : Map RepositoryInfo) :
  verifyObjectAsMap obj new_RepositoryInfo = Ok result ->
  exists repos,
    parseRepositoriesInfo obj = Ok repos /\
    (forall k, k ∈ Map_keys repos <->
       exists key info, (key, info) ∈ result /\ (k = key \/ k ∈ nodes info)) /\
    (forall k r, (k, r) ∈ repos ->
       exists key info,
         (key, info) ∈ result /\ (k = key \/ k ∈ nodes info) /\
         alias r = alias info /\ description r = description info /\
         errors r = errors info /\ dataInstances r = dataInstances info).
Proof.
  intros Hresult. eexists. split; [|split].
  - unfold parseRepositoriesInfo, mbind, Result_bind. rewrite Hresult. reflexivity.
  - intros k. rewrite Map_keys_setUuid, Map_keys_addRepositories.
    split; [|by right]. intros [Hk|?]; [|assumption]. by apply elem_of_nil in Hk.
  - intros k r Hin. apply elem_of_setUuid in Hin as (_ & r' & Hin & -> & -> & -> & -> & _).
    apply (entry_of_addRepositories result result) in Hin; [exact Hin|done|].
    intros k' r'' Hk. by apply elem_of_nil in Hk.
Qed.

(** The example repository under the key [abcdef]: its second node
    [0123ab] becomes a key, with the same data instances. *)
Lemma parseRepositoriesInfo_nodes_example :
  exists repos,
    @parseRepositoriesInfo exampleBuiltins exampleUtilJson
      (JObj [("abcdef", example_repository)]) = Ok repos /\
    "0123ab" ∈ Map_keys repos /\
    "0123" ∉ Map_keys repos.
Proof.
  pose (result :=
    match @verifyObjectAsMap exampleUtilJson _ (JObj [("abcdef", example_repository)])
            (@new_RepositoryInfo exampleBuiltins exampleUtilJson) with
    | Ok result => result
    | Throw _ => []
    end).
  destruct (@parseRepositoriesInfo_nodes exampleBuiltins exampleUtilJson
              (JObj [("abcdef", example_repository)]) result)
    as (repos & Hrepos & Hkeys & _); [vm_compute; reflexivity|].
  exists repos. split; [exact Hrepos|]. split.
  - apply Hkeys. eexists _, _. split; [apply list_elem_of_here|].
    right. vm_compute. apply list_elem_of_further, list_elem_of_here.
  - intros (key & info & Hin & Hk)%Hkeys.
    apply list_elem_of_singleton in Hin. injection Hin as -> ->.
    destruct Hk as [Hk|Hk]; [discriminate Hk|].
    vm_compute in Hk. repeat (apply elem_of_cons in Hk as [Hk|Hk]; [discriminate Hk|]).
    by apply elem_of_nil in Hk.
Defined.

(** X12.  In a [ServerInfo] that was constructed every entry carries
    its own key as [uuid].  So the repository [getNode] returns for
    [nodeKey] has the uuid [nodeKey], and a [getShardedVolume] callback
    that succeeds caches its volume source under the node key it was
    asked for; a source it creates has the base URLs, node key, data
    instance and level of the call. *)
Theorem new_ServerInfo_uuid `{JsBuiltins} `{UtilJson} (obj : json) (info : ServerInfo) :
  new_ServerInfo obj = Ok info ->
  (forall key r, (key, r) ∈ repositories info -> uuid r = Some key) /\
  (forall nodeKey r, getNode info nodeKey = Ok (Some r) -> uuid r = Some nodeKey) /\
  (forall (baseUrls : list string) (nodeKey dataInstanceKey level2 : string) (s s' : State)
          (v : nat),
     getShardedVolume_then baseUrls nodeKey dataInstanceKey level2 info s = (Ok v, s') ->
     existingVolumes s' !! volumeKey baseUrls (Some nodeKey) dataInstanceKey level2 = Some v /\
     (existingVolumes s !! volumeKey baseUrls (Some nodeKey) dataInstanceKey level2 = None ->
      exists source,
        volumeSources s' = volumeSources s ++ [source] /\ v = length (volumeSources s) /\
        mv_baseUrls source = baseUrls /\ mv_nodeKey source = Some nodeKey /\
        mv_dataInstanceKey source = dataInstanceKey /\ mv_level2 source = level2)).
Proof.
  intros Hnew.
  assert (forall key r, (key, r) ∈ repositories info -> uuid r = Some key) as Hentries.
  { unfold new_ServerInfo, mbind, Result_bind in Hnew.
    destruct (parseRepositoriesInfo obj) as [repos|] eqn:Hparse; [|discriminate].
    injection Hnew as <-. cbn [repositories].
    apply parseRepositoriesInfo_Ok in Hparse as (result & _ & ->).
    intros key r Hin. by apply elem_of_setUuid in Hin as [? _]. }
  assert (forall nodeKey r, getNode info nodeKey = Ok (Some r) -> uuid r = Some nodeKey)
    as Hnode.
  { intros nodeKey r. unfold getNode. case_match; [discriminate|].
    intros [= Hget]. by apply Hentries, Map_get_elem_of. }
  split; [exact Hentries|]. split; [exact Hnode|].
  intros baseUrls nodeKey dataInstanceKey level2 s s' v. unfold getShardedVolume_then.
  destruct (getNode info nodeKey) as [[repositoryInfo|]|] eqn:Hget; try discriminate.
  rewrite (Hnode _ _ Hget).
  destruct (Map_get (dataInstances repositoryInfo) dataInstanceKey); [|discriminate].
  destruct (existingVolumes s !! _) eqn:Hc; intros [= <- <-].
  - split; [exact Hc|]. discriminate.
  - cbn [existingVolumes volumeSources]. split; [apply lookup_insert_eq|].
    intros _. eexists. split; [reflexivity|]. repeat split.
Qed.

(** The example server: the entry found for the node [0123ab] carries
    this key as its uuid. *)
Lemma new_ServerInfo_uuid_example :
  exists info r,
    @new_ServerInfo exampleBuiltins exampleUtilJson (JObj [("abcdef", example_repository)])
      = Ok info /\
    @getNode exampleBuiltins info "0123ab" = Ok (Some r) /\
    uuid r = Some "0123ab".
Proof.
  destruct (@new_ServerInfo exampleBuiltins exampleUtilJson
              (JObj [("abcdef", example_repository)])) as [info|e] eqn:Hinfo;
    [|vm_compute in Hinfo; discriminate Hinfo].
  destruct (@getNode exampleBuiltins info "0123ab") as [[r|]|e] eqn:Hr.
  - exists info, r. split; [reflexivity|]. split; [exact Hr|].
    exact (proj1 (proj2 (@new_ServerInfo_uuid exampleBuiltins exampleUtilJson _ info Hinfo))
             "0123ab" r Hr).
  - vm_compute in Hinfo. injection Hinfo as <-. vm_compute in Hr. discriminate Hr.
  - vm_compute in Hinfo. injection Hinfo as <-. vm_compute in Hr. discriminate Hr.
Defined.

(** X13.  [parseRepositoriesInfo], and with it [new ServerInfo], fails
    exactly when the validation of the reply fails; what it throws is a
    new [Error] with the message
    [Failed to parse DVID repositories info: ] followed by the message of
    the cause, and without the status of the cause. *)
Theorem parseRepositoriesInfo_failure `{JsBuiltins} `{UtilJson} (obj : json) :
  (forall e, parseRepositoriesInfo obj = Throw e ->
     exists parseError,
       verifyObjectAsMap obj new_RepositoryInfo = Throw parseError /\
       e = new_Error ("Failed to parse DVID repositories info: " +:+ message parseError) /\
       status e = None) /\
  (forall parseError,
     verifyObjectAsMap obj new_RepositoryInfo = Throw parseError ->
     parseRepositoriesInfo obj =
       Throw (new_Error ("Failed to parse DVID repositories info: " +:+ message parseError)) /\
     new_ServerInfo obj =
       Throw (new_Error ("Failed to parse DVID repositories info: " +:+ message parseError))).
Proof.
  unfold new_ServerInfo, parseRepositoriesInfo, mbind, Result_bind.
  destruct (verifyObjectAsMap obj new_RepositoryInfo) as [result|parseError];
    cbn [bind try_catch]; split.
  - discriminate.
  - discriminate.
  - intros e [= <-]. eauto.
  - intros e [= <-]. split; reflexivity.
Qed.

(** *** The [getShardedVolume] callback when it fails *)

(** X14.  The callback of [getShardedVolume] fails exactly when
    [getNode] fails or returns [undefined], or the repository has no data
    instance of the given name; in the last case the message is
    [Invalid data instance ...].  A failing callback leaves both caches
    as they were.  One that succeeds creates at most one volume
    source. *)
Theorem getShardedVolume_then_failure `{JsBuiltins} `{UtilJson} (baseUrls : list string)
    (nodeKey dataInstanceKey level2 : string) (serverInfo : ServerInfo) (s : State) :
  let outcome := getShardedVolume_then baseUrls nodeKey dataInstanceKey level2 serverInfo s in
  ((exists e, outcome.1 = Throw e) <->
     ~ exists repositoryInfo dataInstanceInfo,
         getNode serverInfo nodeKey = Ok (Some repositoryInfo) /\
         Map_get (dataInstances repositoryInfo) dataInstanceKey = Some dataInstanceInfo) /\
  (forall e, outcome.1 = Throw e -> outcome.2 = s) /\
  (forall repositoryInfo,
     getNode serverInfo nodeKey = Ok (Some repositoryInfo) ->
     Map_get (dataInstances repositoryInfo) dataInstanceKey = None ->
     outcome.1 = Throw (new_Error ("Invalid data instance " +:+ dataInstanceKey +:+ "."))) /\
  (forall v, outcome.1 = Ok v ->
     volumeSources outcome.2 = volumeSources s \/
     exists source, volumeSources outcome.2 = volumeSources s ++ [source] /\
                    v = length (volumeSources s)).
Proof.
  cbn zeta. unfold getShardedVolume_then.
  destruct (getNode serverInfo nodeKey) as [[repositoryInfo|]|e0] eqn:Hget.
  - destruct (Map_get (dataInstances repositoryInfo) dataInstanceKey) as [info|] eqn:Hinfo.
    + destruct (existingVolumes s !! _) eqn:Hc; cbn [fst snd volumeSources];
        (split; [split; [intros [e [=]]|intros Hn; exfalso; apply Hn; eauto]|]);
        (split; [discriminate|]); (split; [intros r [= <-]; congruence|]);
        intros v [= <-]; [by left|right; eauto].
    + cbn [fst snd]. split; [split; [|eauto]|].
      * intros _ (r & i & [= <-] & Hi). congruence.
      * split; [reflexivity|]. split; [reflexivity|]. discriminate.
  - cbn [fst snd]. split; [split; [|eauto]|].
    + intros _ (r & i & [=] & _).
    + split; [reflexivity|]. split; [discriminate|discriminate].
  - cbn [fst snd]. split; [split; [|eauto]|].
    + intros _ (r & i & [=] & _).
    + split; [reflexivity|]. split; [discriminate|discriminate].
Qed.


(** *** [getVolume] and the URLs it takes *)

(** The strings [urlPattern] matches. *)
Definition dvid_url (url scheme host node inst : string) : Prop :=
  scheme ∈ ["http"; "https"] /\ segment host /\ segment node /\ segment inst /\
  url = scheme +:+ "://" +:+ host +:+ "/" +:+ node +:+ "/" +:+ inst.

(** [(?:http|https):\/\/[^\/]+]: for [https] the first alternative
    matches too, and is given up when [:] does not follow. *)
Lemma first_match_base (scheme host v : string) :
  scheme ∈ ["http"; "https"] -> segment host -> stops (CNot ["/"%char]) v ->
  first_match (PSeq (PAlt (PLit "http") (PLit "https"))
                 (PSeq (PLit "://") (PPlus (CNot ["/"%char]))))
    (scheme +:+ "://" +:+ host) v.
Proof.
  intros Hscheme Hhost Hv.
  assert (first_match (PSeq (PLit "://") (PPlus (CNot ["/"%char]))) ("://" +:+ host) v)
    as Hrest by (apply first_match_PSeq; [apply first_match_PLit|by apply first_match_segment]).
  apply elem_of_cons in Hscheme as [->|Hscheme].
  - apply first_match_PSeq; [|exact Hrest]. apply first_match_PAlt_l, first_match_PLit.
  - apply list_elem_of_singleton in Hscheme as ->.
    intros caps k r Hk. rewrite append_assoc. cbn [pmatch].
    change ("https" +:+ ?x) with ("http" +:+ String "s" x) at 1.
    rewrite pmatch_PLit.
    change (pmatch (PLit "://") (String "s" ?x) ?c ?K) with (@None Captures).
    cbv iota. rewrite pmatch_PLit. by apply Hrest.
Qed.

Lemma urlPattern_match (url scheme host node inst : string) :
  dvid_url url scheme host node inst ->
  String_match url urlPattern =
    Some (<[3%nat := inst]> (<[2%nat := node]> (<[1%nat := scheme +:+ "://" +:+ host]> ∅))).
Proof.
  intros (Hscheme & Hhost & Hnode & Hinst & ->). unfold String_match, urlPattern.
  replace (scheme +:+ "://" +:+ host +:+ "/" +:+ node +:+ "/" +:+ inst)
    with ((scheme +:+ "://" +:+ host) +:+ "/" +:+ node +:+ "/" +:+ inst)
    by (by rewrite !append_assoc).
  rewrite pmatch_PSeq. apply pmatch_PGroup; [by apply first_match_base|]. cbv beta.
  rewrite pmatch_PSeq, pmatch_PLit, pmatch_PSeq.
  apply pmatch_PGroup; [by apply first_match_segment|]. cbv beta.
  rewrite pmatch_PSeq, pmatch_PLit.
  by apply pmatch_PGroup_end; [by apply first_match_segment|].
Qed.

Lemma urlPattern_derives (url : string) :
  derives urlPattern url -> exists scheme host node inst, dvid_url url scheme host node inst.
Proof.
  unfold urlPattern. intros H.
  apply derives_PSeq_inv in H as (base & rest & -> & Hbase & Hrest).
  apply derives_PGroup_inv, derives_PSeq_inv in Hbase as (scheme & rest1 & -> & Hscheme & Hhost).
  apply derives_PSeq_inv in Hhost as (sep & host & -> & Hsep & Hhost).
  apply derives_PLit in Hsep as ->. apply segment_PPlus in Hhost.
  apply derives_PSeq_inv in Hrest as (sep & rest2 & -> & Hsep & Hrest).
  apply derives_PLit in Hsep as ->.
  apply derives_PSeq_inv in Hrest as (node & rest3 & -> & Hnode & Hrest).
  apply derives_PGroup_inv, segment_PPlus in Hnode.
  apply derives_PSeq_inv in Hrest as (sep & inst & -> & Hsep & Hinst).
  apply derives_PLit in Hsep as ->. apply derives_PGroup_inv, segment_PPlus in Hinst.
  exists scheme, host, node, inst. unfold dvid_url. repeat (split; [try done|]).
  - apply derives_PAlt_inv in Hscheme as [->%derives_PLit| ->%derives_PLit].
    + apply list_elem_of_here.
    + apply list_elem_of_further, list_elem_of_here.
  - by rewrite !append_assoc.
Qed.

(** X26.  [getVolume] on a URL [scheme://host/node/instance], with the
    scheme [http] or [https] and a host, a node and an instance that are
    not empty and have no slash: it does not throw, and it is
    [getShardedVolume] with the one base URL [scheme://host], the node
    key [node], the data instance key [instance] and the level ['0']. *)
Theorem getVolume_valid `{JsBuiltins} `{UtilJson} (url scheme host node inst : string)
    (s : State) :
  dvid_url url scheme host node inst ->
  getVolume url s =
    let '(volume, s') := getShardedVolume [scheme +:+ "://" +:+ host] node inst "0" s in
    (Ok volume, s').
Proof.
  intros Hurl. unfold getVolume. rewrite (urlPattern_match _ _ _ _ _ Hurl). unfold group.
  rewrite lookup_insert_ne, lookup_insert_ne, lookup_insert by done.
  rewrite lookup_insert_ne, lookup_insert by done. rewrite lookup_insert. reflexivity.
Qed.

Lemma getVolume_valid_example :
  dvid_url "https://emdata.example.org:8700/a89e/grayscale"
    "https" "emdata.example.org:8700" "a89e" "grayscale" /\
  @getVolume exampleBuiltins exampleUtilJson
    "https://emdata.example.org:8700/a89e/grayscale" initial =
    let '(volume, s') :=
      @getShardedVolume exampleUtilJson ["https://emdata.example.org:8700"]
        "a89e" "grayscale" "0" initial in
    (Ok volume, s').
Proof.
  assert (dvid_url "https://emdata.example.org:8700/a89e/grayscale"
            "https" "emdata.example.org:8700" "a89e" "grayscale") as Hurl.
  { split; [apply list_elem_of_further, list_elem_of_here|].
    do 3 (split; [split; [discriminate|reflexivity]|]). reflexivity. }
  split; [exact Hurl|].
  exact (@getVolume_valid exampleBuiltins exampleUtilJson _ _ _ _ _ initial Hurl).
Defined.

(** X27.  [getVolume] throws [Invalid DVID URL: ...], with the URL as
    [JSON.stringify] prints it, exactly when the URL is not of the form
    [scheme://host/node/instance] above; it then leaves the caches as
    they are. *)
Theorem getVolume_invalid `{JsBuiltins} `{UtilJson} (url : string) (s : State) :
  (getVolume url s =
     (Throw (new_Error ("Invalid DVID URL: " +:+ JSON_stringify (JStr url) +:+ ".")), s) <->
   ~ exists scheme host node inst, dvid_url url scheme host node inst) /\
  (is_Ok (getVolume url s).1 = false -> (getVolume url s).2 = s).
Proof.
  unfold getVolume. destruct (String_match url urlPattern) as [m|] eqn:Hm.
  - split; [|by destruct (getShardedVolume _ _ _ _ s)].
    split.
    + by destruct (getShardedVolume _ _ _ _ s).
    + intros Hno. destruct Hno. by eapply urlPattern_derives, String_match_sound.
  - split; [|done]. split; [|done].
    intros _ (scheme & host & node & inst & Hurl).
    by rewrite (urlPattern_match _ _ _ _ _ Hurl) in Hm.
Qed.
End DvidFrontend.

(** ** Requests and chunk identifiers shared by the back ends *)

Module Backend.

(** [sendHttpRequest(openShardedHttpRequest(baseUrls, path), responseType)]:
    the request a [download] issues. *)
Inductive ResponseType := arraybuffer | json_response | text.

Record Request := {
  request_baseUrls : list string;
  request_path : string;
  request_responseType : ResponseType;
}.

(** [Uint64] of [util/uint64]: an unsigned 64-bit integer; its [toString]
    gives the decimal digits. *)
Definition Uint64 : Type := N.
Definition Uint64_toString (x : Uint64) : string := decimal (Z.of_N x).

End Backend.

Import Backend.

(** ** The DVID back end *)

Module DvidBackend.

Record SkeletonSourceParameters := {
  baseUrls : list string;
  nodeKey : string;
  dataInstanceKey : string;
}.

Record SkeletonChunk := { objectId : Uint64 }.

Definition SkeletonSource_path (params : SkeletonSourceParameters) (chunk : SkeletonChunk)
    : string :=
  "/api/node/" +:+ nodeKey params +:+ "/" +:+ dataInstanceKey params +:+ "/key/" +:+
  Uint64_toString (objectId chunk) +:+ "_swc".


(** *** [VolumeChunkSource] and [TileChunkSource] *)

(** The chunk decoders of [sliceview/backend_chunk_decoders] that the
    file imports. *)
Inductive ChunkDecoder : Type :=
| decodeCompressedSegmentationChunk
| decodeJpegChunk
| decodeRawChunk.


(** The parameters of a volume source as the back end reads them (they
    are typed [any] there): [volumeType] is [None] when the property is
    neither [VolumeType.IMAGE] nor [VolumeType.SEGMENTATION], absent
    included. *)
Record VolumeChunkSourceParameters := {
  volume_baseUrls : list string;
  volume_nodeKey : string;
  volume_dataInstanceKey : string;
  volumeType : option DvidFrontend.VolumeType;
}.

Record VolumeChunkSource := {
  parameters : VolumeChunkSourceParameters;
  compressedSegmentationBlockSize : option vec3;
}.

Definition new_VolumeChunkSource (options_parameters : VolumeChunkSourceParameters)
    : VolumeChunkSource :=
  {| parameters := options_parameters;
     compressedSegmentationBlockSize :=
       match volumeType options_parameters with
       | Some DvidFrontend.SEGMENTATION => Some (vec3_fromValues 8 8 8)
       | _ => None
       end |}.

Definition getPath (chunkPosition chunkDataSize : vec3) (params : VolumeChunkSourceParameters)
    : string :=
  match volumeType params with
  | Some DvidFrontend.IMAGE =>
      "/api/node/" +:+ volume_nodeKey params +:+ "/" +:+ volume_dataInstanceKey params +:+
      "/raw/0_1_2/" +:+
      Number_toString (v0 chunkDataSize) +:+ "_" +:+ Number_toString (v1 chunkDataSize) +:+
      "_" +:+ Number_toString (v2 chunkDataSize) +:+ "/" +:+
      Number_toString (v0 chunkPosition) +:+ "_" +:+ Number_toString (v1 chunkPosition) +:+
      "_" +:+ Number_toString (v2 chunkPosition) +:+ "/jpeg"
  | _ =>
      let dataInstanceKey := volume_dataInstanceKey params in
      "/api/node/" +:+ volume_nodeKey params +:+ "/" +:+ dataInstanceKey +:+
      "/raw/0_1_2/" +:+
      Number_toString (v0 chunkDataSize) +:+ "_" +:+ Number_toString (v1 chunkDataSize) +:+
      "_" +:+ Number_toString (v2 chunkDataSize) +:+ "/" +:+
      Number_toString (v0 chunkPosition) +:+ "_" +:+ Number_toString (v1 chunkPosition) +:+
      "_" +:+ Number_toString (v2 chunkPosition) +:+ "?compression=googlegzip"
  end.

Definition getDecoder (params : VolumeChunkSourceParameters) : ChunkDecoder :=
  match volumeType params with
  | Some DvidFrontend.IMAGE => decodeJpegChunk
  | _ => decodeCompressedSegmentationChunk
  end.

Record VolumeChunk := {
  chunkGridPosition : vec3;
  chunkDataSize : option vec3;
}.

Section Download.
(** [computeChunkBounds] is inherited from [sliceview/backend]: it gives
    the position of the chunk and stores its size in the chunk. *)
Variable computeChunkBounds : VolumeChunk -> vec3 * vec3.

(** [VolumeChunkSource.download]: the request, and the decoder its
    response is handed to. *)
Definition VolumeChunkSource_download (this : VolumeChunkSource) (chunk : VolumeChunk)
    : Request * ChunkDecoder :=
  let params := parameters this in
  let '(chunkPosition, chunkDataSize) := computeChunkBounds chunk in
  let path := getPath chunkPosition chunkDataSize params in
  let decoder := getDecoder params in
  ({| request_baseUrls := volume_baseUrls params; request_path := path;
      request_responseType := arraybuffer |}, decoder).
End Download.

Record TileChunkSource := {
  tile_parameters : DvidFrontend.TileChunkSourceParameters;
  tile_spec_chunkDataSize : vec3;
}.

Definition TileChunkSource_path (params : DvidFrontend.TileChunkSourceParameters)
    (chunkGridPosition : vec3) : string :=
  ("/api/node/" +:+ DvidFrontend.tile_nodeKey params +:+ "/" +:+
   DvidFrontend.tile_dataInstanceKey params +:+ "/tile/") +:+
  (DvidFrontend.tile_dims params +:+ "/" +:+ DvidFrontend.tile_level params +:+ "/") +:+
  (Number_toString (v0 chunkGridPosition) +:+ "_" +:+
   Number_toString (v1 chunkGridPosition) +:+ "_" +:+
   Number_toString (v2 chunkGridPosition)).


(** *** Properties *)

Lemma getPath_integers (params : VolumeChunkSourceParameters) (x y z sx sy sz : Z) :
  safe_integer x -> safe_integer y -> safe_integer z ->
  safe_integer sx -> safe_integer sy -> safe_integer sz ->
  getPath (ivec3 x y z) (ivec3 sx sy sz) params =
    "/api/node/" +:+ volume_nodeKey params +:+ "/" +:+ volume_dataInstanceKey params +:+
    "/raw/0_1_2/" +:+ decimal sx +:+ "_" +:+ decimal sy +:+ "_" +:+ decimal sz +:+ "/" +:+
    decimal x +:+ "_" +:+ decimal y +:+ "_" +:+ decimal z +:+
    match volumeType params with
    | Some DvidFrontend.IMAGE => "/jpeg"
    | _ => "?compression=googlegzip"
    end.
Proof.
  intros Hx Hy Hz Hsx Hsy Hsz. unfold getPath, ivec3. cbn [v0 v1 v2].
  rewrite !Number_toString_safe_integer by assumption.
  destruct (volumeType params) as [[|]|]; reflexivity.
Qed.

Lemma ends_with_step (a t suffix : string) :
  (exists r, t = r +:+ suffix) -> exists r, a +:+ t = r +:+ suffix.
Proof. intros [r ->]. exists (a +:+ r). by rewrite append_assoc. Qed.

(** X15.  The decoder of a DVID volume source always fits the encoding
    its request path asks for: for the volume type [IMAGE] the path ends
    in [/jpeg] and the response goes to [decodeJpegChunk]; for every
    other volume type, an absent one included, the path ends in
    [?compression=googlegzip] and the response goes to
    [decodeCompressedSegmentationChunk].  [decodeRawChunk] is never
    selected.  The block size of the compressed segmentation is set
    exactly for the volume type [SEGMENTATION]; the response is always
    requested as an array buffer from the base URLs of the parameters. *)
Theorem VolumeChunkSource_decoder_fits_path
    (computeChunkBounds : VolumeChunk -> vec3 * vec3)
    (options_parameters : VolumeChunkSourceParameters) (chunk : VolumeChunk) :
  let this := new_VolumeChunkSource options_parameters in
  let '(request, decoder) := VolumeChunkSource_download computeChunkBounds this chunk in
  (volumeType options_parameters = Some DvidFrontend.IMAGE ->
     decoder = decodeJpegChunk /\
     exists resource, request_path request = resource +:+ "/jpeg") /\
  (volumeType options_parameters <> Some DvidFrontend.IMAGE ->
     decoder = decodeCompressedSegmentationChunk /\
     exists resource, request_path request = resource +:+ "?compression=googlegzip") /\
  decoder <> decodeRawChunk /\
  (is_Some (compressedSegmentationBlockSize this) <->
     volumeType options_parameters = Some DvidFrontend.SEGMENTATION) /\
  request_responseType request = arraybuffer /\
  request_baseUrls request = volume_baseUrls options_parameters.
Proof.
  cbn zeta. unfold VolumeChunkSource_download, new_VolumeChunkSource. cbn [parameters].
  destruct (computeChunkBounds chunk) as [chunkPosition size].
  unfold getPath, getDecoder. cbn [compressedSegmentationBlockSize request_path
    request_responseType request_baseUrls].
  destruct (volumeType options_parameters) as [[|]|].
  - split; [intros _; split; [reflexivity|repeat apply ends_with_step; by exists EmptyString]|].
    split; [intros E; by destruct E|]. split; [discriminate|].
    split; [split; [intros [? [=]]|discriminate]|]. split; reflexivity.
  - split; [discriminate|].
    split; [intros _; split; [reflexivity|repeat apply ends_with_step; by exists EmptyString]|].
    split; [discriminate|]. split; [split; eauto|]. split; reflexivity.
  - split; [discriminate|].
    split; [intros _; split; [reflexivity|repeat apply ends_with_step; by exists EmptyString]|].
    split; [discriminate|].
    split; [split; [intros [? [=]]|discriminate]|]. split; reflexivity.
Qed.
(** X16.  Two chunks of a DVID volume source that differ in position or
    size are requested under different paths (coordinates and sizes are
    integers below [2^53]). *)
Theorem getPath_distinct (params : VolumeChunkSourceParameters)
    (x y z sx sy sz x' y' z' sx' sy' sz' : Z) :
  Forall safe_integer [x; y; z; sx; sy; sz; x'; y'; z'; sx'; sy'; sz'] ->
  (x, y, z, sx, sy, sz) <> (x', y', z', sx', sy', sz') ->
  getPath (ivec3 x y z) (ivec3 sx sy sz) params <>
  getPath (ivec3 x' y' z') (ivec3 sx' sy' sz') params.
Proof.
  intros Hsafe Hne E. apply Hne. clear Hne.
  repeat (apply Forall_cons in Hsafe as [? Hsafe]).
  rewrite !getPath_integers in E by assumption.
  do 5 (apply String.app_inj in E).
  apply decimal_separator_unique in E as [-> E]; [|reflexivity|discriminate].
  apply decimal_separator_unique in E as [-> E]; [|reflexivity|discriminate].
  apply decimal_separator_unique in E as [-> E]; [|reflexivity|discriminate].
  apply decimal_separator_unique in E as [-> E]; [|reflexivity|discriminate].
  apply decimal_separator_unique in E as [-> E]; [|reflexivity|discriminate].
  destruct (volumeType params) as [[|]|];
    apply decimal_separator_unique in E as [-> _]; reflexivity || discriminate.
Qed.

(** Two neighbouring chunks of a segmentation. *)
Lemma getPath_distinct_example :
  let params := {| volume_baseUrls := ["http://emdata.example"]; volume_nodeKey := "abcdef";
                   volume_dataInstanceKey := "segmentation";
                   volumeType := Some DvidFrontend.SEGMENTATION |} in
  getPath (ivec3 0 64 (-64)) (ivec3 64 64 64) params <>
  getPath (ivec3 64 64 (-64)) (ivec3 64 64 64) params.
Proof.
  apply getPath_distinct.
  - repeat (apply List.Forall_cons; [reflexivity|]). apply List.Forall_nil.
  - intros E. discriminate E.
Defined.

Example getPath_samples :
  let image := {| volume_baseUrls := ["http://emdata.example"]; volume_nodeKey := "abcdef";
                  volume_dataInstanceKey := "grayscale";
                  volumeType := Some DvidFrontend.IMAGE |} in
  let untyped := {| volume_baseUrls := ["http://emdata.example"]; volume_nodeKey := "abcdef";
                    volume_dataInstanceKey := "labels"; volumeType := None |} in
  getPath (ivec3 0 64 (-64)) (ivec3 64 64 32) image =
    "/api/node/abcdef/grayscale/raw/0_1_2/64_64_32/0_64_-64/jpeg" /\
  getPath (ivec3 0 64 (-64)) (ivec3 64 64 32) untyped =
    "/api/node/abcdef/labels/raw/0_1_2/64_64_32/0_64_-64?compression=googlegzip" /\
  compressedSegmentationBlockSize (new_VolumeChunkSource untyped) = None.
Proof. vm_compute. repeat split. Qed.


Example TileChunkSource_path_samples :
  TileChunkSource_path
    {| DvidFrontend.tile_baseUrls := ["http://emdata.example"];
       DvidFrontend.tile_nodeKey := "abcdef"; DvidFrontend.tile_level2 := "0";
       DvidFrontend.tile_dataInstanceKey := "tiles";
       DvidFrontend.tile_encoding := DvidFrontend.JPEG;
       DvidFrontend.tile_level := "1"; DvidFrontend.tile_dims := "0_1" |}
    (ivec3 2 0 7) = "/api/node/abcdef/tiles/tile/0_1/1/2_0_7".
Proof. vm_compute. reflexivity. Qed.

End DvidBackend.

(** ** [datasource/precomputed/backend.ts] *)

Module Precomputed.

Inductive VolumeChunkEncoding := RAW | JPEG | COMPRESSED_SEGMENTATION.

Record VolumeChunkSourceParameters := {
  baseUrls : list string;
  path : string;
  encoding : VolumeChunkEncoding;
}.

Record MeshSourceParameters := {
  mesh_baseUrls : list string;
  mesh_path : string;
  lod : Q;
}.

Record VolumeChunk := { chunkGridPosition : vec3 }.

(** The template literal of [VolumeChunkSource.download]. *)
Definition VolumeChunkSource_path (parameters : VolumeChunkSourceParameters)
    (chunkPosition chunkDataSize : vec3) : string :=
  path parameters +:+ "/" +:+
  Number_toString (v0 chunkPosition) +:+ "-" +:+
  Number_toString (Number_add (v0 chunkPosition) (v0 chunkDataSize)) +:+ "_" +:+
  Number_toString (v1 chunkPosition) +:+ "-" +:+
  Number_toString (Number_add (v1 chunkPosition) (v1 chunkDataSize)) +:+ "_" +:+
  Number_toString (v2 chunkPosition) +:+ "-" +:+
  Number_toString (Number_add (v2 chunkPosition) (v2 chunkDataSize)).

Section VolumeChunkSource.
(** [computeChunkBounds] is inherited from [sliceview/backend]: it gives
    the position of the chunk and stores the (clipped) size in
    [chunk.chunkDataSize]; both are returned here. *)
Variable computeChunkBounds : VolumeChunk -> vec3 * vec3.

Definition VolumeChunkSource_download (parameters : VolumeChunkSourceParameters)
    (chunk : VolumeChunk) : Request :=
  let '(chunkPosition, chunkDataSize) := computeChunkBounds chunk in
  {| request_baseUrls := baseUrls parameters;
     request_path := VolumeChunkSource_path parameters chunkPosition chunkDataSize;
     request_responseType := arraybuffer |}.
End VolumeChunkSource.

Record ManifestChunk := {
  manifest_objectId : Uint64;
  fragmentIds : option (list string);
}.

Record FragmentChunk := {
  fragmentId : option string;
  vertexPositions : option (list Z);
  indices : option (list Z);
}.

Definition MeshSource_path (parameters : MeshSourceParameters) (chunk : ManifestChunk)
    : string :=
  mesh_path parameters +:+ "/" +:+ Uint64_toString (manifest_objectId chunk) +:+ ":" +:+
  Number_toString (lod parameters).


Definition MeshSource_downloadFragment (parameters : MeshSourceParameters)
    (chunk : FragmentChunk) : Request :=
  {| request_baseUrls := mesh_baseUrls parameters;
     request_path := mesh_path parameters +:+ "/" +:+
                     from_option id "null" (fragmentId chunk);
     request_responseType := arraybuffer |}.

(** *** Decoders *)

Inductive Endianness := LITTLE | BIG.

Definition u8 (b : byte) : Z := Z.of_N (Byte.to_N b).

Definition uint32 (endianness : Endianness) (b0 b1 b2 b3 : byte) : Z :=
  match endianness with
  | LITTLE => u8 b0 + 2 ^ 8 * u8 b1 + 2 ^ 16 * u8 b2 + 2 ^ 24 * u8 b3
  | BIG => u8 b3 + 2 ^ 8 * u8 b2 + 2 ^ 16 * u8 b1 + 2 ^ 24 * u8 b0
  end.

(** [new DataView(buffer).getUint32(byteOffset, littleEndian)] *)
Definition getUint32 (buffer : list byte) (byteOffset : nat) (littleEndian : bool)
    : Result Z :=
  match drop byteOffset buffer with
  | b0 :: b1 :: b2 :: b3 :: _ =>
      Ok (uint32 (if littleEndian then LITTLE else BIG) b0 b1 b2 b3)
  | _ => Throw (new_Error "RangeError: Offset is outside the bounds of the DataView")
  end.

(** The 32-bit words of a byte sequence whose length is a multiple of 4. *)
Fixpoint words32 (endianness : Endianness) (bytes : list byte) : list Z :=
  match bytes with
  | b0 :: b1 :: b2 :: b3 :: rest => uint32 endianness b0 b1 b2 b3 :: words32 endianness rest
  | _ => []
  end.

(** Modelled from the spec: [decodeTriangleVertexPositionsAndIndices] of
    [mesh/backend] is not among the sources.  Section 6 gives the layout
    it reads, "vertex count, followed by vertex position data, followed by
    triangle indices", and section 4.5 says that a decoder "fails with a
    decode error if the payload size/format is inconsistent with the
    metadata", naming the "truncated mesh vertex buffer".  A vertex
    position is three 32-bit floats and an index one 32-bit unsigned
    integer; each is kept as its 32-bit pattern.  The index data is the
    rest of the buffer and holds whole triangles. *)
Definition decodeTriangleVertexPositionsAndIndices (chunk : FragmentChunk)
    (data : list byte) (endianness : Endianness) (vertexByteOffset : nat)
    (numVertices : Z) : Result FragmentChunk :=
  let vertexBytes := Z.to_nat (12 * numVertices) in
  if (Z.of_nat (length data) <? Z.of_nat vertexByteOffset + 12 * numVertices)%Z then
    Throw (new_Error "RangeError: Invalid typed array length")
  else
    let vertexData := take vertexBytes (drop vertexByteOffset data) in
    let indexData := drop (vertexByteOffset + vertexBytes) data in
    if (length indexData mod 12 =? 0)%nat then
      Ok {| fragmentId := fragmentId chunk;
            vertexPositions := Some (words32 endianness vertexData);
            indices := Some (words32 endianness indexData) |}
    else Throw (new_Error "Number of indices is not a multiple of 3").

Definition decodeFragmentChunk (chunk : FragmentChunk) (response : list byte)
    : Result FragmentChunk :=
  numVertices ← getUint32 response 0 true;
  decodeTriangleVertexPositionsAndIndices chunk response LITTLE 4 numVertices.

(** *** Properties *)


(** The paths for a chunk at [(64, 128, -64)] of size [64^3], for object
    102160 at level of detail 0, and for its skeleton. *)
Example chunk_request_paths_samples :
  VolumeChunkSource_path
    {| baseUrls := ["https://storage.example"]; path := "/bucket/image/8_8_8";
       encoding := JPEG |}
    (ivec3 64 128 (-64)) (ivec3 64 64 64) = "/bucket/image/8_8_8/64-128_128-192_-64-0" /\
  MeshSource_path
    {| mesh_baseUrls := ["https://storage.example"]; mesh_path := "/bucket/mesh"; lod := 0 |}
    {| manifest_objectId := 102160%N; fragmentIds := None |} = "/bucket/mesh/102160:0" /\
  DvidBackend.SkeletonSource_path
    {| DvidBackend.baseUrls := ["http://emdata1:7000"];
       DvidBackend.nodeKey := "d5053e99753848e599a641925aa2d38f";
       DvidBackend.dataInstanceKey := "bodies1104_skeletons" |}
    {| DvidBackend.objectId := 102160%N |}
  = "/api/node/d5053e99753848e599a641925aa2d38f/bodies1104_skeletons/key/102160_swc".
Proof. vm_compute. repeat split. Qed.

Lemma u8_range (b : byte) : (0 <= u8 b < 2 ^ 8)%Z.
Proof. unfold u8. pose proof (Byte.to_N_bounded b). lia. Qed.

Lemma uint32_range (endianness : Endianness) (b0 b1 b2 b3 : byte) :
  (0 <= uint32 endianness b0 b1 b2 b3 < 2 ^ 32)%Z.
Proof.
  pose proof (u8_range b0). pose proof (u8_range b1).
  pose proof (u8_range b2). pose proof (u8_range b3).
  destruct endianness; unfold uint32; lia.
Qed.

Lemma length_words32 (endianness : Endianness) (n : nat) :
  forall bytes : list byte,
  length bytes = (4 * n)%nat -> length (words32 endianness bytes) = n.
Proof.
  induction n as [|n IH]; intros [|b0 [|b1 [|b2 [|b3 rest]]]] Hlen;
    cbn [length] in Hlen; try lia; [reflexivity|].
  cbn [words32 length]. f_equal. apply IH. lia.
Qed.

Lemma decodeFragmentChunk_unfold (chunk : FragmentChunk) (b0 b1 b2 b3 : byte)
    (rest : list byte) :
  let numVertices := uint32 LITTLE b0 b1 b2 b3 in
  decodeFragmentChunk chunk (b0 :: b1 :: b2 :: b3 :: rest) =
    if (Z.of_nat (length rest) <? 12 * numVertices)%Z then
      Throw (new_Error "RangeError: Invalid typed array length")
    else if (length (drop (Z.to_nat (12 * numVertices)) rest) mod 12 =? 0)%nat then
      Ok {| fragmentId := fragmentId chunk;
            vertexPositions :=
              Some (words32 LITTLE (take (Z.to_nat (12 * numVertices)) rest));
            indices := Some (words32 LITTLE (drop (Z.to_nat (12 * numVertices)) rest)) |}
    else Throw (new_Error "Number of indices is not a multiple of 3").
Proof.
  cbn zeta. unfold decodeFragmentChunk, getUint32, decodeTriangleVertexPositionsAndIndices.
  cbn [drop mbind Result_bind bind].
  set (numVertices := uint32 LITTLE b0 b1 b2 b3).
  replace (Z.of_nat (length (b0 :: b1 :: b2 :: b3 :: rest)) <? Z.of_nat 4 + 12 * numVertices)%Z
    with (Z.of_nat (length rest) <? 12 * numVertices)%Z; [reflexivity|].
  cbn [length]. destruct (Z.ltb_spec (Z.of_nat (length rest)) (12 * numVertices));
    symmetry; [apply Z.ltb_lt|apply Z.ltb_ge]; lia.
Qed.

(** C7.  A fragment payload is read as: four bytes, the vertex count as
    a little-endian unsigned 32-bit integer; from byte offset 4 the vertex
    positions, twelve bytes per vertex; then the triangle indices up to
    the end of the buffer.  A buffer shorter than the header, or than the
    declared vertices need, is an error and decodes to nothing; a buffer
    of vertices and whole triangles decodes. *)
Theorem decodeFragmentChunk_layout (chunk : FragmentChunk) (response : list byte) :
  ((length response < 4)%nat -> exists e, decodeFragmentChunk chunk response = Throw e) /\
  (forall (b0 b1 b2 b3 : byte) (rest : list byte),
     response = b0 :: b1 :: b2 :: b3 :: rest ->
     let numVertices := (u8 b0 + 2 ^ 8 * u8 b1 + 2 ^ 16 * u8 b2 + 2 ^ 24 * u8 b3)%Z in
     let vertexBytes := Z.to_nat (12 * numVertices) in
     (0 <= numVertices < 2 ^ 32)%Z /\
     ((Z.of_nat (length rest) < 12 * numVertices)%Z ->
        exists e, decodeFragmentChunk chunk response = Throw e) /\
     (forall chunk', decodeFragmentChunk chunk response = Ok chunk' ->
        vertexPositions chunk' = Some (words32 LITTLE (take vertexBytes rest)) /\
        indices chunk' = Some (words32 LITTLE (drop vertexBytes rest)) /\
        length (words32 LITTLE (take vertexBytes rest)) = Z.to_nat (3 * numVertices) /\
        fragmentId chunk' = fragmentId chunk) /\
     (forall triangles : nat,
        length rest = (vertexBytes + 12 * triangles)%nat ->
        exists chunk', decodeFragmentChunk chunk response = Ok chunk' /\
          length (words32 LITTLE (drop vertexBytes rest)) = (3 * triangles)%nat)).
Proof.
  split.
  - intros Hlen. unfold decodeFragmentChunk, getUint32. cbn [drop].
    destruct response as [|b0 [|b1 [|b2 [|b3 rest]]]]; cbn [length] in Hlen;
      try lia; eexists; reflexivity.
  - intros b0 b1 b2 b3 rest -> numVertices vertexBytes.
    pose proof (uint32_range LITTLE b0 b1 b2 b3) as Hrange.
    pose proof (decodeFragmentChunk_unfold chunk b0 b1 b2 b3 rest) as Hdecode.
    cbn zeta in Hdecode. change (uint32 LITTLE b0 b1 b2 b3) with numVertices in *.
    fold vertexBytes in Hdecode.
    split; [exact Hrange|]. split; [|split].
    + intros Hshort. rewrite Hdecode. apply Z.ltb_lt in Hshort. rewrite Hshort. eauto.
    + intros chunk' Hok. rewrite Hdecode in Hok.
      destruct (Z.ltb_spec (Z.of_nat (length rest)) (12 * numVertices)) as [|Hlong];
        [discriminate|].
      destruct (length (drop vertexBytes rest) mod 12 =? 0)%nat; [|discriminate].
      injection Hok as <-. cbn [vertexPositions indices fragmentId].
      repeat split. apply length_words32. rewrite length_take. lia.
    + intros triangles Hlen. rewrite Hdecode.
      destruct (Z.ltb_spec (Z.of_nat (length rest)) (12 * numVertices)) as [Hshort|_];
        [lia|].
      assert (length (drop vertexBytes rest) = (12 * triangles)%nat) as Hindex
        by (rewrite length_drop; lia).
      rewrite Hindex.
      replace ((12 * triangles) mod 12)%nat with 0%nat
        by (symmetry; rewrite Nat.mul_comm; apply Nat.Div0.mod_mul).
      cbn [Nat.eqb]. eexists. split; [reflexivity|].
      apply length_words32. lia.
Qed.

(** A fragment of one vertex and one triangle, and a truncated one. *)
Example decodeFragmentChunk_samples :
  let chunk := {| fragmentId := Some "f"; vertexPositions := None; indices := None |} in
  let vertex := [x00; x00; x80; x3f; x00; x00; x00; x40; x00; x00; x40; x40] in
  let triangle := [x00; x00; x00; x00; x00; x00; x00; x00; x00; x00; x00; x00] in
  decodeFragmentChunk chunk ([x01; x00; x00; x00] ++ vertex ++ triangle) =
    Ok {| fragmentId := Some "f";
          vertexPositions := Some [1065353216; 1073741824; 1077936128]%Z;
          indices := Some [0; 0; 0]%Z |} /\
  is_Ok (decodeFragmentChunk chunk ([x02; x00; x00; x00] ++ vertex)) = false /\
  is_Ok (decodeFragmentChunk chunk [x01; x00; x00]) = false.
Proof. vm_compute. repeat split. Qed.

(** *** Request paths tell chunks apart *)

(** X18.  Two chunks of a precomputed volume that differ in position or
    size are requested under different paths: [x0-x1_y0-y1_z0-z1] is
    read back in one way only, although [-] is both the separator and
    the sign of a negative coordinate (coordinates and end points are
    integers below [2^53]). *)
Theorem VolumeChunkSource_path_distinct (parameters : VolumeChunkSourceParameters)
    (x y z sx sy sz x' y' z' sx' sy' sz' : Z) :
  Forall safe_integer [x; y; z; x + sx; y + sy; z + sz]%Z ->
  Forall safe_integer [x'; y'; z'; x' + sx'; y' + sy'; z' + sz']%Z ->
  (x, y, z, sx, sy, sz) <> (x', y', z', sx', sy', sz') ->
  VolumeChunkSource_path parameters (ivec3 x y z) (ivec3 sx sy sz) <>
  VolumeChunkSource_path parameters (ivec3 x' y' z') (ivec3 sx' sy' sz').
Proof.
  intros Hsafe Hsafe' Hne E. apply Hne. clear Hne.
  repeat (apply Forall_cons in Hsafe as [? Hsafe]).
  repeat (apply Forall_cons in Hsafe' as [? Hsafe']).
  unfold VolumeChunkSource_path, ivec3 in E. cbn [v0 v1 v2] in E.
  rewrite !Number_add_safe_integers in E by assumption.
  rewrite !Number_toString_safe_integer in E by assumption.
  do 2 (apply String.app_inj in E).
  apply decimal_dash_unique in E as [-> E].
  apply decimal_separator_unique in E as [Ex E]; [|reflexivity|discriminate].
  apply decimal_dash_unique in E as [-> E].
  apply decimal_separator_unique in E as [Ey E]; [|reflexivity|discriminate].
  apply decimal_dash_unique in E as [-> E].
  apply decimal_inj in E.
  repeat f_equal; lia.
Qed.

(** A chunk left of the origin and its neighbour. *)
Lemma VolumeChunkSource_path_distinct_example :
  let parameters := {| baseUrls := ["https://storage.example"];
                       path := "/bucket/image/8_8_8"; encoding := JPEG |} in
  VolumeChunkSource_path parameters (ivec3 (-64) 0 0) (ivec3 64 64 64) <>
  VolumeChunkSource_path parameters (ivec3 (-128) 0 0) (ivec3 64 64 64).
Proof.
  apply VolumeChunkSource_path_distinct.
  - repeat (apply List.Forall_cons; [reflexivity|]). apply List.Forall_nil.
  - repeat (apply List.Forall_cons; [reflexivity|]). apply List.Forall_nil.
  - intros E. discriminate E.
Defined.

(** X19.  Under given parameters the path of a mesh manifest determines
    the object, the path of a mesh fragment determines the fragment, and
    the path of a DVID skeleton determines the object: two objects are
    never requested under one path. *)
Theorem object_paths_injective :
  (forall (parameters : MeshSourceParameters) (chunk chunk' : ManifestChunk),
     MeshSource_path parameters chunk = MeshSource_path parameters chunk' <->
     manifest_objectId chunk = manifest_objectId chunk') /\
  (forall (parameters : MeshSourceParameters) (chunk chunk' : FragmentChunk),
     is_Some (fragmentId chunk) -> is_Some (fragmentId chunk') ->
     request_path (MeshSource_downloadFragment parameters chunk) =
       request_path (MeshSource_downloadFragment parameters chunk') ->
     fragmentId chunk = fragmentId chunk') /\
  (forall (params : DvidBackend.SkeletonSourceParameters)
          (chunk chunk' : DvidBackend.SkeletonChunk),
     DvidBackend.SkeletonSource_path params chunk =
       DvidBackend.SkeletonSource_path params chunk' <->
     DvidBackend.objectId chunk = DvidBackend.objectId chunk').
Proof.
  split; [|split].
  - intros parameters chunk chunk'. split; [|by intros E; unfold MeshSource_path; rewrite E].
    unfold MeshSource_path, Uint64_toString. intros E.
    do 2 (apply String.app_inj in E).
    apply decimal_separator_unique in E as [E _]; [lia|reflexivity|discriminate].
  - intros parameters chunk chunk' [f Hf] [f' Hf']. cbn. rewrite Hf, Hf'. cbn. intros E.
    do 2 (apply String.app_inj in E). by rewrite E.
  - intros params chunk chunk'.
    split; [|by intros E; unfold DvidBackend.SkeletonSource_path; rewrite E].
    unfold DvidBackend.SkeletonSource_path, Uint64_toString. intros E.
    do 5 (apply String.app_inj in E).
    apply decimal_separator_unique in E as [E _]; [lia|reflexivity|discriminate].
Qed.

End Precomputed.

(** ** [datasource/clio/utils.ts] and [ClioAnnotationSource] *)

Module Clio.

(** [AnnotationType] of [neuroglancer/annotation]: [POINT], and the
    other geometries, which Clio does not store. *)
Inductive AnnotationType :=
| POINT
| OtherAnnotationType (tag : nat).

Definition AnnotationId : Type := string.

Record ClioAnnotation := {
  type : AnnotationType;
  point : vec3;
}.

(** [/^-?\d+_-?\d+_-?\d+$/] *)
Definition point_id_pattern : regex :=
  Seq integer_pattern
    (Seq (Chr "_") (Seq integer_pattern (Seq (Chr "_") integer_pattern))).

(** [None] is [null]. *)
Definition typeOfAnnotationId (id : AnnotationId) : option AnnotationType :=
  if matches point_id_pattern id then Some POINT else None.

(** [None] is [undefined], the result of falling out of the [switch]. *)
Definition getAnnotationId (annotation : ClioAnnotation) : option AnnotationId :=
  match type annotation with
  | POINT =>
      Some (Number_toString (v0 (point annotation)) +:+ "_" +:+
            Number_toString (v1 (point annotation)) +:+ "_" +:+
            Number_toString (v2 (point annotation)))
  | _ => None
  end.

Definition isAnnotationIdValid (id : AnnotationId) : bool :=
  bool_decide (typeOfAnnotationId id <> None).

(** What [ClioAnnotationSource.add] and [update] do to the point before
    the annotation is stored: [point.map(x => Math.round(x))]. *)
Definition round_point (annotation : ClioAnnotation) : ClioAnnotation :=
  match type annotation with
  | POINT => {| type := type annotation; point := vec3_map Math_round (point annotation) |}
  | _ => annotation
  end.

(** *** [parseSourceUrl] and [parseDescription] *)

(** [ClioSourceParameters] of [datasource/clio/base], with the
    properties [parseSourceUrl] sets; [None] is a property that is not
    set, or is [undefined]. *)
Record ClioSourceParameters := {
  baseUrl : string;
  dataset : string;
  authToken : option string;
  authServer : option string;
  user : option string;
  kind : option string;
}.

(** [urlPattern]: between [^] and [$], group 1 [[^\/]+:\/\/[^\/]+], a
    slash, group 2 [[^\/\?]+], and the optional group 3, a question
    mark followed by [.*]. *)
Definition urlPattern : pattern :=
  PSeq (PGroup 1 (PSeq (PPlus (CNot ["/"%char]))
                    (PSeq (PLit "://") (PPlus (CNot ["/"%char])))))
    (PSeq (PLit "/")
       (PSeq (PGroup 2 (PPlus (CNot ["/"%char; "?"%char])))
          (POpt (PGroup 3 (PSeq (PLit "?") (PStar CDot)))))).

(** Whether a string that may be [undefined] counts as true. *)
Definition truthy (v : option string) : bool :=
  match v with
  | Some (String _ _) => true
  | _ => false
  end.

Section ParseSourceUrl.

Context `{DvidFrontend.JsBuiltins}.

(** [parseQueryStringParameters] of [util/json]: the parameters by
    name, or the error it throws. *)
Variable parseQueryStringParameters : string -> Result (gmap string string).

(** [getUserFromToken] of [datasource/dvid/utils]; [None] is
    [undefined]. *)
Variable getUserFromToken : string -> Result (option string).

Definition parseSourceUrl (url : string) : Result ClioSourceParameters :=
  match String_match url urlPattern with
  | None =>
      Throw (new_Error
        ("Invalid Clio URL: " +:+ DvidFrontend.JSON_stringify (JStr url) +:+ "."))
  | Some match_ =>
      let sourceParameters :=
        {| baseUrl := group match_ 1; dataset := group match_ 2;
           authToken := None; authServer := None; user := None; kind := None |} in
      match match_ !! 3%nat with
      | Some queryString =>
          if truthy (Some queryString) && (1 <? String.length queryString)%nat then
            parameters ← parseQueryStringParameters (drop_string 1 queryString);
            let sourceParameters :=
              if truthy (parameters !! "token") then
                {| baseUrl := baseUrl sourceParameters; dataset := dataset sourceParameters;
                   authToken := parameters !! "token";
                   authServer := Some ("token:" +:+ default EmptyString (parameters !! "token"));
                   user := user sourceParameters; kind := kind sourceParameters |}
              else if truthy (parameters !! "auth") then
                {| baseUrl := baseUrl sourceParameters; dataset := dataset sourceParameters;
                   authToken := authToken sourceParameters;
                   authServer := parameters !! "auth";
                   user := user sourceParameters; kind := kind sourceParameters |}
              else sourceParameters in
            user' ←
              (if truthy (parameters !! "user") then Ok (parameters !! "user")
               else if truthy (authToken sourceParameters) then
                 getUserFromToken (default EmptyString (authToken sourceParameters))
               else Ok (user sourceParameters));
            Ok {| baseUrl := baseUrl sourceParameters; dataset := dataset sourceParameters;
                  authToken := authToken sourceParameters;
                  authServer := authServer sourceParameters;
                  user := user';
                  kind :=
                    if truthy (parameters !! "kind") then
                      if bool_decide (parameters !! "kind" = Some "atlas") then Some "Atlas"
                      else parameters !! "kind"
                    else Some "Normal" |}
          else Ok sourceParameters
      | None => Ok sourceParameters
      end
  end.

End ParseSourceUrl.

(** The imports on a sample: the parameters of the query string
    [token=abc&kind=atlas], and a token without a payload, which has no
    user. *)
Definition sample_parseQueryStringParameters (queryString : string)
    : Result (gmap string string) :=
  if String.eqb queryString "token=abc&kind=atlas"
  then Ok (<["token" := "abc"]> (<["kind" := "atlas"]> ∅))
  else Ok ∅.

Definition sample_getUserFromToken (token : string) : Result (option string) := Ok None.

(** The pattern of [parseDescription]: between [^] and [$], the
    characters [${], the group [.*] and the characters [:JSON}]. *)
Definition descriptionPattern : pattern :=
  PSeq (PLit "${") (PSeq (PGroup 1 (PStar CDot)) (PLit ":JSON}")).

Section ParseDescription.

(** [JSON.parse]: the value, or the [SyntaxError] thrown. *)
Variable JSON_parse : string -> Result json.

(** [null] is [JNull], which [JSON.parse] returns too, for the text
    [null]. *)
Definition parseDescription (description : string) : Result json :=
  match String_match description descriptionPattern with
  | Some match_ => JSON_parse (group match_ 1)
  | None => Ok JNull
  end.

End ParseDescription.

(** *** Properties *)

Lemma point_id_matches (x y z : string) :
  matches integer_pattern x = true -> matches integer_pattern y = true ->
  matches integer_pattern z = true ->
  matches point_id_pattern (x +:+ "_" +:+ y +:+ "_" +:+ z) = true.
Proof.
  intros Hx Hy Hz. unfold point_id_pattern.
  apply matches_Seq; [exact Hx|].
  apply (matches_Seq (Chr "_") _ "_"); [apply matches_Chr|].
  apply matches_Seq; [exact Hy|].
  apply (matches_Seq (Chr "_") _ "_"); [apply matches_Chr|exact Hz].
Qed.

(** C10, as the code has it.  For a point annotation whose coordinates
    are integers of magnitude below [10^21] the id is the three numbers
    joined by [_], it is classified as [POINT] and it is valid; below
    [2^53] the numbers are the decimal digits of the coordinates.  [add]
    and [update] make every coordinate an integer.  For a point with the
    coordinate 1.5 the id is not classified. *)
Theorem annotation_id_round_trip :
  (forall (annotation : ClioAnnotation) (x y z : Z),
     type annotation = POINT -> point annotation = ivec3 x y z ->
     (Z.abs x < 10 ^ 21 /\ Z.abs y < 10 ^ 21 /\ Z.abs z < 10 ^ 21)%Z ->
     is_Number (inject_Z x) = true /\ is_Number (inject_Z y) = true /\
       is_Number (inject_Z z) = true ->
     exists id,
       getAnnotationId annotation = Some id /\
       id = Number_toString (inject_Z x) +:+ "_" +:+ Number_toString (inject_Z y) +:+
            "_" +:+ Number_toString (inject_Z z) /\
       typeOfAnnotationId id = Some POINT /\
       isAnnotationIdValid id = true) /\
  (forall (annotation : ClioAnnotation) (x y z : Z),
     type annotation = POINT -> point annotation = ivec3 x y z ->
     (Z.abs x < 2 ^ 53 /\ Z.abs y < 2 ^ 53 /\ Z.abs z < 2 ^ 53)%Z ->
     getAnnotationId annotation = Some (decimal x +:+ "_" +:+ decimal y +:+ "_" +:+ decimal z)) /\
  (forall annotation : ClioAnnotation,
     type annotation = POINT ->
     exists x y z, point (round_point annotation) = ivec3 x y z) /\
  (exists (annotation : ClioAnnotation) (id : AnnotationId),
     type annotation = POINT /\ Qeq (v0 (point annotation)) (3 # 2) /\
     getAnnotationId annotation = Some id /\
     typeOfAnnotationId id = None /\ isAnnotationIdValid id = false).
Proof.
  split; [|split; [|split]].
  - intros annotation x y z Htype Hpoint (Hx & Hy & Hz) (Nx & Ny & Nz).
    eexists. split; [|split; [reflexivity|]].
    + unfold getAnnotationId. rewrite Htype, Hpoint. reflexivity.
    + assert (matches point_id_pattern
                (Number_toString (inject_Z x) +:+ "_" +:+ Number_toString (inject_Z y) +:+
                 "_" +:+ Number_toString (inject_Z z)) = true) as Hm
        by (apply point_id_matches; by apply Number_toString_integer).
      unfold isAnnotationIdValid, typeOfAnnotationId. rewrite Hm.
      split; [reflexivity|]. by apply bool_decide_eq_true.
  - intros annotation x y z Htype Hpoint (Hx & Hy & Hz).
    unfold getAnnotationId. rewrite Htype, Hpoint. cbn [ivec3 v0 v1 v2].
    by rewrite !Number_toString_safe_integer.
  - intros annotation Htype. unfold round_point. rewrite Htype.
    do 3 eexists. reflexivity.
  - exists {| type := POINT; point := Vec3 (3 # 2) 0 0 |}, "1.5_0_0".
    split; [reflexivity|]. split; [reflexivity|]. vm_compute. repeat split.
Qed.

(** The round trip stops at integers that are printed with an exponent:
    [2^70] is an integer and a Number (also of a [Float32Array]), rounding
    leaves it as it is, and the id it gives is not of the form
    digits [_] digits [_] digits. *)
Lemma annotation_id_of_large_integer :
  let annotation := {| type := POINT; point := ivec3 (2 ^ 70) 0 0 |} in
  is_Number (inject_Z (2 ^ 70)) = true /\
  point (round_point annotation) = point annotation /\
  getAnnotationId annotation = Some "1.1805916207174113e+21_0_0" /\
  typeOfAnnotationId "1.1805916207174113e+21_0_0" = None /\
  isAnnotationIdValid "1.1805916207174113e+21_0_0" = false.
Proof. vm_compute. repeat split. Qed.

Example annotation_id_samples :
  getAnnotationId {| type := POINT; point := ivec3 12 (-7) 0 |} = Some "12_-7_0" /\
  typeOfAnnotationId "12_-7_0" = Some POINT /\
  typeOfAnnotationId "12_-7" = None /\
  typeOfAnnotationId "12_--7_0" = None /\
  typeOfAnnotationId "12_7_0_" = None /\
  point (round_point {| type := POINT; point := Vec3 (5 # 2) (- (5 # 2)) (7 # 5) |})
    = ivec3 3 (-2) 1.
Proof. vm_compute. repeat split. Qed.

(** *** Rounding and the id of a stored annotation *)

Lemma Math_round_integer (z : Z) : Math_round (inject_Z z) = inject_Z z.
Proof.
  unfold Math_round. f_equal. unfold Qfloor. cbn [inject_Z Qplus Qnum Qden].
  rewrite !Z.mul_1_l. change (Z.pos (1 * 2)) with 2%Z.
  symmetry. apply Z.div_unique with 1%Z; lia.
Qed.

Lemma Math_round_idempotent (q : Q) : Math_round (Math_round q) = Math_round q.
Proof. unfold Math_round at 2 3. apply Math_round_integer. Qed.

Lemma Math_round_range (q : Q) :
  (- inject_Z (2 ^ 52) <= q <= inject_Z (2 ^ 52))%Q ->
  exists z, Math_round q = inject_Z z /\ safe_integer z.
Proof.
  intros [Hlo Hhi]. exists (Qfloor (q + (1 # 2))). split; [reflexivity|].
  assert (Qfloor (- inject_Z (2 ^ 52) + (1 # 2)) <= Qfloor (q + (1 # 2)))%Z as Hl.
  { apply Qfloor_resp_le. by apply Qplus_le_l. }
  assert (Qfloor (q + (1 # 2)) <= Qfloor (inject_Z (2 ^ 52) + (1 # 2)))%Z as Hu.
  { apply Qfloor_resp_le. by apply Qplus_le_l. }
  change (Qfloor (- inject_Z (2 ^ 52) + (1 # 2))) with (- 2 ^ 52)%Z in Hl.
  change (Qfloor (inject_Z (2 ^ 52) + (1 # 2))) with (2 ^ 52)%Z in Hu.
  unfold safe_integer. lia.
Qed.

(** X20.  Rounding is idempotent: [update] after [add], or a second
    [update], leaves the point where the first rounding put it, and so
    leaves the id of the annotation unchanged.  An annotation that is not
    a point is never touched. *)
Theorem round_point_idempotent (annotation : ClioAnnotation) :
  round_point (round_point annotation) = round_point annotation /\
  getAnnotationId (round_point (round_point annotation)) =
    getAnnotationId (round_point annotation) /\
  type (round_point annotation) = type annotation /\
  (type annotation <> POINT -> round_point annotation = annotation).
Proof.
  assert (round_point (round_point annotation) = round_point annotation) as Hidem.
  { unfold round_point. destruct (type annotation) eqn:Htype; cbn [type point].
    - unfold vec3_map. cbn [v0 v1 v2]. by rewrite !Math_round_idempotent.
    - by rewrite Htype. }
  split; [exact Hidem|]. split; [by rewrite Hidem|].
  unfold round_point. destruct (type annotation) eqn:Htype; cbn [type].
  - split; [reflexivity|]. congruence.
  - split; [exact Htype|]. reflexivity.
Qed.

(** X21.  Every point annotation that [add] or [update] stores has a
    valid id: for coordinates of magnitude up to [2^52], integers or not,
    the rounded point has integer coordinates, its id is their decimal
    digits joined by [_], the id is classified as a point and it is
    valid. *)
Theorem rounded_annotation_id_valid (annotation : ClioAnnotation) :
  type annotation = POINT ->
  (forall q, q ∈ [v0 (point annotation); v1 (point annotation); v2 (point annotation)] ->
     - inject_Z (2 ^ 52) <= q <= inject_Z (2 ^ 52))%Q ->
  exists (id : AnnotationId) (x y z : Z),
    point (round_point annotation) = ivec3 x y z /\
    getAnnotationId (round_point annotation) = Some id /\
    id = decimal x +:+ "_" +:+ decimal y +:+ "_" +:+ decimal z /\
    typeOfAnnotationId id = Some POINT /\
    isAnnotationIdValid id = true.
Proof.
  intros Htype Hrange.
  destruct (Math_round_range (v0 (point annotation))) as (x & Hx & Sx).
  { apply Hrange, list_elem_of_here. }
  destruct (Math_round_range (v1 (point annotation))) as (y & Hy & Sy).
  { apply Hrange, list_elem_of_further, list_elem_of_here. }
  destruct (Math_round_range (v2 (point annotation))) as (z & Hz & Sz).
  { apply Hrange, list_elem_of_further, list_elem_of_further, list_elem_of_here. }
  assert (forall v, safe_integer v -> matches integer_pattern (decimal v) = true) as Hdigits.
  { intros v Sv. rewrite <- Number_toString_safe_integer by exact Sv.
    apply Number_toString_integer; [unfold safe_integer in Sv; lia|].
    unfold is_Number. rewrite Number_of_small by exact Sv. by apply Qeq_eq_bool. }
  assert (matches point_id_pattern (decimal x +:+ "_" +:+ decimal y +:+ "_" +:+ decimal z)
          = true) as Hm by (apply point_id_matches; by apply Hdigits).
  eexists _, x, y, z. split; [|split; [|split; [reflexivity|]]].
  - unfold round_point. rewrite Htype. cbn [point]. unfold vec3_map, ivec3.
    by rewrite Hx, Hy, Hz.
  - unfold getAnnotationId, round_point. rewrite Htype. cbn [type point vec3_map v0 v1 v2].
    rewrite Hx, Hy, Hz. by rewrite !Number_toString_safe_integer.
  - unfold isAnnotationIdValid, typeOfAnnotationId. rewrite Hm.
    split; [reflexivity|]. by apply bool_decide_eq_true.
Qed.

(** A point between voxels. *)
Lemma rounded_annotation_id_valid_example :
  getAnnotationId (round_point {| type := POINT; point := Vec3 (5 # 2) (- (5 # 2)) (7 # 5) |})
    = Some "3_-2_1" /\
  isAnnotationIdValid "3_-2_1" = true.
Proof.
  destruct (rounded_annotation_id_valid
              {| type := POINT; point := Vec3 (5 # 2) (- (5 # 2)) (7 # 5) |})
    as (id & x & y & z & Hpoint & Hid & -> & _ & Hvalid).
  - reflexivity.
  - intros q Hq. cbn [point v0 v1 v2] in Hq.
    repeat (apply elem_of_cons in Hq as [->|Hq]); [..|by apply elem_of_nil in Hq];
      split; by vm_compute.
  - injection Hpoint as <- <- <-. split; [exact Hid|exact Hvalid].
Defined.

(** *** The URLs [parseSourceUrl] takes *)

Definition dataset_name (d : string) : Prop :=
  d <> EmptyString /\ occurs "/" d = false /\ occurs "?" d = false.

Definition single_line (q : string) : Prop :=
  occurs "010" q = false /\ occurs "013" q = false.

(** The strings [urlPattern] matches; [query] is what follows the
    question mark, if there is one. *)
Definition clio_url (url scheme host dataset : string) (query : option string) : Prop :=
  segment scheme /\ segment host /\ dataset_name dataset /\
  (forall q, query = Some q -> single_line q) /\
  url = scheme +:+ "://" +:+ host +:+ "/" +:+ dataset +:+
        from_option (String "?") EmptyString query.

(** The groups of a match. *)
Definition clio_groups (scheme host dataset : string) (query : option string) : Captures :=
  let groups := <[2%nat := dataset]> (<[1%nat := scheme +:+ "://" +:+ host]> ∅) in
  match query with
  | Some q => <[3%nat := String "?" q]> groups
  | None => groups
  end.

Lemma first_match_clio_base (scheme host v : string) :
  segment scheme -> segment host -> stops (CNot ["/"%char]) v ->
  first_match (PSeq (PPlus (CNot ["/"%char])) (PSeq (PLit "://") (PPlus (CNot ["/"%char]))))
    (scheme +:+ "://" +:+ host) v.
Proof.
  intros [Hne Hscheme] Hhost Hv caps k r Hk.
  rewrite !append_assoc, pmatch_PSeq.
  change ("://" +:+ ?x) with (String ":" ("//" +:+ x)).
  apply pmatch_PPlus_back; [exact Hne|by rewrite all_in_CNot, Hscheme|done|done|done|].
  change (String ":" ("//" +:+ ?x)) with ("://" +:+ x).
  rewrite pmatch_PSeq, pmatch_PLit. by apply first_match_segment.
Qed.

Lemma clio_urlPattern_match (url scheme host dataset : string) (query : option string) :
  clio_url url scheme host dataset query ->
  String_match url urlPattern = Some (clio_groups scheme host dataset query).
Proof.
  intros (Hscheme & Hhost & (Hne & Hslash & Hmark) & Hquery & ->).
  unfold String_match, urlPattern, clio_groups.
  replace (scheme +:+ "://" +:+ host +:+ "/" +:+ dataset +:+
           from_option (String "?") EmptyString query)
    with ((scheme +:+ "://" +:+ host) +:+ "/" +:+ dataset +:+
          from_option (String "?") EmptyString query)
    by (by rewrite !append_assoc).
  rewrite pmatch_PSeq. apply pmatch_PGroup; [by apply first_match_clio_base|]. cbv beta.
  rewrite pmatch_PSeq, pmatch_PLit, pmatch_PSeq. apply pmatch_PGroup.
  { apply first_match_PPlus; [exact Hne|by rewrite all_in_CNot2, Hslash, Hmark|].
    by destruct query. }
  cbv beta. destruct query as [q|]; cbn [from_option]; [|reflexivity].
  apply pmatch_PAlt_l, pmatch_PGroup_end; [|reflexivity].
  destruct (Hquery q eq_refl) as [Hlf Hcr].
  apply (first_match_PSeq _ _ "?" q); [apply first_match_PLit|].
  apply first_match_PStar; [by rewrite all_in_CDot, Hlf, Hcr|done].
Qed.

Lemma clio_urlPattern_derives (url : string) :
  derives urlPattern url ->
  exists scheme host dataset query, clio_url url scheme host dataset query.
Proof.
  unfold urlPattern. intros H.
  apply derives_PSeq_inv in H as (base & rest & -> & Hbase & Hrest).
  apply derives_PGroup_inv, derives_PSeq_inv in Hbase as (scheme & rest1 & -> & Hscheme & Hhost).
  apply segment_PPlus in Hscheme.
  apply derives_PSeq_inv in Hhost as (sep & host & -> & Hsep & Hhost).
  apply derives_PLit in Hsep as ->. apply segment_PPlus in Hhost.
  apply derives_PSeq_inv in Hrest as (sep & rest2 & -> & Hsep & Hrest).
  apply derives_PLit in Hsep as ->.
  apply derives_PSeq_inv in Hrest as (dataset & qs & -> & Hdataset & Hqs).
  apply derives_PGroup_inv, derives_PPlus in Hdataset as [Hne Hdataset].
  rewrite all_in_CNot2 in Hdataset. apply andb_true_iff in Hdataset as [Hslash Hmark].
  apply negb_true_iff in Hslash, Hmark.
  assert (exists query, qs = from_option (String "?") EmptyString query /\
                        forall q, query = Some q -> single_line q) as (query & -> & Hquery).
  { apply derives_PAlt_inv in Hqs as [Hqs|Hqs].
    - apply derives_PGroup_inv, derives_PSeq_inv in Hqs as (mark & q & -> & Hmark' & Hq).
      apply derives_PLit in Hmark' as ->. apply derives_PStar_inv in Hq.
      rewrite all_in_CDot in Hq. apply andb_true_iff in Hq as [Hlf Hcr].
      apply negb_true_iff in Hlf, Hcr.
      exists (Some q). split; [reflexivity|]. by intros ? [= <-].
    - apply derives_PEmpty_inv in Hqs as ->. exists None. by split. }
  exists scheme, host, dataset, query. unfold clio_url, dataset_name.
  repeat (split; [done|]). by rewrite !append_assoc.
Qed.

Section ParseSourceUrlProperties.

Context `{DvidFrontend.JsBuiltins}.
Variable parseQueryStringParameters : string -> Result (gmap string string).
Variable getUserFromToken : string -> Result (option string).

(** X28.  [parseSourceUrl] on a URL [scheme://host/dataset], with or
    without a question mark at its end, where scheme, host and dataset
    are not empty, scheme and host have no slash and the dataset has
    neither a slash nor a question mark: it does not throw, whatever
    [parseQueryStringParameters] and [getUserFromToken] do; the result
    has the base URL [scheme://host] and the dataset, and no token,
    authentication server, user or kind. *)
Theorem parseSourceUrl_plain (url scheme host dataset : string) (query : option string) :
  clio_url url scheme host dataset query ->
  query = None \/ query = Some EmptyString ->
  parseSourceUrl parseQueryStringParameters getUserFromToken url =
    Ok {| baseUrl := scheme +:+ "://" +:+ host; dataset := dataset;
          authToken := None; authServer := None; user := None; kind := None |}.
Proof.
  intros Hurl Hquery. unfold parseSourceUrl. rewrite (clio_urlPattern_match _ _ _ _ _ Hurl).
  unfold clio_groups, group. destruct Hquery as [-> | ->].
  - rewrite lookup_insert_ne, lookup_insert_ne, lookup_empty by done.
    rewrite lookup_insert_ne, lookup_insert by done. by rewrite lookup_insert.
  - rewrite lookup_insert. cbn [truthy String.length Nat.ltb Nat.leb andb].
    rewrite lookup_insert_ne, lookup_insert_ne, lookup_insert by done.
    rewrite lookup_insert_ne, lookup_insert by done. reflexivity.
Qed.

(** X29.  What [parseSourceUrl] returns when it does not throw: the URL
    is [scheme://host/dataset] with an optional query string of one line
    behind a question mark, and the result has the base URL
    [scheme://host] and that dataset.  The kind is set exactly when the
    query string is not empty; it is never ['atlas'] (which is stored as
    ['Atlas']) and never the empty string.  A token in the result is not
    empty and comes with the authentication server ['token:' + token];
    without a kind there is no token, server or user. *)
Theorem parseSourceUrl_fields (url : string) (p : ClioSourceParameters) :
  parseSourceUrl parseQueryStringParameters getUserFromToken url = Ok p ->
  (exists scheme host dataset' query,
     clio_url url scheme host dataset' query /\
     baseUrl p = scheme +:+ "://" +:+ host /\ dataset p = dataset' /\
     (kind p = None <-> query = None \/ query = Some EmptyString)) /\
  kind p <> Some "atlas" /\ kind p <> Some EmptyString /\
  (forall token, authToken p = Some token ->
     token <> EmptyString /\ authServer p = Some ("token:" +:+ token)) /\
  (kind p = None -> authToken p = None /\ authServer p = None /\ user p = None).
Proof.
  unfold parseSourceUrl. destruct (String_match url urlPattern) as [m|] eqn:Hm; [|discriminate].
  destruct (clio_urlPattern_derives url (String_match_sound _ _ _ Hm))
    as (scheme & host & dataset' & query & Hurl).
  rewrite (clio_urlPattern_match _ _ _ _ _ Hurl) in Hm. injection Hm as <-.
  assert (group (clio_groups scheme host dataset' query) 1 = scheme +:+ "://" +:+ host) as ->.
  { unfold group, clio_groups. destruct query.
    - by rewrite lookup_insert_ne, lookup_insert_ne, lookup_insert.
    - by rewrite lookup_insert_ne, lookup_insert. }
  assert (group (clio_groups scheme host dataset' query) 2 = dataset') as ->.
  { unfold group, clio_groups. destruct query.
    - by rewrite lookup_insert_ne, lookup_insert.
    - by rewrite lookup_insert. }
  assert (clio_groups scheme host dataset' query !! 3%nat = String "?" <$> query) as ->.
  { unfold clio_groups. destruct query; [by rewrite lookup_insert|].
    by rewrite lookup_insert_ne, lookup_insert_ne, lookup_empty. }
  destruct query as [[|c q]|]; cbn [fmap option_fmap option_map truthy String.length Nat.ltb Nat.leb andb].
  - intros [= <-]. cbn [baseUrl dataset kind authToken authServer user].
    split; [exists scheme, host, dataset', (Some EmptyString);
             do 3 (split; [done|]); split; [by right|done]|].
    do 2 (split; [discriminate|]). split; [by intros ? [=]|done].
  - destruct (parseQueryStringParameters _) as [parameters|e]; [|discriminate].
    cbn [mbind Result_bind bind].
    destruct (parameters !! "token") as [[|c1 token]|];
      destruct (parameters !! "auth") as [[|c2 auth]|];
      destruct (parameters !! "user") as [[|c3 user']|];
      destruct (parameters !! "kind") as [[|c4 kind']|];
      cbn [truthy baseUrl dataset kind authToken authServer user default];
      try (destruct (getUserFromToken _) as [user''|e]; [|discriminate]);
      cbn [bind]; intros [= <-]; cbn [baseUrl dataset kind authToken authServer user];
      (split; [exists scheme, host, dataset', (Some (String c q));
               do 3 (split; [done|]); split; [by try case_bool_decide|by intros [|]]|]);
      (split; [try case_bool_decide; congruence|]);
      (split; [by try case_bool_decide|]);
      (split; [by intros ? [= <-]|by try case_bool_decide]).
  - intros [= <-]. cbn [baseUrl dataset kind authToken authServer user].
    split; [exists scheme, host, dataset', None;
             do 3 (split; [done|]); split; [by left|done]|].
    do 2 (split; [discriminate|]). split; [by intros ? [=]|done].
Qed.

End ParseSourceUrlProperties.

Lemma parseSourceUrl_plain_example :
  clio_url "https://us-east4-flyem-private.cloudfunctions.net/mb20"
    "https" "us-east4-flyem-private.cloudfunctions.net" "mb20" None /\
  (@None string = None \/ @None string = Some EmptyString) /\
  @parseSourceUrl DvidFrontend.exampleBuiltins
    sample_parseQueryStringParameters sample_getUserFromToken
    "https://us-east4-flyem-private.cloudfunctions.net/mb20" =
    Ok {| baseUrl := "https://us-east4-flyem-private.cloudfunctions.net"; dataset := "mb20";
          authToken := None; authServer := None; user := None; kind := None |}.
Proof.
  assert (clio_url "https://us-east4-flyem-private.cloudfunctions.net/mb20"
            "https" "us-east4-flyem-private.cloudfunctions.net" "mb20" None) as Hurl.
  { do 2 (split; [split; [discriminate|reflexivity]|]).
    split; [split; [discriminate|split; reflexivity]|].
    split; [discriminate|reflexivity]. }
  split; [exact Hurl|]. split; [left; reflexivity|].
  exact (@parseSourceUrl_plain DvidFrontend.exampleBuiltins
           sample_parseQueryStringParameters sample_getUserFromToken
           _ _ _ _ _ Hurl (or_introl eq_refl)).
Defined.

Lemma parseSourceUrl_fields_example :
  @parseSourceUrl DvidFrontend.exampleBuiltins
    sample_parseQueryStringParameters sample_getUserFromToken
    "https://us-east4-flyem-private.cloudfunctions.net/mb20?token=abc&kind=atlas" =
    Ok {| baseUrl := "https://us-east4-flyem-private.cloudfunctions.net";
          dataset := "mb20"; authToken := Some "abc"; authServer := Some "token:abc";
          user := None; kind := Some "Atlas" |} /\
  Some "Atlas" <> Some "atlas" /\
  (forall token, Some "abc" = Some token ->
     token <> EmptyString /\ Some "token:abc" = Some ("token:" +:+ token)).
Proof.
  assert (@parseSourceUrl DvidFrontend.exampleBuiltins
            sample_parseQueryStringParameters sample_getUserFromToken
            "https://us-east4-flyem-private.cloudfunctions.net/mb20?token=abc&kind=atlas" =
          Ok {| baseUrl := "https://us-east4-flyem-private.cloudfunctions.net";
                dataset := "mb20"; authToken := Some "abc"; authServer := Some "token:abc";
                user := None; kind := Some "Atlas" |}) as Hp
    by (vm_compute; reflexivity).
  split; [exact Hp|].
  destruct (@parseSourceUrl_fields DvidFrontend.exampleBuiltins
              sample_parseQueryStringParameters sample_getUserFromToken _ _ Hp)
    as (_ & Hkind & _ & Htoken & _).
  split; [exact Hkind|exact Htoken].
Defined.

(** *** [parseDescription] *)

Definition json_description (description body : string) : Prop :=
  single_line body /\ description = "${" +:+ body +:+ ":JSON}".

Lemma descriptionPattern_match (description body : string) :
  json_description description body ->
  String_match description descriptionPattern = Some (<[1%nat := body]> ∅).
Proof.
  intros [[Hlf Hcr] ->]. unfold String_match, descriptionPattern.
  rewrite pmatch_PSeq, pmatch_PLit, pmatch_PSeq. cbn [pmatch].
  apply star_app_Some; [by rewrite all_in_CDot, Hlf, Hcr|].
  rewrite star_fails_behind by (cbn; done).
  by rewrite take_string_app.
Qed.

Lemma descriptionPattern_derives (description : string) :
  derives descriptionPattern description -> exists body, json_description description body.
Proof.
  unfold descriptionPattern. intros H.
  apply derives_PSeq_inv in H as (open & rest & -> & Hopen & Hrest).
  apply derives_PLit in Hopen as ->.
  apply derives_PSeq_inv in Hrest as (body & close & -> & Hbody & Hclose).
  apply derives_PLit in Hclose as ->.
  apply derives_PGroup_inv, derives_PStar_inv in Hbody. rewrite all_in_CDot in Hbody.
  apply andb_true_iff in Hbody as [Hlf Hcr]. apply negb_true_iff in Hlf, Hcr.
  by exists body.
Qed.

(** X30.  [parseDescription] returns [JSON.parse] of the text between
    [${] and [:JSON}], or throws what [JSON.parse] throws, when the
    description is [${] + text + [:JSON}] and the text has no line
    break; the text is all that lies between the first two and the last
    six characters, so it may contain [:JSON}] itself.  For every other
    description it returns [null], whatever [JSON.parse] does. *)
Theorem parseDescription_spec (JSON_parse : string -> Result json) (description : string) :
  (exists body, json_description description body /\
                parseDescription JSON_parse description = JSON_parse body) \/
  ((~ exists body, json_description description body) /\
   parseDescription JSON_parse description = Ok JNull).
Proof.
  unfold parseDescription.
  destruct (String_match description descriptionPattern) as [m|] eqn:Hm.
  - left. destruct (descriptionPattern_derives _ (String_match_sound _ _ _ Hm)) as [body Hbody].
    exists body. split; [exact Hbody|].
    rewrite (descriptionPattern_match _ _ Hbody) in Hm. injection Hm as <-.
    unfold group. by rewrite lookup_insert.
  - right. split; [|reflexivity]. intros [body Hbody].
    by rewrite (descriptionPattern_match _ _ Hbody) in Hm.
Qed.

Example descriptionPattern_samples :
  String_match "${[1,2]:JSON}" descriptionPattern = Some (<[1%nat := "[1,2]"]> ∅) /\
  String_match "${a:JSON}b:JSON}" descriptionPattern = Some (<[1%nat := "a:JSON}b"]> ∅) /\
  String_match "${:JSON}" descriptionPattern = Some (<[1%nat := EmptyString]> ∅) /\
  String_match "${[1,2]:JSON} " descriptionPattern = None /\
  String_match "$[1,2]:JSON}" descriptionPattern = None.
Proof. vm_compute. repeat split; reflexivity. Qed.

End Clio.

(** ** [segmentation_display_state/backend.ts] *)

Module SegmentationDisplayStateBackend.

(** A [SegmentationLayerSharedObjectCounterpart] with what this file
    reads and writes: the flag [visible], and the calls of
    [scheduleUpdateChunkPriorities] its chunk manager has received. *)
Record SegmentationLayerSharedObjectCounterpart := {
  visible : bool;
  scheduleUpdateChunkPriorities_calls : nat;
}.

(** [this.chunkManager.scheduleUpdateChunkPriorities()] *)
Definition scheduleUpdateChunkPriorities (obj : SegmentationLayerSharedObjectCounterpart)
    : SegmentationLayerSharedObjectCounterpart :=
  {| visible := visible obj;
     scheduleUpdateChunkPriorities_calls := S (scheduleUpdateChunkPriorities_calls obj) |}.

(** The constructor: the field initialiser [visible = false]; the chunk
    manager is the one of [options], with the calls it had. *)
Definition new_SegmentationLayerSharedObjectCounterpart (calls : nat)
    : SegmentationLayerSharedObjectCounterpart :=
  {| visible := false; scheduleUpdateChunkPriorities_calls := calls |}.

(** What reaches the object: a dispatch of one of the two signals the
    constructor binds [scheduleUpdateChunkPriorities] to, or the RPC
    message [ON_VISIBILITY_CHANGE_METHOD_ID] with its [visible] field. *)
Inductive Message : Type :=
| visibleSegments_changed
| segmentEquivalences_changed
| ON_VISIBILITY_CHANGE (value : bool).

Definition handle (obj : SegmentationLayerSharedObjectCounterpart) (m : Message)
    : SegmentationLayerSharedObjectCounterpart :=
  match m with
  | visibleSegments_changed => scheduleUpdateChunkPriorities obj
  | segmentEquivalences_changed => scheduleUpdateChunkPriorities obj
  | ON_VISIBILITY_CHANGE value =>
      if negb (eqb (visible obj) value) then
        scheduleUpdateChunkPriorities
          {| visible := value;
             scheduleUpdateChunkPriorities_calls := scheduleUpdateChunkPriorities_calls obj |}
      else obj
  end.

(** The number of places where a sequence of flags changes, counted from
    the flag [current]. *)
Fixpoint changes (current : bool) (values : list bool) : nat :=
  match values with
  | [] => 0
  | value :: values' =>
      (if eqb current value then 0 else 1) + changes value values'
  end.

(** *** Properties *)

Lemma handle_ON_VISIBILITY_CHANGE (obj : SegmentationLayerSharedObjectCounterpart)
    (value : bool) :
  let obj' := handle obj (ON_VISIBILITY_CHANGE value) in
  visible obj' = value /\
  scheduleUpdateChunkPriorities_calls obj' =
    (scheduleUpdateChunkPriorities_calls obj + (if eqb (visible obj) value then 0 else 1))%nat.
Proof.
  cbn zeta. cbn [handle].
  destruct (visible obj) eqn:Hobj, value;
    cbn [eqb negb visible scheduleUpdateChunkPriorities scheduleUpdateChunkPriorities_calls];
    rewrite ?Hobj; split; reflexivity || lia.
Qed.

Lemma last_cons {A} (x d : A) (l : list A) : List.last (x :: l) d = List.last l x.
Proof.
  revert x d. induction l as [|y l IH]; intros x d; [reflexivity|].
  change (List.last (x :: y :: l) d) with (List.last (y :: l) d).
  by rewrite (IH y d), (IH y x).
Qed.

Lemma handle_visibility_changes (values : list bool) :
  forall obj : SegmentationLayerSharedObjectCounterpart,
  let obj' := fold_left handle (map ON_VISIBILITY_CHANGE values) obj in
  visible obj' = List.last values (visible obj) /\
  scheduleUpdateChunkPriorities_calls obj' =
    (scheduleUpdateChunkPriorities_calls obj + changes (visible obj) values)%nat.
Proof.
  induction values as [|value values IH]; intros obj; cbn [map fold_left changes].
  - cbn. split; [reflexivity|lia].
  - specialize (IH (handle obj (ON_VISIBILITY_CHANGE value))). cbn zeta in IH.
    destruct IH as [Hv Hc].
    destruct (handle_ON_VISIBILITY_CHANGE obj value) as [Hv1 Hc1]. cbn zeta in Hv1, Hc1.
    cbn zeta. rewrite Hv, Hc, Hv1, Hc1, last_cons. split; [reflexivity|lia].
Qed.

Lemma changes_le (values : list bool) :
  forall current : bool, (changes current values <= length values)%nat.
Proof.
  induction values as [|value values IH]; intros current; cbn [changes length]; [lia|].
  specialize (IH value). destruct (eqb current value); lia.
Qed.

(** X22.  The layer follows the visibility messages and reschedules on
    a change only: after a message the flag is the one of the message;
    the chunk priorities are rescheduled once if the flag changed and not
    at all otherwise, so a repeated message has no effect.  A new layer
    is invisible, and after any sequence of messages it has the flag of
    the last one and has rescheduled as often as the flag changed. *)
Theorem ON_VISIBILITY_CHANGE_reschedules_on_change :
  (forall (obj : SegmentationLayerSharedObjectCounterpart) (value : bool),
     let obj' := handle obj (ON_VISIBILITY_CHANGE value) in
     visible obj' = value /\
     scheduleUpdateChunkPriorities_calls obj' =
       (scheduleUpdateChunkPriorities_calls obj +
        (if eqb (visible obj) value then 0 else 1))%nat /\
     handle obj' (ON_VISIBILITY_CHANGE value) = obj') /\
  (forall (calls : nat) (values : list bool),
     let obj := fold_left handle (map ON_VISIBILITY_CHANGE values)
                  (new_SegmentationLayerSharedObjectCounterpart calls) in
     visible obj = List.last values false /\
     scheduleUpdateChunkPriorities_calls obj = (calls + changes false values)%nat /\
     (scheduleUpdateChunkPriorities_calls obj <= calls + length values)%nat).
Proof.
  split.
  - intros obj value.
    destruct (handle_ON_VISIBILITY_CHANGE obj value) as [Hv Hc]. cbn zeta in *.
    split; [exact Hv|]. split; [exact Hc|].
    set (obj' := handle obj (ON_VISIBILITY_CHANGE value)) in *.
    cbn [handle]. rewrite Hv. by destruct value.
  - intros calls values.
    destruct (handle_visibility_changes values
                (new_SegmentationLayerSharedObjectCounterpart calls)) as [Hv Hc].
    cbn zeta in *. cbn [new_SegmentationLayerSharedObjectCounterpart visible
      scheduleUpdateChunkPriorities_calls] in Hv, Hc.
    split; [exact Hv|]. split; [exact Hc|]. rewrite Hc.
    pose proof (changes_le values false). lia.
Qed.

Example ON_VISIBILITY_CHANGE_samples :
  let obj := fold_left handle
               [ON_VISIBILITY_CHANGE true; ON_VISIBILITY_CHANGE true; visibleSegments_changed;
                ON_VISIBILITY_CHANGE false; ON_VISIBILITY_CHANGE false]
               (new_SegmentationLayerSharedObjectCounterpart 0) in
  visible obj = false /\ scheduleUpdateChunkPriorities_calls obj = 3%nat.
Proof. repeat split. Qed.

End SegmentationDisplayStateBackend.

(** ** [annotation/annotation_layer_state.ts] *)

Module AnnotationLayerState.

(** [SegmentationDisplayState|null|undefined], with what this file
    reads of a display state: the size of its [visibleSegments]. *)
Inductive OptionalSegmentationDisplayState : Type :=
| SegmentationDisplayState (visibleSegments_size : nat)
| null
| undefined.

(** [AnnotationRelationshipState], by the values its two watchables
    hold. *)
Record AnnotationRelationshipState := {
  segmentationState : OptionalSegmentationDisplayState;
  showMatches : bool;
}.

(** [WatchableAnnotationRelationshipStates.get]: the state returned, and
    the map afterwards. *)
Definition get (this : Map AnnotationRelationshipState) (name : string)
    : AnnotationRelationshipState * Map AnnotationRelationshipState :=
  match Map_get this name with
  | Some value => (value, this)
  | None =>
      let value := {| segmentationState := undefined; showMatches := false |} in
      (value, Map_set this name value)
  end.

(** The function [displayUnfiltered] is derived from: the loop over
    [map.values()] with its two [return false]. *)
Fixpoint displayUnfiltered_loop (states : list AnnotationRelationshipState)
    (ignoreNullSegmentFilter : bool) : bool :=
  match states with
  | [] => true
  | state :: states' =>
      if showMatches state then
        if negb ignoreNullSegmentFilter then false
        else
          match segmentationState state with
          | SegmentationDisplayState size =>
              if (0 <? size)%nat then false
              else displayUnfiltered_loop states' ignoreNullSegmentFilter
          | _ => displayUnfiltered_loop states' ignoreNullSegmentFilter
          end
      else displayUnfiltered_loop states' ignoreNullSegmentFilter
  end.

Definition displayUnfiltered (map : Map AnnotationRelationshipState)
    (ignoreNullSegmentFilter : bool) : bool :=
  displayUnfiltered_loop (List.map snd map) ignoreNullSegmentFilter.

(** The listener that the constructor of
    [WatchableAnnotationRelationshipStates] puts on
    [visibleSegments.changed]: its variable [wasEmpty] and the calls of
    [this.changed.dispatch] it has made. *)
Record Listener := {
  wasEmpty : bool;
  dispatched : nat;
}.

(** The registration, with [visibleSegments] of the given size. *)
Definition new_Listener (size : nat) : Listener :=
  {| wasEmpty := (size =? 0)%nat; dispatched := 0 |}.

(** The listener runs, with [visibleSegments] of the given size. *)
Definition visibleSegments_changed (listener : Listener) (size : nat) : Listener :=
  let isEmpty := (size =? 0)%nat in
  if negb (eqb isEmpty (wasEmpty listener)) then
    {| wasEmpty := isEmpty; dispatched := S (dispatched listener) |}
  else listener.

(** *** Properties *)

(** A state lets the annotations through unfiltered. *)
Definition unfiltered (ignoreNullSegmentFilter : bool) (state : AnnotationRelationshipState)
    : Prop :=
  showMatches state = true ->
  ignoreNullSegmentFilter = true /\
  forall size, segmentationState state = SegmentationDisplayState size -> size = 0%nat.

Lemma displayUnfiltered_loop_spec (states : list AnnotationRelationshipState)
    (ignoreNullSegmentFilter : bool) :
  displayUnfiltered_loop states ignoreNullSegmentFilter = true <->
  Forall (unfiltered ignoreNullSegmentFilter) states.
Proof.
  induction states as [|state states IH]; cbn [displayUnfiltered_loop].
  - split; [intros _; apply Forall_nil_2|reflexivity].
  - rewrite Forall_cons. unfold unfiltered at 1.
    destruct (showMatches state); [|rewrite IH; split; [intros ?; split; [discriminate|done]|tauto]].
    destruct ignoreNullSegmentFilter; cbn [negb].
    + destruct (segmentationState state) as [size| |].
      * destruct (Nat.ltb_spec 0 size) as [Hpos|Hzero].
        -- split; [discriminate|]. intros [Hs _].
           destruct (Hs eq_refl) as [_ Hsize]. specialize (Hsize size eq_refl). lia.
        -- rewrite IH. split; [|tauto]. intros Hrest. split; [|exact Hrest].
           intros _. split; [reflexivity|]. intros size' [= <-]. lia.
      * rewrite IH. split; [|tauto]. intros Hrest. split; [|exact Hrest].
        intros _. split; [reflexivity|]. discriminate.
      * rewrite IH. split; [|tauto]. intros Hrest. split; [|exact Hrest].
        intros _. split; [reflexivity|]. discriminate.
    + split; [discriminate|]. intros [Hs _]. by destruct (Hs eq_refl).
Qed.

(** X23.  Annotations are displayed unfiltered exactly when no
    relationship filters them: every relationship that shows matches
    does so while the null segment filter is ignored and while its
    segmentation layer is absent, still loading, or has no visible
    segment.  So with [ignoreNullSegmentFilter] off one relationship
    that shows matches is enough to filter, and the order of the
    relationships in the map does not matter. *)
Theorem displayUnfiltered_spec (map : Map AnnotationRelationshipState)
    (ignoreNullSegmentFilter : bool) :
  (displayUnfiltered map ignoreNullSegmentFilter = true <->
     forall name state, (name, state) ∈ map ->
       showMatches state = true ->
       ignoreNullSegmentFilter = true /\
       forall size, segmentationState state = SegmentationDisplayState size -> size = 0%nat) /\
  (displayUnfiltered map false = true <->
     forall name state, (name, state) ∈ map -> showMatches state = false) /\
  (forall map', map ≡ₚ map' ->
     displayUnfiltered map' ignoreNullSegmentFilter =
     displayUnfiltered map ignoreNullSegmentFilter).
Proof.
  assert (forall (m : Map AnnotationRelationshipState) (ignore : bool),
            displayUnfiltered m ignore = true <->
            forall name state, (name, state) ∈ m -> unfiltered ignore state) as Hspec.
  { intros m ignore. unfold displayUnfiltered.
    rewrite displayUnfiltered_loop_spec, Forall_forall. split.
    - intros Hall name state Hin. apply Hall.
      change state with (snd (name, state)). by apply (list_elem_of_fmap_2 snd).
    - intros Hall state Hin. apply (list_elem_of_fmap_1 snd) in Hin as ([name state'] & -> & Hin).
      by apply (Hall name). }
  split; [apply Hspec|]. split.
  - rewrite Hspec. split.
    + intros Hall name state Hin. specialize (Hall name state Hin).
      destruct (showMatches state) eqn:Hshow; [|reflexivity]. by destruct (Hall Hshow).
    + intros Hall name state Hin Hshow. rewrite (Hall name state Hin) in Hshow.
      discriminate Hshow.
  - intros map' Hperm.
    destruct (displayUnfiltered map ignoreNullSegmentFilter) eqn:Hmap.
    + apply Hspec. intros name state Hin. rewrite <- Hperm in Hin.
      by apply (proj1 (Hspec _ _) Hmap name).
    + destruct (displayUnfiltered map' ignoreNullSegmentFilter) eqn:Hmap'; [|reflexivity].
      rewrite <- Hmap. symmetry. apply Hspec. intros name state Hin. rewrite Hperm in Hin.
      by apply (proj1 (Hspec _ _) Hmap' name).
Qed.

(** X24.  [WatchableAnnotationRelationshipStates.get] never returns
    [undefined]: it returns the state stored under the name, or stores
    and returns a new one that shows no matches and has no segmentation
    layer.  Asking again returns the same state and changes nothing, no
    other name is affected, and whether annotations are displayed
    unfiltered is never changed by asking. *)
Theorem get_creates_once (this : Map AnnotationRelationshipState) (name : string) :
  let '(value, this') := get this name in
  Map_get this' name = Some value /\
  get this' name = (value, this') /\
  (Map_get this name = None ->
     value = {| segmentationState := undefined; showMatches := false |}) /\
  (forall value0, Map_get this name = Some value0 -> value = value0 /\ this' = this) /\
  (forall other, other <> name -> Map_get this' other = Map_get this other) /\
  (forall ignoreNullSegmentFilter,
     displayUnfiltered this' ignoreNullSegmentFilter =
     displayUnfiltered this ignoreNullSegmentFilter).
Proof.
  unfold get. destruct (Map_get this name) as [value|] eqn:Hget.
  - rewrite Hget. split; [reflexivity|]. split; [reflexivity|]. split; [discriminate|].
    split; [by intros value0 [= ->]|]. split; [reflexivity|reflexivity].
  - rewrite DvidFrontend.assoc_Map_set, decide_True by reflexivity.
    split; [reflexivity|]. split; [reflexivity|]. split; [reflexivity|].
    split; [discriminate|]. split.
    + intros other Hother. rewrite DvidFrontend.assoc_Map_set. by rewrite decide_False.
    + intros ignore. unfold displayUnfiltered. rewrite Map_set_absent by exact Hget.
      rewrite map_app. cbn [List.map snd].
      generalize (List.map snd this). intros states.
      induction states as [|state states IH]; [reflexivity|].
      cbn [app displayUnfiltered_loop]. rewrite IH. reflexivity.
Qed.

Lemma visibleSegments_changed_run (sizes : list nat) :
  forall listener : Listener,
  let listener' := fold_left visibleSegments_changed sizes listener in
  wasEmpty listener' = List.last (List.map (fun size => (size =? 0)%nat) sizes) (wasEmpty listener) /\
  dispatched listener' =
    (dispatched listener +
     SegmentationDisplayStateBackend.changes (wasEmpty listener)
       (List.map (fun size => (size =? 0)%nat) sizes))%nat.
Proof.
  induction sizes as [|size sizes IH]; intros listener;
    cbn [List.map fold_left SegmentationDisplayStateBackend.changes].
  - cbn. split; [reflexivity|lia].
  - specialize (IH (visibleSegments_changed listener size)). cbn zeta in IH.
    destruct IH as [Hw Hd]. cbn zeta. rewrite Hw, Hd, SegmentationDisplayStateBackend.last_cons.
    unfold visibleSegments_changed.
    destruct (size =? 0)%nat, (wasEmpty listener) eqn:Hl;
      cbn [eqb negb wasEmpty dispatched]; rewrite ?Hl; split; reflexivity || lia.
Qed.

(** X25.  The listener on [visibleSegments] dispatches a change of the
    relationship states exactly when the set of visible segments
    becomes empty or stops being empty: [wasEmpty] always tells whether
    the set was empty at the last run, a run with the same emptiness
    dispatches nothing, and over any sequence of runs there are as many
    dispatches as changes of emptiness. *)
Theorem visibleSegments_listener_dispatches_on_change :
  (forall (listener : Listener) (size : nat),
     let listener' := visibleSegments_changed listener size in
     wasEmpty listener' = (size =? 0)%nat /\
     dispatched listener' =
       (dispatched listener + (if eqb (wasEmpty listener) (size =? 0)%nat then 0 else 1))%nat /\
     visibleSegments_changed listener' size = listener') /\
  (forall (size0 : nat) (sizes : list nat),
     let emptiness := List.map (fun size => (size =? 0)%nat) sizes in
     let listener := fold_left visibleSegments_changed sizes (new_Listener size0) in
     wasEmpty listener = List.last emptiness (size0 =? 0)%nat /\
     dispatched listener = SegmentationDisplayStateBackend.changes (size0 =? 0)%nat emptiness).
Proof.
  split.
  - intros listener size. cbn zeta. unfold visibleSegments_changed.
    destruct (size =? 0)%nat eqn:Hs, (wasEmpty listener) eqn:Hl;
      cbn [eqb negb wasEmpty dispatched]; rewrite ?Hl, ?Hs; cbn [eqb negb];
      repeat split; lia.
  - intros size0 sizes.
    destruct (visibleSegments_changed_run sizes (new_Listener size0)) as [Hw Hd].
    cbn zeta in *. cbn [new_Listener wasEmpty dispatched] in Hw, Hd.
    split; [exact Hw|]. rewrite Hd. lia.
Qed.

Example displayUnfiltered_samples :
  let hidden := {| segmentationState := SegmentationDisplayState 3; showMatches := false |} in
  let loading := {| segmentationState := null; showMatches := true |} in
  let filtering := {| segmentationState := SegmentationDisplayState 3; showMatches := true |} in
  displayUnfiltered [] true = true /\
  displayUnfiltered [("a", hidden); ("b", loading)] true = true /\
  displayUnfiltered [("a", hidden); ("b", loading)] false = false /\
  displayUnfiltered [("a", hidden); ("b", loading); ("c", filtering)] true = false /\
  dispatched (fold_left visibleSegments_changed [3; 5; 0; 0; 1]%nat (new_Listener 0)) = 3%nat.
Proof. repeat split. Qed.

End AnnotationLayerState.
